(** * ReRevolve: token extraction, credential lifecycle and account switching

    A shallow embedding of the TypeScript services [TokenService]
    (token-service.ts) and [AccountSwitcher] (account-switcher.ts), and the
    properties of the design description that are settled on it.

    Conventions of the embedding.
    - A JavaScript number is a [Z].  The source computes in IEEE doubles; the
      embedding agrees with it as long as the numbers that are used are
      integers below 2^53, which holds on the buffers considered here: a
      tag is below 2^32, a length is the length of a payload, a varint has
      at most ten bytes, and the value of a varint field is read without
      being used.  The bit operators [&] and [>>] first convert their
      operands to a signed 32-bit integer; that conversion is written out
      ([ToInt32]).
    - A [Buffer] is a [list byte].
    - A JavaScript string is a Rocq [string].  The embedding is exact on
      ASCII text, where a character, a UTF-16 code unit and a UTF-8 byte
      coincide (tokens, e-mail addresses, keys and JSON syntax are ASCII);
      [Buffer.toString()] and its inverse are then the byte-for-character
      conversions of the standard library.
    - A thrown exception is the [Throw] case of [Res]; [try]/[catch] is
      [try_catch].
    - [while] loops whose progress depends on the data take a fuel argument;
      they return [None] when the fuel runs out, and each loop is shown to
      be started with enough fuel.
    - [child_process.exec] is a field of the switcher's [Host].  [Shell]
      gives the reading of a command line by the shell and the sqlite3
      tool, for the properties that depend on what the command does.
    - A JavaScript object used as a map is the [gmap] of its own
      properties.  Where a function reads or writes a member through the
      prototype chain ([saveSnapshot], [deleteSnapshot]), the members every
      object inherits and the effect of the accessor [__proto__] are written
      out ([Snapshots.inherited], [Snapshots.sets_prototype]). *)

From Stdlib Require Import ZArith Lia.
From Stdlib.Strings Require Import Byte Ascii.
From stdpp Require Import base option list sorting strings pretty gmap.

Local Open Scope Z_scope.

(** ** Exceptions *)

Inductive JsError :=
| IncompleteVarint                 (* new Error('Incomplete varint') *)
| UnknownWireType (wireType : Z)   (* new Error(`Unknown wire type: ${wireType}`) *)
| SyntaxError                      (* JSON.parse *)
| SqlError                         (* sql.js: new SQL.Database / prepare / step *)
| IOError.                         (* fs.readFileSync *)

Inductive Res (A : Type) :=
| Ok (a : A)
| Throw (e : JsError).
Arguments Ok {A} a.
Arguments Throw {A} e.

#[global] Instance Res_ret : MRet Res := fun A a => Ok a.
#[global] Instance Res_bind : MBind Res := fun A B f m =>
  match m with
  | Ok a => f a
  | Throw e => Throw e
  end.

(** [try { body } catch (err) { handler }] *)
Definition try_catch {A} (body : Res A) (handler : JsError -> Res A) : Res A :=
  match body with
  | Ok a => Ok a
  | Throw e => handler e
  end.

(** State and exceptions: a computation over a world [W] returns a value
    or throws, and the effects made before a throw persist. *)
Definition StateRes (W A : Type) : Type := W -> Res A * W.

#[global] Instance StateRes_ret W : MRet (StateRes W) := fun A a w => (Ok a, w).
#[global] Instance StateRes_bind W : MBind (StateRes W) := fun A B f m w =>
  match m w with
  | (Ok a, w') => f a w'
  | (Throw e, w') => (Throw e, w')
  end.

Definition lift {W A} (r : Res A) : StateRes W A := fun w => (r, w).

Definition try_catchM {W A} (body : StateRes W A) (handler : JsError -> StateRes W A)
  : StateRes W A :=
  fun w =>
    match body w with
    | (Ok a, w') => (Ok a, w')
    | (Throw e, w') => handler e w'
    end.

(** ** Numbers and buffers *)

Definition ToInt32 (x : Z) : Z := (x + 2 ^ 31) mod 2 ^ 32 - 2 ^ 31.

(** [a & b] *)
Definition js_and (a b : Z) : Z := Z.land (ToInt32 a) (ToInt32 b).

(** [a >> n] *)
Definition js_sar (a n : Z) : Z := Z.shiftr (ToInt32 a) (n mod 32).

Definition Buffer := list byte.

Definition byte_val (b : byte) : Z := Z.of_N (Byte.to_N b).

(** [data.length] *)
Definition buf_length (data : Buffer) : Z := Z.of_nat (length data).

(** [data.subarray(start, end)] for non-negative bounds: the view is clamped
    to the buffer. *)
Definition subarray (data : Buffer) (start end_ : Z) : Buffer :=
  take (Z.to_nat (end_ - start)) (drop (Z.to_nat start) data).

(** [value.toString()] *)
Definition buf_toString (data : Buffer) : string := String.string_of_list_byte data.

(** ** The TLV decoder of token-service.ts *)

Module Protobuf.

(** The body of the [while (pos < data.length)] loop of [readVarint]; [rest]
    is the part of the buffer from [pos] on. *)
Fixpoint readVarint_loop (rest : Buffer) (result shift pos : Z) : Res (Z * Z) :=
  match rest with
  | [] => Throw IncompleteVarint
  | b :: rest' =>
      let byte := byte_val b in
      let result := result + js_and byte 0x7f * 2 ^ shift in
      let pos := pos + 1 in
      if js_and byte 0x80 =? 0 then Ok (result, pos)
      else readVarint_loop rest' result (shift + 7) pos
  end.

Definition readVarint (data : Buffer) (offset : Z) : Res (Z * Z) :=
  readVarint_loop (drop (Z.to_nat offset) data) 0 0 offset.

Definition skipField (data : Buffer) (offset wireType : Z) : Res Z :=
  if wireType =? 0 then
    '(_, newOffset) ← readVarint data offset;
    Ok newOffset
  else if wireType =? 1 then Ok (offset + 8)
  else if wireType =? 2 then
    '(length, contentOffset) ← readVarint data offset;
    Ok (contentOffset + length)
  else if wireType =? 5 then Ok (offset + 4)
  else Throw (UnknownWireType wireType).

(** The [while (offset < data.length)] loop of [findField].  Only the read
    of the tag is guarded by [try]/[catch]; the read of the length and
    [skipField] throw to the caller. *)
Fixpoint findField_loop (fuel : nat) (data : Buffer) (targetField offset : Z)
  : option (Res (option Buffer)) :=
  if offset <? buf_length data then
    match fuel with
    | O => None
    | S fuel' =>
        match readVarint data offset with
        | Throw _ => Some (Ok None)
        | Ok (tag, newOffset) =>
            let wireType := js_and tag 7 in
            let fieldNum := js_sar tag 3 in
            if (fieldNum =? targetField) && (wireType =? 2) then
              Some ('(length, contentOffset) ← readVarint data newOffset;
                    Ok (Some (subarray data contentOffset (contentOffset + length))))
            else
              match skipField data newOffset wireType with
              | Throw e => Some (Throw e)
              | Ok offset' => findField_loop fuel' data targetField offset'
              end
        end
    end
  else Some (Ok None).

Definition findField_fuel (data : Buffer) : nat := S (length data).

Definition findField (data : Buffer) (targetField : Z) : Res (option Buffer) :=
  default (Ok None) (findField_loop (findField_fuel data) data targetField 0).

Record TokenInfo := {
  accessToken : option string;
  refreshToken : option string
}.

(** One iteration of the loop of [parseOAuthTokenInfo], inside its [try]:
    the new offset and the updated [info]. *)
Definition parseOAuthTokenInfo_step (data : Buffer) (offset : Z) (info : TokenInfo)
  : Res (Z * TokenInfo) :=
  '(tag, newOffset) ← readVarint data offset;
  let wireType := js_and tag 7 in
  let fieldNum := js_sar tag 3 in
  let offset := newOffset in
  if wireType =? 2 then
    '(length, contentOffset) ← readVarint data offset;
    let value := subarray data contentOffset (contentOffset + length) in
    let offset := contentOffset + length in
    if fieldNum =? 1 then
      Ok (offset, {| accessToken := Some (buf_toString value);
                     refreshToken := refreshToken info |})
    else if fieldNum =? 3 then
      Ok (offset, {| accessToken := accessToken info;
                     refreshToken := Some (buf_toString value) |})
    else Ok (offset, info)
  else
    offset ← skipField data offset wireType;
    Ok (offset, info).

Fixpoint parseOAuthTokenInfo_loop (fuel : nat) (data : Buffer) (offset : Z)
    (info : TokenInfo) : option TokenInfo :=
  if offset <? buf_length data then
    match fuel with
    | O => None
    | S fuel' =>
        match parseOAuthTokenInfo_step data offset info with
        | Throw _ => Some info                      (* catch { break; } *)
        | Ok (offset', info') => parseOAuthTokenInfo_loop fuel' data offset' info'
        end
    end
  else Some info.

Definition emptyInfo : TokenInfo := {| accessToken := None; refreshToken := None |}.

Definition parseOAuthTokenInfo (data : Buffer) : TokenInfo :=
  default emptyInfo (parseOAuthTokenInfo_loop (S (length data)) data 0 emptyInfo).

End Protobuf.

(** ** The wire format, as the design description gives it

    These definitions are the specification side of the decoder.  An
    encoded message is a sequence of fields; a field is a varint tag
    [(fieldNumber << 3) | wireType] followed by a value whose shape the wire
    type fixes: a varint, eight bytes, a varint length and that many bytes,
    or four bytes.  A field is kept with the bytes of its varints, so that
    every buffer of the format is the encoding of a list of fields, whether
    its varints are of minimal length or not.  The source has no encoder;
    the decoder is stated against this one. *)

Module Wire.

(** A varint: bytes with the high bit set, closed by one without. *)
Fixpoint is_varint (bytes : Buffer) : bool :=
  match bytes with
  | [] => false
  | b :: rest =>
      if byte_val b <? 128 then
        match rest with
        | [] => true
        | _ :: _ => false
        end
      else is_varint rest
  end.

(** Its value: seven bits a byte, least significant group first. *)
Fixpoint varint_value (bytes : Buffer) : Z :=
  match bytes with
  | [] => 0
  | b :: rest => byte_val b mod 128 + 128 * varint_value rest
  end.

Definition byte_of_Z (z : Z) : byte := default x00 (Byte.of_N (Z.to_N z)).

(** The varint of minimal length with the value [n]. *)
Fixpoint encode_varint_fuel (fuel : nat) (n : Z) : Buffer :=
  match fuel with
  | O => [byte_of_Z n]
  | S fuel' =>
      if n <? 128 then [byte_of_Z n]
      else byte_of_Z (n mod 128 + 128) :: encode_varint_fuel fuel' (n / 128)
  end.

Definition encode_varint (n : Z) : Buffer :=
  encode_varint_fuel (Z.to_nat (Z.log2 n)) n.

Inductive Value :=
| Varint (bytes : Buffer)
| Fixed64 (bytes : Buffer)
| LengthDelimited (length : Buffer) (payload : Buffer)
| Fixed32 (bytes : Buffer).

Record Field := { tagBytes : Buffer; value : Value }.

Definition tag (f : Field) : Z := varint_value (tagBytes f).

Definition fieldNumber (f : Field) : Z := tag f / 8.

Definition wireType (v : Value) : Z :=
  match v with
  | Varint _ => 0
  | Fixed64 _ => 1
  | LengthDelimited _ _ => 2
  | Fixed32 _ => 5
  end.

Definition encode_value (v : Value) : Buffer :=
  match v with
  | Varint bytes => bytes
  | Fixed64 bytes => bytes
  | LengthDelimited length payload => length ++ payload
  | Fixed32 bytes => bytes
  end.

Definition encode_field (f : Field) : Buffer :=
  tagBytes f ++ encode_value (value f).

Definition encode_message (fs : list Field) : Buffer :=
  concat (map encode_field fs).

(** What the decoder relies on.  A value has the shape and size its wire
    type announces; the tag of a field is a varint below 2^32 (field numbers
    below 2^29, the range of the format) whose low three bits are the wire
    type of the value. *)
Definition value_shape (v : Value) : bool :=
  match v with
  | Varint bytes => is_varint bytes
  | Fixed64 bytes => buf_length bytes =? 8
  | LengthDelimited length payload =>
      is_varint length && (varint_value length =? buf_length payload)
  | Fixed32 bytes => buf_length bytes =? 4
  end.

Definition field_shape (f : Field) : bool :=
  is_varint (tagBytes f) && (tag f <? 2 ^ 32)
  && (tag f mod 8 =? wireType (value f)) && value_shape (value f).

Definition shaped (fs : list Field) : bool := forallb field_shape fs.

(** A field is well formed when it has that shape and none of its varints
    is longer than the ten bytes the format allows. *)
Definition varints (f : Field) : list Buffer :=
  tagBytes f
    :: match value f with
       | Varint bytes => [bytes]
       | LengthDelimited length _ => [length]
       | _ => []
       end.

Definition wf_field (f : Field) : bool :=
  field_shape f && forallb (fun bytes => (length bytes <=? 10)%nat) (varints f).

Definition well_formed (fs : list Field) : bool := forallb wf_field fs.

(** The fields an encoder writes: varints of minimal length. *)
Definition varint_field (number n : Z) : Field :=
  {| tagBytes := encode_varint (number * 8 + 0); value := Varint (encode_varint n) |}.

Definition fixed64_field (number : Z) (bytes : Buffer) : Field :=
  {| tagBytes := encode_varint (number * 8 + 1); value := Fixed64 bytes |}.

Definition length_delimited_field (number : Z) (payload : Buffer) : Field :=
  {| tagBytes := encode_varint (number * 8 + 2);
     value := LengthDelimited (encode_varint (buf_length payload)) payload |}.

Definition fixed32_field (number : Z) (bytes : Buffer) : Field :=
  {| tagBytes := encode_varint (number * 8 + 5); value := Fixed32 bytes |}.

(** The payload of the first length-delimited field numbered [target]. *)
Fixpoint first_length_delimited (target : Z) (fs : list Field) : option Buffer :=
  match fs with
  | [] => None
  | f :: fs' =>
      match value f with
      | LengthDelimited _ payload =>
          if fieldNumber f =? target then Some payload
          else first_length_delimited target fs'
      | _ => first_length_delimited target fs'
      end
  end.

(** A field that is not a length-delimited occurrence of [target]. *)
Definition unrelated (target : Z) (f : Field) : bool :=
  match value f with
  | LengthDelimited _ _ => negb (fieldNumber f =? target)
  | _ => true
  end.

(** The two-level shape of the token blob: an inner message with the access
    token at field 1 and the refresh token at field 3, wrapped as a
    length-delimited field of the outer message. *)
Definition utf8 (s : string) : Buffer := String.list_byte_of_string s.

Definition encode_token_info (access refresh : string) : Buffer :=
  encode_message
    [ length_delimited_field 1 (utf8 access);
      length_delimited_field 3 (utf8 refresh) ].

Definition encode_wrapped (outerField : Z) (inner : Buffer) : Buffer :=
  encode_message [ length_delimited_field outerField inner ].

(** One tag-read followed by [skipField] of the value the tag announces. *)
Definition skip_one (data : Buffer) (offset : Z) : Res Z :=
  '(tag, newOffset) ← Protobuf.readVarint data offset;
  Protobuf.skipField data newOffset (js_and tag 7).

(** Repeated application of [skip_one] from [offset] on: the offset at which
    the walk leaves the buffer. *)
Fixpoint walk_loop (fuel : nat) (data : Buffer) (offset : Z) : option (Res Z) :=
  if offset <? buf_length data then
    match fuel with
    | O => None
    | S fuel' =>
        match skip_one data offset with
        | Throw e => Some (Throw e)
        | Ok offset' => walk_loop fuel' data offset'
        end
    end
  else Some (Ok offset).

Definition walk (data : Buffer) : option (Res Z) :=
  walk_loop (S (length data)) data 0.

End Wire.

(** ** Strings *)

Module Str.

Definition chars (s : string) : list ascii := String.list_ascii_of_string s.
Definition of_chars (l : list ascii) : string := String.string_of_list_ascii l.

Definition code (c : ascii) : Z := Z.of_N (Ascii.N_of_ascii c).

Definition in_range (lo hi : Z) (c : ascii) : bool :=
  (lo <=? code c) && (code c <=? hi).

Definition is_lower (c : ascii) : bool := in_range 97 122 c.   (* a-z *)
Definition is_upper (c : ascii) : bool := in_range 65 90 c.    (* A-Z *)
Definition is_digit (c : ascii) : bool := in_range 48 57 c.    (* 0-9 *)

(** [s.length] *)
Definition length (s : string) : Z := Z.of_nat (String.length s).

(** [!s] for a string: only the empty string is falsy. *)
Definition falsy (s : string) : bool :=
  match s with
  | EmptyString => true
  | String _ _ => false
  end.

(** [!v] for [v : string | undefined]. *)
Definition not (v : option string) : bool :=
  match v with
  | None => true
  | Some s => falsy s
  end.

Definition lower_char (c : ascii) : ascii :=
  if is_upper c then Ascii.ascii_of_N (Z.to_N (code c + 32)) else c.

(** [s.toLowerCase()] *)
Definition toLowerCase (s : string) : string := of_chars (map lower_char (chars s)).

(** The white space of [\s] and of [trim()], within ASCII. *)
Definition is_space (c : ascii) : bool := in_range 9 13 c || (code c =? 32).

Fixpoint trim_start (l : list ascii) : list ascii :=
  match l with
  | c :: l' => if is_space c then trim_start l' else l
  | [] => []
  end.

(** [s.trim()] *)
Definition trim (s : string) : string :=
  of_chars (rev (trim_start (rev (trim_start (chars s))))).

(** [s.replace(/c/g, by)] for a one-character pattern. *)
Definition replace_char (c : ascii) (by_ : string) (s : string) : string :=
  of_chars (flat_map (fun x => if Ascii.eqb x c then chars by_ else [x]) (chars s)).

Definition dquote : ascii := Ascii.ascii_of_nat 34.
Definition squote : ascii := Ascii.ascii_of_nat 39.
Definition backslash : ascii := Ascii.ascii_of_nat 92.

End Str.

(** ** The regular expressions of token-service.ts

    Every pattern of the source is a sequence of literals and greedy bounded
    repetitions of a character class; this is the matcher for that fragment,
    with the backtracking of a repetition written out. *)

Module Regex.

Inductive atom :=
| Lit (text : list ascii)
| Rep (class : ascii -> bool) (lo : nat) (hi : option nat).

Definition pattern := list atom.

Fixpoint strip_prefix (p s : list ascii) : option (list ascii) :=
  match p, s with
  | [], _ => Some s
  | a :: p', b :: s' => if Ascii.eqb a b then strip_prefix p' s' else None
  | _ :: _, [] => None
  end.

(** The length of the longest run of [class] at the head of [s], at most
    [cap] when a cap is given. *)
Fixpoint run (class : ascii -> bool) (cap : option nat) (s : list ascii) : nat :=
  match s with
  | c :: s' =>
      match cap with
      | Some O => O
      | Some (S k) => if class c then S (run class (Some k) s') else O
      | None => if class c then S (run class None s') else O
      end
  | [] => O
  end.

(** Greedy repetition: the longest length first, giving back one character
    at a time down to [lo]. *)
Fixpoint backtrack (k : list ascii -> option (list (list ascii)))
    (s : list ascii) (n lo : nat) : option (list (list ascii)) :=
  if (n <? lo)%nat then None
  else
    match k (drop n s) with
    | Some pieces => Some (take n s :: pieces)
    | None =>
        match n with
        | O => None
        | S n' => backtrack k s n' lo
        end
    end.

(** A match of the pattern at the head of [s]: the text each atom consumed. *)
Fixpoint match_here (p : pattern) (s : list ascii) : option (list (list ascii)) :=
  match p with
  | [] => Some []
  | Lit text :: p' =>
      match strip_prefix text s with
      | Some rest => cons text <$> match_here p' rest
      | None => None
      end
  | Rep class lo hi :: p' => backtrack (match_here p') s (run class hi s) lo
  end.

Record Match := { index : Z; pieces : list (list ascii) }.

(** [match[0]] *)
Definition whole (m : Match) : string := Str.of_chars (concat (pieces m)).

(** The text consumed by atom number [i] of the pattern (a capture group). *)
Definition group (i : nat) (m : Match) : string := Str.of_chars (default [] (pieces m !! i)).

(** [while ((match = regex.exec(content)) !== null)] with the [g] flag: the
    next search starts where the previous match ended.  [skip] counts the
    characters of the previous match still to pass over. *)
Fixpoint exec_from (p : pattern) (s : list ascii) (i : Z) (skip : nat) : list Match :=
  match s with
  | [] => []
  | _ :: s' =>
      match skip with
      | S k => exec_from p s' (i + 1) k
      | O =>
          match match_here p s with
          | Some ps =>
              {| index := i; pieces := ps |}
                :: exec_from p s' (i + 1) (Nat.pred (length (concat ps)))
          | None => exec_from p s' (i + 1) O
          end
      end
  end.

Definition exec_all (p : pattern) (content : string) : list Match :=
  exec_from p (Str.chars content) 0 O.

(** [s.match(regex)] without the [g] flag: the first match. *)
Definition match_first (p : pattern) (s : string) : option Match :=
  head (exec_all p s).

End Regex.

(** ** The byte scan of [extractTokensFromDb] *)

Module ByteScan.
Import Regex.

Definition lit (s : string) : atom := Lit (Str.chars s).

(** [[a-zA-Z0-9_-]] *)
Definition token_char (c : ascii) : bool :=
  Str.is_lower c || Str.is_upper c || Str.is_digit c
  || (Str.code c =? 95) || (Str.code c =? 45).

(** [[a-zA-Z0-9+/=_-]] *)
Definition base64_char (c : ascii) : bool :=
  token_char c || (Str.code c =? 43) || (Str.code c =? 47) || (Str.code c =? 61).

(** The class of every character but the double quote. *)
Definition not_dquote (c : ascii) : bool := negb (Ascii.eqb c Str.dquote).

(** [/eWEyOS[a-zA-Z0-9+/=_-]{50,300}/g] *)
Definition base64Regex : pattern := [lit "eWEyOS"; Rep base64_char 50 (Some 300%nat)].

(** [/ya29\.[a-zA-Z0-9_-]+/] *)
Definition decodedRegex : pattern := [lit "ya29."; Rep token_char 1 None].

(** [/ya29\.[a-zA-Z0-9_-]{100,}/g] *)
Definition directRegex : pattern := [lit "ya29."; Rep token_char 100 None].

(** [/1\/[a-zA-Z0-9_-]{40,150}/g] *)
Definition refreshRegex1 : pattern := [lit "1/"; Rep token_char 40 (Some 150%nat)].

(** [/1\/\/[a-zA-Z0-9_-]{30,150}/g] *)
Definition refreshRegex2 : pattern := [lit "1//"; Rep token_char 30 (Some 150%nat)].

(** The third refresh-token pattern: the quoted key [refresh_token], white
    space, a colon, white space, and a quoted value of 30 to 200 characters
    none of which is a double quote; the value is the capture group, atom 5. *)
Definition refreshRegex3 : pattern :=
  [ Lit ([Str.dquote] ++ Str.chars "refresh_token" ++ [Str.dquote]);
    Rep Str.is_space 0 None; lit ":"; Rep Str.is_space 0 None;
    Lit [Str.dquote]; Rep not_dquote 30 (Some 200%nat); Lit [Str.dquote] ].

(** An element of [allTokens] or of [refreshTokens]. *)
Record Found := { index : Z; token : string }.

(** [list.sort((a, b) => a.index - b.index)]: the sort of the language is
    stable; an element is placed before the first one that compares greater. *)
Fixpoint insert_by_index (x : Found) (l : list Found) : list Found :=
  match l with
  | [] => [x]
  | y :: l' => if index x - index y <? 0 then x :: l else y :: insert_by_index x l'
  end.

Definition sort_by_index (l : list Found) : list Found :=
  fold_left (fun sorted x => insert_by_index x sorted) l [].

(** The order of the comparator. *)
Definition by_index (a b : Found) : Prop := index a <= index b.

Record Tokens := { accessToken : string; refreshToken : option string }.

Section Scan.
(** [Buffer.from(text, 'base64')], a primitive of the platform. *)
Variable from_base64 : string -> Buffer.

(** The tokens found through the base64 pattern: the [ya29.] token inside
    the decoded text, at the offset of the encoded text. *)
Definition base64_tokens (content : string) : list Found :=
  omap (fun m : Match =>
          let decoded := buf_toString (from_base64 (whole m)) in
          match match_first decodedRegex decoded with
          | Some tokenMatch =>
              if 100 <? Str.length (whole tokenMatch)
              then Some {| index := Regex.index m; token := whole tokenMatch |}
              else None
          | None => None
          end)
       (exec_all base64Regex content).

Definition direct_tokens (content : string) : list Found :=
  map (fun m : Match => {| index := Regex.index m; token := whole m |})
      (exec_all directRegex content).

(** [allTokens] when the two loops are done *)
Definition allTokens (content : string) : list Found :=
  base64_tokens content ++ direct_tokens content.

(** [refreshTokens] when the three loops are done *)
Definition refreshTokens (content : string) : list Found :=
  map (fun m : Match => {| index := Regex.index m; token := whole m |})
      (exec_all refreshRegex1 content)
  ++ map (fun m : Match => {| index := Regex.index m; token := whole m |})
      (exec_all refreshRegex2 content)
  ++ map (fun m : Match => {| index := Regex.index m; token := group 5 m |})
      (exec_all refreshRegex3 content).

(** The part of [extractTokensFromDb] that follows the read of the file. *)
Definition scan (content : string) : option Tokens :=
  let refreshToken :=
    token <$> last (sort_by_index (refreshTokens content)) in
  match last (sort_by_index (allTokens content)) with
  | Some lastToken => Some {| accessToken := token lastToken; refreshToken := refreshToken |}
  | None => None
  end.

End Scan.

End ByteScan.

(** ** Records and platform primitives *)

Module StoredCredential.
Record t := {
  accessToken : string;
  refreshToken : option string;
  expiresAt : Z;
  email : string;
  createdAt : Z
}.
End StoredCredential.

(** The object [getAuthStatus] returns: [{ email?: string; apiKey?: string }]. *)
Module AuthStatus.
Record t := { email : option string; apiKey : option string }.
End AuthStatus.

Module AccountSnapshot.
Record t := { email : string; authStatus : string; savedAt : Z }.
End AccountSnapshot.

(** What the services use of the JavaScript platform and of sql.js, none of
    it code of the repository.  [JSON.parse] is taken at the type the source
    annotates its result with; [Throw] is the exception the call, or the
    first read of a property of its result, raises. *)
Class Platform := {
  JSON_parse_credential : string -> Res StoredCredential.t;
  JSON_stringify_credential : StoredCredential.t -> string;
  JSON_parse_authStatus : string -> Res AuthStatus.t;
  JSON_parse_snapshots : string -> Res (gmap string AccountSnapshot.t);
  (* Buffer.from(text, 'base64') *)
  from_base64 : string -> Buffer;
  (* new SQL.Database(fileBuffer) and the rows of ItemTable, key to value *)
  sql_ItemTable : Buffer -> Res (gmap string string)
}.

(** ** TokenService *)

Module TokenService.
Import StoredCredential.

Definition TOKEN_PREFIX : string := "rerevolve.token.".
Definition STATE_KEY : string := "jetskiStateSync.agentManagerInitState".

(** What one call observes of its surroundings: the clock, the file
    state.vscdb, and the token endpoint ([Some (access_token, expires_in)]
    for a 2xx response to the refresh token posted, [None] for any other
    response or a network error).  [Date.now()] is constant during a call. *)
Record Host := {
  now : Z;
  existsSync : bool;
  readFileSync : Res Buffer;
  token_endpoint : string -> option (string * Z)
}.

Inductive Message :=
| NoLoginDetected
| LoginUnreadable
| EmailMismatch (currentEmail email : string)
| TokenCaptured (currentEmail : string) (hasRefresh : bool)
| CaptureFailed (err : JsError)
| TokenRecovered (email : string).

(** The effects a call leaves behind besides the secret storage.
    [RefreshCall] and [RecoveryCall] mark the entry into
    [refreshAccessToken] and [tryAutoRecovery]; [TokenRequest] is the POST
    to the token endpoint; the others are the windows shown to the user.
    Console output is not recorded. *)
Inductive Event :=
| RefreshCall (credential : StoredCredential.t)
| TokenRequest (refresh_token : string)
| RecoveryCall (email : string)
| ShowError (m : Message)
| ShowWarning (m : Message)
| ShowInformation (m : Message).

Record World := {
  secrets : gmap string string;     (* vscode.SecretStorage *)
  trace : list Event
}.

Abbreviation M := (StateRes World).

Definition emit (e : Event) : M unit :=
  fun w => (Ok tt, {| secrets := secrets w; trace := trace w ++ [e] |}).

(** [this.secrets.get(key)] *)
Definition secrets_get (key : string) : M (option string) :=
  fun w => (Ok (secrets w !! key), w).

(** [this.secrets.store(key, value)] *)
Definition secrets_store (key value : string) : M unit :=
  fun w => (Ok tt, {| secrets := <[key := value]> (secrets w); trace := trace w |}).


Section Service.
Context `{Platform} (host : Host).

(** The query the three readers share, inside their [try]: the value column
    of the row of ItemTable with the given key. *)
Definition select_value (key : string) : Res (option string) :=
  fileBuffer ← readFileSync host;
  table ← sql_ItemTable fileBuffer;
  Ok (table !! key).

Definition getAuthStatus : Res (option AuthStatus.t) :=
  if negb (existsSync host) then Ok None
  else
    try_catch
      (row ← select_value "antigravityAuthStatus";
       if Str.not row then Ok None
       else
         json ← JSON_parse_authStatus (default "" row);
         Ok (Some json))
      (fun _ => Ok None).

Definition getRefreshToken : Res (option string) :=
  if negb (existsSync host) then Ok None
  else
    try_catch
      (row ← select_value "antigravityUnifiedStateSync.oauthToken";
       if Str.not row then Ok None
       else
         let base64Value := Str.trim (default "" row) in
         let raw := from_base64 base64Value in
         oauthField ← Protobuf.findField raw 1;
         match oauthField with
         | Some oauthField =>
             let tokenInfo := Protobuf.parseOAuthTokenInfo oauthField in
             if Str.not (Protobuf.refreshToken tokenInfo) then Ok None
             else Ok (Protobuf.refreshToken tokenInfo)
         | None => Ok None
         end)
      (fun _ => Ok None).

Definition readStateValue : Res (option string) :=
  if negb (existsSync host) then Ok None
  else
    try_catch
      (row ← select_value STATE_KEY;
       if Str.not row then Ok None
       else
         let value := Str.trim (default "" row) in
         if 0 <? Str.length value then Ok (Some value) else Ok None)
      (fun _ => Ok None).

Definition extractTokensWithProtobuf : Res (option Protobuf.TokenInfo) :=
  try_catch
    (stateValue ← readStateValue;
     if Str.not stateValue then Ok None
     else
       let raw := from_base64 (Str.trim (default "" stateValue)) in
       oauthField ← Protobuf.findField raw 6;
       match oauthField with
       | None => Ok None
       | Some oauthField => Ok (Some (Protobuf.parseOAuthTokenInfo oauthField))
       end)
    (fun _ => Ok None).

Definition extractTokensFromDb : Res (option ByteScan.Tokens) :=
  if negb (existsSync host) then Ok None
  else
    try_catch
      (fileBuffer ← readFileSync host;
       let content := buf_toString fileBuffer in
       Ok (ByteScan.scan from_base64 content))
      (fun _ => Ok None).

Definition extractTokenFromDb : Res (option string) :=
  result ← extractTokensFromDb;
  match result with
  | Some r => if Str.falsy (ByteScan.accessToken r) then Ok None
              else Ok (Some (ByteScan.accessToken r))
  | None => Ok None
  end.

Definition tryAutoRecovery (email : string) : M bool :=
  emit (RecoveryCall email);;
  try_catchM
    (tokens ← lift extractTokensFromDb;
     match tokens with
     | None => mret false
     | Some tokens =>
         let credential :=
           {| accessToken := ByteScan.accessToken tokens;
              refreshToken := ByteScan.refreshToken tokens;
              expiresAt := now host + 55 * 60 * 1000;
              email := email;
              createdAt := now host |} in
         secrets_store (TOKEN_PREFIX +:+ email) (JSON_stringify_credential credential);;
         emit (ShowInformation (TokenRecovered email));;
         mret true
     end)
    (fun _ => mret false).

(** The result of [refreshAccessToken]: [(accessToken, expiresAt)]. *)
Definition refreshAccessToken (credential : StoredCredential.t)
  : M (option (string * Z)) :=
  emit (RefreshCall credential);;
  if Str.not (refreshToken credential) then mret None
  else
    let refresh_token := default "" (refreshToken credential) in
    emit (TokenRequest refresh_token);;
    match token_endpoint host refresh_token with
    | None => mret None
    | Some (access_token, expires_in) =>
        mret (Some (access_token, now host + expires_in * 1000))
    end.

Definition getToken (email : string) : M (option string) :=
  stored ← secrets_get (TOKEN_PREFIX +:+ email);
  stored ← (if Str.not stored then
              recovered ← tryAutoRecovery email;
              if recovered : bool then secrets_get (TOKEN_PREFIX +:+ email)
              else mret stored
            else mret stored);
  if Str.not stored then mret None
  else
    let stored := default "" stored in
    try_catchM
      (credential ← lift (JSON_parse_credential stored);
       if now host >? expiresAt credential - 5 * 60 * 1000 then
         refreshed ← refreshAccessToken credential;
         match refreshed with
         | Some (newAccessToken, newExpiresAt) =>
             let credential :=
               {| accessToken := newAccessToken;
                  refreshToken := refreshToken credential;
                  expiresAt := newExpiresAt;
                  email := StoredCredential.email credential;
                  createdAt := createdAt credential |} in
             secrets_store (TOKEN_PREFIX +:+ email) (JSON_stringify_credential credential);;
             mret (Some newAccessToken)
         | None =>
             recovered ← tryAutoRecovery email;
             if recovered : bool then
               newStored ← secrets_get (TOKEN_PREFIX +:+ email);
               if Str.not newStored then mret (Some (accessToken credential))
               else
                 newCredential ← lift (JSON_parse_credential (default "" newStored));
                 mret (Some (accessToken newCredential))
             else mret (Some (accessToken credential))
         end
       else mret (Some (accessToken credential)))
      (fun _ => if 10 <? Str.length stored then mret (Some stored) else mret None).

Definition hasToken (email : string) : M bool :=
  stored ← secrets_get (TOKEN_PREFIX +:+ email);
  if Str.not stored || (Str.length (default "" stored) <=? 10) then mret false
  else
    try_catchM
      (credential ← lift (JSON_parse_credential (default "" stored));
       if now host <=? expiresAt credential - 5 * 60 * 1000 then mret true
       else if negb (Str.not (refreshToken credential)) then mret true
       else mret false)
      (fun _ => mret false).


Definition saveToken (email tokenData : string) : M unit :=
  secrets_store (TOKEN_PREFIX +:+ email) tokenData.

Definition captureCurrentToken (email : string) : M bool :=
  try_catchM
    (authStatus ← lift getAuthStatus;
     match authStatus with
     | None => emit (ShowError NoLoginDetected);; mret false
     | Some authStatus =>
         let currentEmail := Str.toLowerCase <$> AuthStatus.email authStatus in
         let accessToken := AuthStatus.apiKey authStatus in
         if Str.not currentEmail || Str.not accessToken then
           emit (ShowError LoginUnreadable);; mret false
         else
           let currentEmail := default "" currentEmail in
           let accessToken := default "" accessToken in
           refreshToken ← lift (try_catch
                                  (r ← getRefreshToken;
                                   if Str.not r then Ok None else Ok r)
                                  (fun _ => Ok None));
           (if negb (String.eqb (Str.toLowerCase email) currentEmail) then
              emit (ShowWarning (EmailMismatch currentEmail email))
            else mret tt);;
           let credential :=
             {| accessToken := accessToken;
                refreshToken := refreshToken;
                expiresAt := now host + 55 * 60 * 1000;
                email := currentEmail;
                createdAt := now host |} in
           secrets_store (TOKEN_PREFIX +:+ currentEmail) (JSON_stringify_credential credential);;
           emit (ShowInformation (TokenCaptured currentEmail (negb (Str.not refreshToken))));;
           mret true
     end)
    (fun err => emit (ShowError (CaptureFailed err));; mret false).

End Service.

End TokenService.

(** ** AccountSwitcher *)

Module AccountSwitcher.
Import AccountSnapshot.

Definition SNAPSHOTS_KEY : string := "rerevolve_snapshots".

(** What a call observes of its surroundings.  [exec] is
    [child_process.exec]: the rows of ItemTable of state.vscdb after the
    command line has run, or [None] when the command reports an error, in
    which case the table is as it was.  [reload] is whether the user answers
    the information message with the Reload button. *)
Record Host := {
  exec : string -> gmap string string -> option (gmap string string);
  reload : bool
}.

Inductive Message :=
| NoSnapshot (email : string)
| Switched (email : string)
| SwitchFailed (err : JsError).

Inductive Event :=
| Exec (cmd : string)
| ShowError (m : Message)
| ShowInformation (m : Message)
| ReloadWindow.

(** The snapshots are a JavaScript object used as a map from e-mail to
    snapshot; a lookup sees its own keys (the members every object inherits
    are not modelled). *)
Record World := {
  secrets : gmap string string;                              (* vscode.SecretStorage *)
  snapshotsCache : option (gmap string AccountSnapshot.t);   (* this.snapshotsCache *)
  itemTable : gmap string string;                            (* state.vscdb *)
  trace : list Event
}.

Abbreviation M := (StateRes World).

Definition emit (e : Event) : M unit :=
  fun w => (Ok tt, {| secrets := secrets w; snapshotsCache := snapshotsCache w;
                      itemTable := itemTable w; trace := trace w ++ [e] |}).

Definition secrets_get (key : string) : M (option string) :=
  fun w => (Ok (secrets w !! key), w).

Definition get_cache : M (option (gmap string AccountSnapshot.t)) :=
  fun w => (Ok (snapshotsCache w), w).

Definition set_cache (c : gmap string AccountSnapshot.t) : M unit :=
  fun w => (Ok tt, {| secrets := secrets w; snapshotsCache := Some c;
                      itemTable := itemTable w; trace := trace w |}).

Section Switcher.
Context `{Platform} (host : Host) (dbPath : string).

(** The command line takes effect on the table, or fails and leaves it. *)
Definition apply_exec (cmd : string) : M bool :=
  fun w =>
    match exec host cmd (itemTable w) with
    | Some table' =>
        (Ok true, {| secrets := secrets w; snapshotsCache := snapshotsCache w;
                     itemTable := table'; trace := trace w |})
    | None => (Ok false, w)
    end.

(** [exec(cmd, callback)]: the callback receives an error or none. *)
Definition run_exec (cmd : string) : M bool :=
  emit (Exec cmd);;
  apply_exec cmd.

Definition loadSnapshots : M (gmap string AccountSnapshot.t) :=
  cache ← get_cache;
  match cache with
  | Some snapshots => mret snapshots
  | None =>
      loaded ← try_catchM
        (data ← secrets_get SNAPSHOTS_KEY;
         if Str.not data then mret None
         else
           snapshots ← lift (JSON_parse_snapshots (default "" data));
           set_cache snapshots;;
           mret (Some snapshots))
        (fun _ => mret None);
      match loaded with
      | Some snapshots => mret snapshots
      | None => set_cache ∅;; mret ∅
      end
  end.

(** [authStatus.replace(/'/g, "''")] *)
Definition escape_quotes (authStatus : string) : string :=
  Str.replace_char Str.squote "''" authStatus.

Definition update_prefix : string :=
  "sqlite3 " +:+ Str.of_chars [Str.dquote]
  +:+ Str.replace_char Str.backslash "/" dbPath
  +:+ Str.of_chars [Str.dquote] +:+ " " +:+ Str.of_chars [Str.dquote]
  +:+ "UPDATE ItemTable SET value='".

Definition update_suffix : string :=
  "' WHERE key='antigravityAuthStatus'" +:+ Str.of_chars [Str.dquote].

(** The command line of [updateAuthStatus]. *)
Definition update_command (authStatus : string) : string :=
  update_prefix +:+ escape_quotes authStatus +:+ update_suffix.

Definition updateAuthStatus (authStatus : string) : M bool :=
  run_exec (update_command authStatus).

Definition switchToAccount (email : string) : M bool :=
  try_catchM
    (snapshots ← loadSnapshots;
     match snapshots !! email with
     | None => emit (ShowError (NoSnapshot email));; mret false
     | Some snapshot =>
         success ← updateAuthStatus (authStatus snapshot);
         if success : bool then
           emit (ShowInformation (Switched email));;
           (if reload host then emit ReloadWindow else mret tt);;
           mret true
         else mret false
     end)
    (fun err => emit (ShowError (SwitchFailed err));; mret false).

End Switcher.

(** The text a single-quoted SQL string literal denotes, given what stands
    between its quotes: a doubled quote is one quote, a single one ends the
    literal too early. *)
Fixpoint sql_literal_chars (body : list ascii) : option (list ascii) :=
  match body with
  | [] => Some []
  | c :: rest =>
      if Ascii.eqb c Str.squote then
        match rest with
        | c' :: rest' =>
            if Ascii.eqb c' Str.squote then cons Str.squote <$> sql_literal_chars rest'
            else None
        | [] => None
        end
      else cons c <$> sql_literal_chars rest
  end.

Definition sql_literal_value (body : string) : option string :=
  Str.of_chars <$> sql_literal_chars (Str.chars body).

End AccountSwitcher.

(** ** The command line of [exec]

    [child_process.exec] hands the command line to a shell, which starts
    the sqlite3 tool with the words of the line.  This is the reading of a
    line that the POSIX shell and the C runtime of Windows share, kept to the
    lines on which they agree: a double quote opens or closes a quoted
    stretch and is not part of the word; white space outside a quoted
    stretch ends the word; a line with a backslash, a dollar sign, a
    backquote or a percent sign, with two double quotes in a row where the
    first closes a quoted stretch, or with anything but letters, digits and
    [. : @ _ - / , = +] outside a quoted stretch, is left unread. *)

Module Shell.

Definition inert (c : ascii) : bool :=
  Str.is_lower c || Str.is_upper c || Str.is_digit c
  || existsb (Z.eqb (Str.code c)) [46; 58; 64; 95; 45; 47; 44; 61; 43].

Definition special (c : ascii) : bool :=
  existsb (Z.eqb (Str.code c)) [92; 36; 96; 37].

Definition head_is (c : ascii) (l : list ascii) : bool :=
  match l with
  | c' :: _ => Ascii.eqb c' c
  | [] => false
  end.

Definition close_word (started : bool) (current : list ascii)
    (ws : list (list ascii)) : list (list ascii) :=
  if started then rev current :: ws else ws.

Fixpoint words_from (l : list ascii) (quoted started : bool) (current : list ascii)
  : option (list (list ascii)) :=
  match l with
  | [] => if quoted then None else Some (close_word started current [])
  | c :: l' =>
      if Ascii.eqb c Str.dquote then
        if quoted && head_is Str.dquote l' then None
        else words_from l' (negb quoted) true current
      else if special c then None
      else if quoted then words_from l' true true (c :: current)
      else if Str.is_space c then close_word started current <$> words_from l' false false []
      else if inert c then words_from l' false true (c :: current)
      else None
  end.

Definition words (cmd : string) : option (list (list ascii)) :=
  words_from (Str.chars cmd) false false [].

Definition strip_suffix (suffix l : list ascii) : option (list ascii) :=
  (fun r => rev r) <$> Regex.strip_prefix (rev suffix) (rev l).

(** [sqlite3 DB SQL] for the one statement the switcher issues: the row of
    the identity key, when there is one, takes the value of the literal. *)
Definition sqlite3 (args : list (list ascii)) (table : gmap string string)
  : option (gmap string string) :=
  match args with
  | [_; sql] =>
      body ← Regex.strip_prefix (Str.chars "UPDATE ItemTable SET value='") sql;
      literal ← strip_suffix (Str.chars "' WHERE key='antigravityAuthStatus'") body;
      value ← AccountSwitcher.sql_literal_chars literal;
      Some (alter (fun _ => Str.of_chars value) "antigravityAuthStatus" table)
  | _ => None
  end.

(** The effect of [exec(cmd)] on the table; [None] stands for a command
    that fails, or a line left unread. *)
Definition exec (cmd : string) (table : gmap string string)
  : option (gmap string string) :=
  ws ← words cmd;
  match ws with
  | program :: args =>
      if String.eqb (Str.of_chars program) "sqlite3" then sqlite3 args table else None
  | [] => None
  end.

(** A text without a double quote. *)
Definition unquoted (l : list ascii) : Prop := Forall (fun c => c <> Str.dquote) l.

(** A host whose [exec] is the shell and the sqlite3 tool. *)
Definition host (reload : bool) : AccountSwitcher.Host :=
  {| AccountSwitcher.exec := exec; AccountSwitcher.reload := reload |}.

End Shell.

(** ** A reference platform

    An executable instance of [Platform], used to run the services on
    concrete inputs.  Its JSON reader covers objects, strings, integers and
    the three literals, and rejects a value that does not have the fields
    of the record it is read at; sql.js is replaced by a table given in
    advance.  The theorems below hold for every platform. *)

Module Reference.

Module Json.

#[local] Unset Elimination Schemes.
Inductive t :=
| Null
| Bool (b : bool)
| Num (n : Z)
| Text (s : string)
| Obj (members : list (string * t)).
#[local] Set Elimination Schemes.

Definition quoted (s : string) : list ascii :=
  [Str.dquote]
  ++ flat_map (fun c => if Ascii.eqb c Str.dquote || Ascii.eqb c Str.backslash
                        then [Str.backslash; c] else [c]) (Str.chars s)
  ++ [Str.dquote].

Fixpoint print (j : t) : list ascii :=
  match j with
  | Null => Str.chars "null"
  | Bool true => Str.chars "true"
  | Bool false => Str.chars "false"
  | Num n => Str.chars (pretty n)
  | Text s => quoted s
  | Obj members =>
      Str.chars "{"
      ++ (fix print_members (ms : list (string * t)) : list ascii :=
            match ms with
            | [] => []
            | [(k, v)] => quoted k ++ Str.chars ":" ++ print v
            | (k, v) :: ms' =>
                quoted k ++ Str.chars ":" ++ print v ++ Str.chars "," ++ print_members ms'
            end) members
      ++ Str.chars "}"
  end.

(** [JSON.stringify] *)
Definition stringify (j : t) : string := Str.of_chars (print j).

(** After an opening quote: the text up to the closing quote, and what follows. *)
Fixpoint read_string (l : list ascii) : option (list ascii * list ascii) :=
  match l with
  | [] => None
  | c :: l' =>
      if Ascii.eqb c Str.dquote then Some ([], l')
      else if Ascii.eqb c Str.backslash then
        match l' with
        | e :: l'' =>
            if Ascii.eqb e Str.dquote || Ascii.eqb e Str.backslash
            then prod_map (cons e) id <$> read_string l''
            else None
        | [] => None
        end
      else prod_map (cons c) id <$> read_string l'
  end.

Fixpoint read_digits (l : list ascii) (acc : Z) : Z * list ascii :=
  match l with
  | c :: l' => if Str.is_digit c then read_digits l' (10 * acc + (Str.code c - 48)) else (acc, l)
  | [] => (acc, [])
  end.

Definition is_char (s : string) (c : ascii) : bool :=
  match s with
  | String c' EmptyString => Ascii.eqb c c'
  | _ => false
  end.

(** After an opening brace and white space: the members up to the closing brace. *)
Fixpoint read_members (read_value : list ascii -> option (t * list ascii))
    (fuel : nat) (l : list ascii) : option (list (string * t) * list ascii) :=
  match fuel, l with
  | S fuel', c :: l' =>
      if Ascii.eqb c Str.dquote then
        '(k, rest) ← read_string l';
        match Str.trim_start rest with
        | colon :: rest =>
            if is_char ":" colon then
              '(v, rest) ← read_value rest;
              match Str.trim_start rest with
              | sep :: rest =>
                  if is_char "}" sep then Some ([(Str.of_chars k, v)], rest)
                  else if is_char "," sep then
                    '(ms, rest) ← read_members read_value fuel' (Str.trim_start rest);
                    Some ((Str.of_chars k, v) :: ms, rest)
                  else None
              | [] => None
              end
            else None
        | [] => None
        end
      else None
  | _, _ => None
  end.

Fixpoint read_value (fuel : nat) (l : list ascii) : option (t * list ascii) :=
  match fuel with
  | O => None
  | S fuel' =>
      match Str.trim_start l with
      | c :: l' =>
          if Ascii.eqb c Str.dquote then
            '(s, rest) ← read_string l'; Some (Text (Str.of_chars s), rest)
          else if is_char "{" c then
            match Str.trim_start l' with
            | c' :: l'' =>
                if is_char "}" c' then Some (Obj [], l'')
                else '(ms, rest) ← read_members (read_value fuel') fuel' (c' :: l'');
                     Some (Obj ms, rest)
            | [] => None
            end
          else if is_char "-" c then
            match l' with
            | d :: _ => if Str.is_digit d
                        then let '(n, rest) := read_digits l' 0 in Some (Num (- n), rest)
                        else None
            | [] => None
            end
          else if Str.is_digit c then
            let '(n, rest) := read_digits (c :: l') 0 in Some (Num n, rest)
          else
            match Regex.strip_prefix (Str.chars "null") (c :: l'),
                  Regex.strip_prefix (Str.chars "true") (c :: l'),
                  Regex.strip_prefix (Str.chars "false") (c :: l') with
            | Some rest, _, _ => Some (Null, rest)
            | _, Some rest, _ => Some (Bool true, rest)
            | _, _, Some rest => Some (Bool false, rest)
            | _, _, _ => None
            end
      | [] => None
      end
  end.

(** [JSON.parse] *)
Definition parse (s : string) : Res t :=
  match read_value (S (String.length s)) (Str.chars s) with
  | Some (j, rest) =>
      match Str.trim_start rest with
      | [] => Ok j
      | _ :: _ => Throw SyntaxError
      end
  | None => Throw SyntaxError
  end.

(** The last member named [k]: a repeated name overrides the earlier ones. *)
Fixpoint lookup_member (k : string) (ms : list (string * t)) : option t :=
  match ms with
  | [] => None
  | (k', v) :: ms' =>
      match lookup_member k ms' with
      | Some v' => Some v'
      | None => if String.eqb k' k then Some v else None
      end
  end.

Definition member (k : string) (j : t) : option t :=
  match j with
  | Obj ms => lookup_member k ms
  | _ => None
  end.

Definition text (j : option t) : option string :=
  match j with Some (Text s) => Some s | _ => None end.

Definition num (j : option t) : option Z :=
  match j with Some (Num n) => Some n | _ => None end.

End Json.

Definition or_throw {A} (o : option A) : Res A :=
  match o with Some a => Ok a | None => Throw SyntaxError end.

Definition credential_to_json (c : StoredCredential.t) : Json.t :=
  Json.Obj
    ([("accessToken", Json.Text (StoredCredential.accessToken c))]
     ++ match StoredCredential.refreshToken c with
        | Some r => [("refreshToken", Json.Text r)]
        | None => []
        end
     ++ [("expiresAt", Json.Num (StoredCredential.expiresAt c));
         ("email", Json.Text (StoredCredential.email c));
         ("createdAt", Json.Num (StoredCredential.createdAt c))]).

Definition credential_of_json (j : Json.t) : option StoredCredential.t :=
  accessToken ← Json.text (Json.member "accessToken" j);
  expiresAt ← Json.num (Json.member "expiresAt" j);
  email ← Json.text (Json.member "email" j);
  createdAt ← Json.num (Json.member "createdAt" j);
  Some {| StoredCredential.accessToken := accessToken;
          StoredCredential.refreshToken := Json.text (Json.member "refreshToken" j);
          StoredCredential.expiresAt := expiresAt;
          StoredCredential.email := email;
          StoredCredential.createdAt := createdAt |}.

Definition authStatus_of_json (j : Json.t) : option AuthStatus.t :=
  match j with
  | Json.Obj _ =>
      Some {| AuthStatus.email := Json.text (Json.member "email" j);
              AuthStatus.apiKey := Json.text (Json.member "apiKey" j) |}
  | _ => None
  end.

Definition snapshot_of_json (j : Json.t) : option AccountSnapshot.t :=
  email ← Json.text (Json.member "email" j);
  authStatus ← Json.text (Json.member "authStatus" j);
  savedAt ← Json.num (Json.member "savedAt" j);
  Some {| AccountSnapshot.email := email;
          AccountSnapshot.authStatus := authStatus;
          AccountSnapshot.savedAt := savedAt |}.

Definition snapshots_of_json (j : Json.t) : option (gmap string AccountSnapshot.t) :=
  match j with
  | Json.Obj ms =>
      list_to_map <$> mapM (fun kv => pair (fst kv) <$> snapshot_of_json (snd kv)) (reverse ms)
  | _ => None
  end.

Definition snapshot_to_json (s : AccountSnapshot.t) : Json.t :=
  Json.Obj [("email", Json.Text (AccountSnapshot.email s));
            ("authStatus", Json.Text (AccountSnapshot.authStatus s));
            ("savedAt", Json.Num (AccountSnapshot.savedAt s))].

(** Base64 in either alphabet; the text ends at the first padding sign and
    characters outside the alphabets are passed over. *)
Definition sextet (c : ascii) : option Z :=
  if Str.is_upper c then Some (Str.code c - 65)
  else if Str.is_lower c then Some (Str.code c - 71)
  else if Str.is_digit c then Some (Str.code c + 4)
  else if (Str.code c =? 43) || (Str.code c =? 45) then Some 62
  else if (Str.code c =? 47) || (Str.code c =? 95) then Some 63
  else None.

Fixpoint until_padding (l : list ascii) : list ascii :=
  match l with
  | c :: l' => if Str.code c =? 61 then [] else c :: until_padding l'
  | [] => []
  end.

Fixpoint decode_sextets (fuel : nat) (l : list Z) : Buffer :=
  match fuel, l with
  | S fuel', a :: b :: c :: d :: rest =>
      Wire.byte_of_Z (a * 4 + b / 16)
        :: Wire.byte_of_Z (b mod 16 * 16 + c / 4)
        :: Wire.byte_of_Z (c mod 4 * 64 + d)
        :: decode_sextets fuel' rest
  | _, [a; b; c] =>
      [Wire.byte_of_Z (a * 4 + b / 16); Wire.byte_of_Z (b mod 16 * 16 + c / 4)]
  | _, [a; b] => [Wire.byte_of_Z (a * 4 + b / 16)]
  | _, _ => []
  end.

Definition decode_base64 (s : string) : Buffer :=
  let sextets := omap sextet (until_padding (Str.chars s)) in
  decode_sextets (length sextets) sextets.

(** The platform that sees [table] in every database image. *)
Definition platform (table : Res (gmap string string)) : Platform :=
  {| JSON_parse_credential s := j ← Json.parse s; or_throw (credential_of_json j);
     JSON_stringify_credential c := Json.stringify (credential_to_json c);
     JSON_parse_authStatus s := j ← Json.parse s; or_throw (authStatus_of_json j);
     JSON_parse_snapshots s := j ← Json.parse s; or_throw (snapshots_of_json j);
     from_base64 := decode_base64;
     sql_ItemTable _ := table |}.

End Reference.

(** ** Concrete inputs

    The inputs on which the properties below are run. *)

Module Examples.

Definition repeat_char (n : nat) (c : ascii) : string := Str.of_chars (replicate n c).

(** A bearer-token-shaped text: the prefix and a body of 100 characters. *)
Definition bearer (c : ascii) : string := "ya29." +:+ repeat_char 100 c.

(** Raw bytes with bearer-token-shaped substrings at offsets 100 and 500. *)
Definition scan_content : string :=
  repeat_char 100 " " +:+ bearer "A" +:+ repeat_char 295 " " +:+ bearer "B".

Definition scan_host : TokenService.Host :=
  {| TokenService.now := 0;
     TokenService.existsSync := true;
     TokenService.readFileSync := Ok (Wire.utf8 scan_content);
     TokenService.token_endpoint := fun _ => None |}.

(** A stored record read exactly five minutes before it expires; the
    token endpoint would answer the refresh token of the record. *)
Definition boundary_credential : StoredCredential.t :=
  {| StoredCredential.accessToken := "ya29.cached";
     StoredCredential.refreshToken := Some "1//refresh";
     StoredCredential.expiresAt := 1000000;
     StoredCredential.email := "a@x.com";
     StoredCredential.createdAt := 0 |}.

Definition no_database : Platform := Reference.platform (Throw SqlError).

Definition boundary_host : TokenService.Host :=
  {| TokenService.now := 700000;
     TokenService.existsSync := false;
     TokenService.readFileSync := Throw IOError;
     TokenService.token_endpoint := fun _ => Some ("ya29.fresh", 3600) |}.

Definition world_with (key value : string) : TokenService.World :=
  {| TokenService.secrets := {[ key := value ]}; TokenService.trace := [] |}.

Definition boundary_world : TokenService.World :=
  world_with "rerevolve.token.a@x.com"
             (@JSON_stringify_credential no_database boundary_credential).

(** The same record read well before, and one millisecond after, the
    five-minute mark; past the mark the endpoint declines and there is no
    file to recover from. *)
Definition fresh_host : TokenService.Host :=
  {| TokenService.now := 1000;
     TokenService.existsSync := false;
     TokenService.readFileSync := Throw IOError;
     TokenService.token_endpoint := fun _ => None |}.

Definition expired_host : TokenService.Host :=
  {| TokenService.now := 700001;
     TokenService.existsSync := false;
     TokenService.readFileSync := Throw IOError;
     TokenService.token_endpoint := fun _ => None |}.

(** A legacy value: a raw token, not JSON. *)
Definition legacy_world : TokenService.World :=
  world_with "rerevolve.token.a@x.com" "ya29.legacy-raw-token".

(** The host application is logged in as a@x.com. *)
Definition active_identity : string :=
  Reference.Json.stringify
    (Reference.Json.Obj [("email", Reference.Json.Text "a@x.com");
                         ("apiKey", Reference.Json.Text "ya29.active")]).

Definition logged_in : Platform :=
  Reference.platform (Ok {[ "antigravityAuthStatus" := active_identity ]}).

Definition capture_host : TokenService.Host :=
  {| TokenService.now := 1000;
     TokenService.existsSync := true;
     TokenService.readFileSync := Ok [];
     TokenService.token_endpoint := fun _ => None |}.

Definition empty_world : TokenService.World :=
  {| TokenService.secrets := ∅; TokenService.trace := [] |}.

(** The state value decodes to a tag of field 6 followed by a length whose
    varint is cut short. *)
Definition truncated_state : Platform :=
  Reference.platform (Ok {[ TokenService.STATE_KEY := "MoA=" ]}).

(** A snapshot whose blob has single quotes, kept in the secret storage. *)
Definition snapshot_a : AccountSnapshot.t :=
  {| AccountSnapshot.email := "a@x.com";
     AccountSnapshot.authStatus := "{email:'a@x.com',apiKey:'ya29.a'}";
     AccountSnapshot.savedAt := 1 |}.

Definition db_path : string :=
  "C:\Users\u\AppData\Roaming\Antigravity\User\globalStorage\state.vscdb".

Definition switch_host : AccountSwitcher.Host := Shell.host false.

(** A snapshot whose blob is the JSON text of an identity record, as
    [saveSnapshot] reads it from the store. *)
Definition snapshot_json : AccountSnapshot.t :=
  {| AccountSnapshot.email := "a@x.com";
     AccountSnapshot.authStatus := active_identity;
     AccountSnapshot.savedAt := 1 |}.

Definition json_world : AccountSwitcher.World :=
  {| AccountSwitcher.secrets := ∅;
     AccountSwitcher.snapshotsCache := Some {[ "a@x.com" := snapshot_json ]};
     AccountSwitcher.itemTable := {[ "antigravityAuthStatus" := "{email:'b@x.com'}" ]};
     AccountSwitcher.trace := [] |}.

Definition switch_world : AccountSwitcher.World :=
  {| AccountSwitcher.secrets :=
       {[ AccountSwitcher.SNAPSHOTS_KEY :=
            Reference.Json.stringify
              (Reference.Json.Obj [("a@x.com", Reference.snapshot_to_json snapshot_a)]) ]};
     AccountSwitcher.snapshotsCache := None;
     AccountSwitcher.itemTable := {[ "antigravityAuthStatus" := "{email:'b@x.com'}" ]};
     AccountSwitcher.trace := [] |}.

(** A message with a field of each wire type, one of them with a tag that
    is not of minimal length, and the field of the outer token message. *)
Definition sample_fields : list Wire.Field :=
  [ Wire.varint_field 1 300;
    {| Wire.tagBytes := [x91; x80; x00];
       Wire.value := Wire.Fixed64 [x01; x02; x03; x04; x05; x06; x07; x08] |};
    Wire.length_delimited_field 6 (Wire.encode_token_info "AT2" "RT2");
    Wire.fixed32_field 4 [x0a; x0b; x0c; x0d] ].

(** A length-delimited field numbered 2^28. *)
Definition high_field : Wire.Field := Wire.length_delimited_field (2 ^ 28) [x41].

End Examples.

(** ** Damaged messages

    What is needed to say how the decoder behaves on a message that was cut
    short or holds a field it does not know. *)

Module Decoding.
Import Protobuf Wire.

(** A byte with the continuation bit set. *)
Definition continuation (b : byte) : bool := 128 <=? byte_val b.

(** The wire types [skipField] knows. *)
Definition known_wire_type (w : Z) : bool :=
  (w =? 0) || (w =? 1) || (w =? 2) || (w =? 5).

(** What one field does to the token info [parseOAuthTokenInfo] builds. *)
Definition update_info (info : TokenInfo) (f : Field) : TokenInfo :=
  match value f with
  | LengthDelimited _ payload =>
      if fieldNumber f =? 1 then
        {| accessToken := Some (buf_toString payload); refreshToken := refreshToken info |}
      else if fieldNumber f =? 3 then
        {| accessToken := accessToken info; refreshToken := Some (buf_toString payload) |}
      else info
  | _ => info
  end.

(** A varint as the format allows it: complete, of ten bytes at most.  On
    longer ones the doubles of the source lose the value. *)
Definition format_varint (bytes : Buffer) : bool :=
  is_varint bytes && (length bytes <=? 10)%nat.

(** A payload of ASCII text, where a byte is a character and
    [Buffer.toString()] returns the bytes as they are. *)
Definition ascii_text (payload : Buffer) : bool :=
  forallb (fun b => byte_val b <? 128) payload.

(** The payload of the last length-delimited field numbered [target]. *)
Definition last_length_delimited (target : Z) (fs : list Field) : option Buffer :=
  first_length_delimited target (rev fs).

End Decoding.

(** ** The OAuth part of TokenService

    [exchangeCodeForToken], [promptForAuthCode] and [hasValidOAuth] of
    token-service.ts. *)

Module OAuthFlow.
Import StoredCredential.

(** The answer of the token endpoint to an authorization code: a response
    that is not [ok], with its status and body, or the JSON of a grant, read
    at the type the source gives it. *)
Inductive Response :=
| Rejected (status : Z) (errorText : string)
| Granted (access_token refresh_token : option string) (expires_in : Z).

(** What a call observes of its surroundings: the clock, what the user
    types into the input box ([None] when the box is dismissed), and the
    endpoint; [Throw] is a request that fails or a body that is not JSON. *)
Record Host := {
  now : Z;
  showInputBox : option string;
  code_endpoint : string -> Res Response
}.

Inductive Message :=
| Cancelled
| ExchangeRejected (status : Z) (errorText : string)
| NoAccessToken
| Authenticated (email : string) (hasRefresh : bool)
| ExchangeError (err : JsError).

(** [CodeRequest] is the POST of the authorization code; the others are the
    windows shown to the user. *)
Inductive Event :=
| CodeRequest (code : string)
| ShowWarning (m : Message)
| ShowError (m : Message)
| ShowInformation (m : Message).

Record World := {
  secrets : gmap string string;     (* vscode.SecretStorage *)
  trace : list Event
}.

Abbreviation M := (StateRes World).

Definition emit (e : Event) : M unit :=
  fun w => (Ok tt, {| secrets := secrets w; trace := trace w ++ [e] |}).

Definition secrets_get (key : string) : M (option string) :=
  fun w => (Ok (secrets w !! key), w).

Definition secrets_store (key value : string) : M unit :=
  fun w => (Ok tt, {| secrets := <[key := value]> (secrets w); trace := trace w |}).

(** The secret storage as [TokenService] sees it. *)
Definition service_world (w : World) : TokenService.World :=
  {| TokenService.secrets := secrets w; TokenService.trace := [] |}.

Section Flow.
Context `{Platform} (host : Host).

Definition exchangeCodeForToken (code email : string) : M bool :=
  try_catchM
    (emit (CodeRequest code);;
     response ← lift (code_endpoint host code);
     match response with
     | Rejected status errorText =>
         emit (ShowError (ExchangeRejected status errorText));; mret false
     | Granted access_token refresh_token expires_in =>
         if Str.not access_token then
           emit (ShowError NoAccessToken);; mret false
         else
           let credential :=
             {| accessToken := default "" access_token;
                refreshToken := refresh_token;
                expiresAt := now host + expires_in * 1000;
                email := email;
                createdAt := now host |} in
           secrets_store (TokenService.TOKEN_PREFIX +:+ email)
                         (JSON_stringify_credential credential);;
           emit (ShowInformation (Authenticated email (negb (Str.not refresh_token))));;
           mret true
     end)
    (fun err => emit (ShowError (ExchangeError err));; mret false).

Definition promptForAuthCode (email : string) : M bool :=
  let code := showInputBox host in
  if Str.not code then
    emit (ShowWarning Cancelled);; mret false
  else exchangeCodeForToken (Str.trim (default "" code)) email.

Definition hasValidOAuth (email : string) : M bool :=
  stored ← secrets_get (TokenService.TOKEN_PREFIX +:+ email);
  if Str.not stored then mret false
  else
    try_catchM
      (credential ← lift (JSON_parse_credential (default "" stored));
       mret (negb (Str.not (refreshToken credential))))
      (fun _ => mret false).

End Flow.

End OAuthFlow.

(** ** What a call of TokenService may change *)

Module Footprint.
Import TokenService.

(** [w'] differs from [w] at most in the entry of [key], and its trace
    continues that of [w]. *)
Definition only (key : string) (w w' : World) : Prop :=
  (forall k, k <> key -> secrets w' !! k = secrets w !! k)
  /\ exists rest, trace w' = trace w ++ rest.

(** A computation that changes at most the entry of [key], whether it
    returns or throws. *)
Definition frame (key : string) {A} (m : M A) : Prop :=
  forall w, only key w (snd (m w)).

(** A computation that, besides, does not throw. *)
Definition safe (key : string) {A} (m : M A) : Prop :=
  forall w, (exists a, fst (m w) = Ok a) /\ only key w (snd (m w)).

End Footprint.

(** ** What a match of a pattern looks like *)

Module Shape.
Import Regex.

(** The text an atom may consume. *)
Definition atom_ok (a : atom) (piece : list ascii) : Prop :=
  match a with
  | Lit text => piece = text
  | Rep class lo hi =>
      forallb class piece = true
      /\ (lo <= length piece)%nat
      /\ match hi with
         | Some h => (length piece <= h)%nat
         | None => True
         end
  end.

(** The shape of a bearer token: the prefix [ya29.], a body of the token
    alphabet, more than 100 characters in all. *)
Definition bearer_shaped (t : string) : Prop :=
  exists body,
    t = "ya29." +:+ Str.of_chars body
    /\ forallb ByteScan.token_char body = true
    /\ 100 < Str.length t.

End Shape.

(** ** The e-mail of the active account

    [getCurrentLoggedInEmail] of token-service.ts. *)

Module LoggedInEmail.
Import Regex.

(** [[a-zA-Z0-9._%+-]] *)
Definition local_char (c : ascii) : bool :=
  Str.is_lower c || Str.is_upper c || Str.is_digit c
  || existsb (Z.eqb (Str.code c)) [46; 95; 37; 43; 45].

(** [[a-zA-Z0-9.-]] *)
Definition domain_char (c : ascii) : bool :=
  Str.is_lower c || Str.is_upper c || Str.is_digit c
  || existsb (Z.eqb (Str.code c)) [46; 45].

(** [[a-zA-Z]] *)
Definition letter (c : ascii) : bool := Str.is_lower c || Str.is_upper c.

(** The pattern of the four searches: the quoted key [email], white space,
    a colon, white space, and a quoted address, which is the capture group:
    atoms 5 to 9. *)
Definition emailRegex : pattern :=
  [ Lit ([Str.dquote] ++ Str.chars "email" ++ [Str.dquote]);
    Rep Str.is_space 0 None; ByteScan.lit ":"; Rep Str.is_space 0 None;
    Lit [Str.dquote];
    Rep local_char 1 None; ByteScan.lit "@"; Rep domain_char 1 None; ByteScan.lit ".";
    Rep letter 2 None;
    Lit [Str.dquote] ].

(** [match[1]] *)
Definition captured (m : Match) : string :=
  Str.of_chars (concat (take 5 (drop 5 (pieces m)))).

Fixpoint index_from (needle s : list ascii) (i : Z) : Z :=
  match strip_prefix needle s with
  | Some _ => i
  | None =>
      match s with
      | [] => -1
      | _ :: s' => index_from needle s' (i + 1)
      end
  end.

(** [content.indexOf(needle)] *)
Definition indexOf (content needle : string) : Z :=
  index_from (Str.chars needle) (Str.chars content) 0.

(** [s.includes(needle)] *)
Definition includes (s needle : string) : bool := negb (indexOf s needle =? -1).

(** [s.substring(start, end)]: both bounds are brought into the string, and
    swapped when the first is the greater. *)
Definition substring (s : string) (start end_ : Z) : string :=
  let a := Z.max 0 (Z.min start (Str.length s)) in
  let b := Z.max 0 (Z.min end_ (Str.length s)) in
  Str.of_chars (take (Z.to_nat (Z.max a b - Z.min a b))
                     (drop (Z.to_nat (Z.min a b)) (Str.chars s))).

(** [searchRange.match(emailRegex)] and the test of its group, with the
    lower-casing that follows. *)
Definition email_in (searchRange : string) : option string :=
  match match_first emailRegex searchRange with
  | Some emailMatch =>
      if Str.falsy (captured emailMatch) then None
      else Some (Str.toLowerCase (captured emailMatch))
  | None => None
  end.

(** The search near a marker, when the marker is in the file. *)
Definition near (content : string) (markerIndex start end_ : Z) : option string :=
  if markerIndex =? -1 then None else email_in (substring content start end_).

(** An element of [foundEmails]. *)
Record FoundEmail := { index : Z; email : string }.

(** [foundEmails.sort((a, b) => a.index - b.index)] *)
Fixpoint insert_by_index (x : FoundEmail) (l : list FoundEmail) : list FoundEmail :=
  match l with
  | [] => [x]
  | y :: l' => if index x - index y <? 0 then x :: l else y :: insert_by_index x l'
  end.

Definition sort_by_index (l : list FoundEmail) : list FoundEmail :=
  fold_left (fun sorted x => insert_by_index x sorted) l [].

Definition tierMarker : string :=
  Str.of_chars ([Str.dquote] ++ Str.chars "tierDescription" ++ [Str.dquote]
                ++ Str.chars ":" ++ [Str.dquote] ++ Str.chars "Google AI Pro"
                ++ [Str.dquote]).

(** [foundEmails] when the loop of the last search is done: the addresses
    that hold neither [rerevolve] nor [token.]. *)
Definition foundEmails (content : string) : list FoundEmail :=
  omap (fun m : Match =>
          let email := Str.toLowerCase (captured m) in
          if negb (includes email "rerevolve") && negb (includes email "token.")
          then Some {| index := Regex.index m; email := email |}
          else None)
       (exec_all emailRegex content).

Definition getCurrentLoggedInEmail (host : TokenService.Host) : Res (option string) :=
  if negb (TokenService.existsSync host) then Ok None
  else
    try_catch
      (fileBuffer ← TokenService.readFileSync host;
       let content := buf_toString fileBuffer in
       let lastUserInfoIndex := indexOf content "tfa.lastUserInfo" in
       match near content lastUserInfoIndex
                  lastUserInfoIndex (lastUserInfoIndex + 500) with
       | Some email => Ok (Some email)
       | None =>
           let authStatusIndex := indexOf content "antigravityAuthStatus" in
           match near content authStatusIndex
                      authStatusIndex (authStatusIndex + 2000) with
           | Some email => Ok (Some email)
           | None =>
               let tierProIndex := indexOf content tierMarker in
               let searchStart := Z.max 0 (tierProIndex - 200) in
               match near content tierProIndex searchStart (tierProIndex + 100) with
               | Some email => Ok (Some email)
               | None =>
                   match last (sort_by_index (foundEmails content)) with
                   | Some lastEmail => Ok (Some (email lastEmail))
                   | None => Ok None
                   end
               end
           end
       end)
      (fun _ => Ok None).

(** The shape of what the pattern captures, lower-cased: a local part, the
    at sign, a domain, a dot and a top-level name of two letters or more. *)
Definition address (e : string) : Prop :=
  exists local domain tld,
    e = Str.toLowerCase
          (Str.of_chars (local ++ Str.chars "@" ++ domain ++ Str.chars "." ++ tld))
    /\ local <> [] /\ forallb local_char local = true
    /\ domain <> [] /\ forallb domain_char domain = true
    /\ (2 <= length tld)%nat /\ forallb letter tld = true.

End LoggedInEmail.

(** ** The matches of the byte scan, as the design description names them

    The specification side of [extractTokensFromDb].  An access-token-shaped
    match is a match of the direct pattern, or the bearer token inside the
    decoded text of a match of the base64 pattern; a refresh-token-shaped
    match is a match of one of the three refresh patterns.  Each is kept
    with the offset at which the global search reports it. *)

Module Occurrence.
Import Regex ByteScan.

Section Matches.
Variable from_base64 : string -> Buffer.


End Matches.








End Occurrence.

(** ** The snapshots of AccountSwitcher

    [saveSnapshot], [deleteSnapshot], [getSnapshots], [getSnapshotCount],
    [saveSnapshots] and [readAuthStatus] of account-switcher.ts. *)

(** The identity record as [saveSnapshot] reads it: [parsed.email] and
    [parsed.name], each a string or absent. *)
Module Named.
Record t := { email : option string; name : option string }.
End Named.

(** What these functions use of [JSON] besides [Platform]; [Throw] is the
    exception of [JSON.parse], or of the read of a property of [null]. *)
Class SnapshotPlatform := {
  JSON_parse_named : string -> Res Named.t;
  JSON_stringify_snapshots : gmap string AccountSnapshot.t -> string
}.

Module Snapshots.
Import AccountSnapshot.

(** What a call observes of its surroundings: the clock, what
    [exec(cmd)] prints for a query of the table ([None] when the command
    reports an error), and whether [secrets.store(key, value)] is accepted
    ([Throw] when its promise is rejected). *)
Record Host := {
  now : Z;
  query : string -> gmap string string -> option string;
  store : string -> string -> Res unit
}.

Inductive Message :=
| NoLogin
| Saved (email : string)
| SaveFailed (err : JsError)
| Deleted (email : string).

(** The windows these functions show. *)
Inductive Notice :=
| ShowWarning (m : Message)
| ShowError (m : Message)
| ShowInformation (m : Message).

(** The state of the switcher and the windows shown, in their order.  The
    snapshots are a plain object: [snapshotsCache] holds its own properties,
    and [prototype] the object an assignment to [__proto__] gave it for
    prototype ([None] while it is [Object.prototype], as for every object
    that [JSON.parse] or a literal creates). *)
Record World := {
  switcher : AccountSwitcher.World;
  prototype : option AccountSnapshot.t;
  shown : list Notice
}.

Abbreviation M := (StateRes World).

(** A computation of the switcher, run on its part of the world. *)
Definition lift_switcher {A} (m : AccountSwitcher.M A) : M A :=
  fun w =>
    let '(r, s) := m (switcher w) in
    (r, {| switcher := s; prototype := prototype w; shown := shown w |}).

Definition notify (n : Notice) : M unit :=
  fun w => (Ok tt, {| switcher := switcher w; prototype := prototype w;
                      shown := shown w ++ [n] |}).

Definition get_prototype : M (option AccountSnapshot.t) :=
  fun w => (Ok (prototype w), w).

Definition set_prototype (p : option AccountSnapshot.t) : M unit :=
  fun w => (Ok tt, {| switcher := switcher w; prototype := p; shown := shown w |}).

(** [this.secrets.store(key, value)], when it is accepted. *)
Definition secrets_store (key value : string) : AccountSwitcher.M unit :=
  fun s =>
    (Ok tt, {| AccountSwitcher.secrets := <[key := value]> (AccountSwitcher.secrets s);
               AccountSwitcher.snapshotsCache := AccountSwitcher.snapshotsCache s;
               AccountSwitcher.itemTable := AccountSwitcher.itemTable s;
               AccountSwitcher.trace := AccountSwitcher.trace s |}).

(** The members every object inherits from [Object.prototype]: functions,
    and the accessor [__proto__]. *)
Definition Object_prototype : list string :=
  [ "constructor"; "__defineGetter__"; "__defineSetter__"; "hasOwnProperty";
    "__lookupGetter__"; "__lookupSetter__"; "isPrototypeOf";
    "propertyIsEnumerable"; "toString"; "valueOf"; "__proto__";
    "toLocaleString" ].

(** [snapshots[name]] is truthy for a [name] that is no key of the object:
    a truthy member of the prototype it was given, or a member of
    [Object.prototype], which are all truthy. *)
Definition inherited (prototype : option AccountSnapshot.t) (name : string) : bool :=
  match prototype with
  | Some p =>
      (String.eqb name "email" && negb (Str.falsy (email p)))
      || (String.eqb name "authStatus" && negb (Str.falsy (authStatus p)))
      || (String.eqb name "savedAt" && negb (savedAt p =? 0))
  | None => false
  end
  || existsb (String.eqb name) Object_prototype.

(** [snapshots[email] = snapshot] sets the prototype of the object, and
    adds no property, when [email] is [__proto__] and the object has no
    property of that name of its own: the assignment reaches the accessor
    of [Object.prototype]. *)
Definition sets_prototype (snapshots : gmap string AccountSnapshot.t) (email : string)
  : bool :=
  String.eqb email "__proto__"
  && match snapshots !! "__proto__" with
     | Some _ => false
     | None => true
     end.

(** The prototype of the object [loadSnapshots] returns: that of the
    cache, or of a new object. *)
Definition loaded_prototype (w : World) : option AccountSnapshot.t :=
  if AccountSwitcher.snapshotsCache (switcher w) is Some _ then prototype w else None.

Section Snapshots.
Context `{Platform} `{SnapshotPlatform} (host : Host) (dbPath : string).

(** [loadSnapshots], with the prototype of the object it returns: the
    cache as it is, or a new object. *)
Definition loadSnapshots : M (gmap string AccountSnapshot.t) :=
  (fun w => set_prototype (loaded_prototype w) w);;
  lift_switcher AccountSwitcher.loadSnapshots.

(** The command line of [readAuthStatus]. *)
Definition select_command : string :=
  "sqlite3 " +:+ Str.of_chars [Str.dquote]
  +:+ Str.replace_char Str.backslash "/" dbPath
  +:+ Str.of_chars [Str.dquote] +:+ " " +:+ Str.of_chars [Str.dquote]
  +:+ "SELECT value FROM ItemTable WHERE key = 'antigravityAuthStatus'"
  +:+ Str.of_chars [Str.dquote].

(** What the callback of [exec] resolves the promise with: [null] on an
    error, else [stdout.trim() || null]. *)
Definition resolve_stdout (cmd : string) : AccountSwitcher.M (option string) :=
  fun s =>
    match query host cmd (AccountSwitcher.itemTable s) with
    | None => (Ok None, s)
    | Some stdout =>
        let value := Str.trim stdout in
        (Ok (if Str.falsy value then None else Some value), s)
    end.

Definition readAuthStatus : AccountSwitcher.M (option string) :=
  AccountSwitcher.emit (AccountSwitcher.Exec select_command);;
  resolve_stdout select_command.

(** A rejected store is caught and logged: the storage and the field
    [snapshotsCache] are then left as they were. *)
Definition saveSnapshots (snapshots : gmap string AccountSnapshot.t)
  : AccountSwitcher.M unit :=
  try_catchM
    (let data := JSON_stringify_snapshots snapshots in
     lift (store host AccountSwitcher.SNAPSHOTS_KEY data);;
     secrets_store AccountSwitcher.SNAPSHOTS_KEY data;;
     AccountSwitcher.set_cache snapshots)
    (fun _ => mret tt).

(** [parsed.email || parsed.name || 'unknown'], and ['unknown'] when the
    blob is not JSON. *)
Definition snapshot_key (authStatus : string) : string :=
  match JSON_parse_named authStatus with
  | Ok parsed =>
      if negb (Str.not (Named.email parsed)) then default "" (Named.email parsed)
      else if negb (Str.not (Named.name parsed)) then default "" (Named.name parsed)
      else "unknown"
  | Throw _ => "unknown"
  end.

(** [snapshots[email] = snapshot].  The object [loadSnapshots] returns is
    the cache itself, so the assignment changes the cache before
    [saveSnapshots] runs: its prototype, or its properties. *)
Definition assign (snapshots : gmap string AccountSnapshot.t) (email : string)
    (snapshot : AccountSnapshot.t) : M (gmap string AccountSnapshot.t) :=
  if sets_prototype snapshots email then
    set_prototype (Some snapshot);; mret snapshots
  else
    let snapshots := <[email := snapshot]> snapshots in
    lift_switcher (AccountSwitcher.set_cache snapshots);; mret snapshots.

Definition saveSnapshot : M bool :=
  try_catchM
    (authStatus ← lift_switcher readAuthStatus;
     if Str.not authStatus then
       notify (ShowWarning NoLogin);; mret false
     else
       let authStatus := default "" authStatus in
       let email := snapshot_key authStatus in
       snapshots ← loadSnapshots;
       snapshots ← assign snapshots email
                     {| email := email; authStatus := authStatus; savedAt := now host |};
       lift_switcher (saveSnapshots snapshots);;
       notify (ShowInformation (Saved email));;
       mret true)
    (fun err => notify (ShowError (SaveFailed err));; mret false).

Definition getSnapshots : M (gmap string AccountSnapshot.t) := loadSnapshots.

(** [Object.keys(snapshots).length]: the properties of the object itself. *)
Definition getSnapshotCount : M Z :=
  snapshots ← loadSnapshots;
  mret (Z.of_nat (size snapshots)).

(** [if (snapshots[email])] sees the inherited members too;
    [delete snapshots[email]] removes a property of the object itself, in
    the cache, and does nothing when there is none. *)
Definition deleteSnapshot (email : string) : M bool :=
  snapshots ← loadSnapshots;
  prototype ← get_prototype;
  if bool_decide (is_Some (snapshots !! email)) || inherited prototype email then
    let snapshots := delete email snapshots in
    lift_switcher (AccountSwitcher.set_cache snapshots);;
    lift_switcher (saveSnapshots snapshots);;
    notify (ShowInformation (Deleted email));;
    mret true
  else mret false.

End Snapshots.

(** The switcher of a later session: the same secret storage and table, no
    cache yet. *)
Definition restarted (s : AccountSwitcher.World) : AccountSwitcher.World :=
  {| AccountSwitcher.secrets := AccountSwitcher.secrets s;
     AccountSwitcher.snapshotsCache := None;
     AccountSwitcher.itemTable := AccountSwitcher.itemTable s;
     AccountSwitcher.trace := [] |}.

End Snapshots.

(** ** A reference platform for the snapshots

    An executable instance of [SnapshotPlatform], and the sqlite3 tool
    answering the query of [readAuthStatus] behind the shell of [Shell];
    both are used to run the functions on concrete inputs only. *)

Module ReferenceSnapshots.
Import Reference.

Definition named_of_json (j : Json.t) : option Named.t :=
  match j with
  | Json.Null => None
  | _ => Some {| Named.email := Json.text (Json.member "email" j);
                 Named.name := Json.text (Json.member "name" j) |}
  end.

Definition snapshots_to_json (snapshots : gmap string AccountSnapshot.t) : Json.t :=
  Json.Obj (map (fun kv => (fst kv, snapshot_to_json (snd kv))) (map_to_list snapshots)).

Definition platform : SnapshotPlatform :=
  {| JSON_parse_named s := j ← Json.parse s; or_throw (named_of_json j);
     JSON_stringify_snapshots m := Json.stringify (snapshots_to_json m) |}.

Definition newline : ascii := Ascii.ascii_of_nat 10.

(** [sqlite3 DB SQL] for the query of [readAuthStatus]: the value of the
    row and a line end, or nothing when there is no row. *)
Definition select (cmd : string) (table : gmap string string) : option string :=
  ws ← Shell.words cmd;
  match ws with
  | [program; _; sql] =>
      if String.eqb (Str.of_chars program) "sqlite3"
         && String.eqb (Str.of_chars sql)
              "SELECT value FROM ItemTable WHERE key = 'antigravityAuthStatus'"
      then Some match table !! "antigravityAuthStatus" with
                | Some value => value +:+ Str.of_chars [newline]
                | None => ""
                end
      else None
  | _ => None
  end.

End ReferenceSnapshots.

(** ** More concrete inputs *)

Module Scenarios.
Import Examples.



(** The store of a logged-in host: the identity record, the token message
    of the default store (an unrelated field, the wrapper numbered 6, an
    unrelated field) and that of the unified store (the wrapper numbered 1,
    whose inner message has two fields numbered 1). *)
Definition default_state : string := "CKwCMgoKA0FUMhoDUlQyJQECAwQ=".
Definition unified_state : string := "Cg8KA29sZAoDQVQyGgNSVDI=".

Definition full_store : Platform :=
  Reference.platform
    (Ok {[ "antigravityAuthStatus" := active_identity;
           TokenService.STATE_KEY := default_state;
           "antigravityUnifiedStateSync.oauthToken" := unified_state ]}).

Definition token_fields : list Wire.Field :=
  [ Wire.length_delimited_field 1 (Wire.utf8 "AT2");
    Wire.length_delimited_field 3 (Wire.utf8 "RT2") ].

Definition default_fields : list Wire.Field :=
  [ Wire.varint_field 1 300;
    Wire.length_delimited_field 6 (Wire.encode_message token_fields);
    Wire.fixed32_field 4 [x01; x02; x03; x04] ].

Definition unified_token_fields : list Wire.Field :=
  Wire.length_delimited_field 1 (Wire.utf8 "old") :: token_fields.






(** A file that names the last user, with an address in capitals. *)
Definition user_info : string :=
  "tfa.lastUserInfo {"
  +:+ Str.of_chars [Str.dquote] +:+ "email" +:+ Str.of_chars [Str.dquote] +:+ ": "
  +:+ Str.of_chars [Str.dquote] +:+ "User@Example.COM" +:+ Str.of_chars [Str.dquote]
  +:+ "}".

Definition user_info_host : TokenService.Host :=
  {| TokenService.now := 0;
     TokenService.existsSync := true;
     TokenService.readFileSync := Ok (Wire.utf8 user_info);
     TokenService.token_endpoint := fun _ => None |}.

(** An authorization code the endpoint grants, with a refresh token. *)
Definition granting_host : OAuthFlow.Host :=
  {| OAuthFlow.now := 1000;
     OAuthFlow.showInputBox := Some " 4/0code ";
     OAuthFlow.code_endpoint := fun code =>
       if String.eqb code "4/0code"
       then Ok (OAuthFlow.Granted (Some "ya29.granted") (Some "1//granted") 3600)
       else Ok (OAuthFlow.Rejected 400 "invalid_grant") |}.

Definition granted_credential : StoredCredential.t :=
  {| StoredCredential.accessToken := "ya29.granted";
     StoredCredential.refreshToken := Some "1//granted";
     StoredCredential.expiresAt := 1000 + 3600 * 1000;
     StoredCredential.email := "a@x.com";
     StoredCredential.createdAt := 1000 |}.

Definition no_secrets : OAuthFlow.World :=
  {| OAuthFlow.secrets := ∅; OAuthFlow.trace := [] |}.

(** The switcher of a host logged in as a@x.com, with the snapshot of
    another account saved before. *)
Definition snapshot_host : Snapshots.Host :=
  {| Snapshots.now := 5;
     Snapshots.query := ReferenceSnapshots.select;
     Snapshots.store := fun _ _ => Ok tt |}.

(** The same host with a secret storage that rejects every store. *)
Definition rejecting_host : Snapshots.Host :=
  {| Snapshots.now := 5;
     Snapshots.query := ReferenceSnapshots.select;
     Snapshots.store := fun _ _ => Throw IOError |}.

Definition snapshot_b : AccountSnapshot.t :=
  {| AccountSnapshot.email := "b@x.com";
     AccountSnapshot.authStatus := "{email:'b@x.com'}";
     AccountSnapshot.savedAt := 1 |}.

Definition saved_before : gmap string AccountSnapshot.t :=
  {[ "b@x.com" := snapshot_b ]}.

(** What [saveSnapshot] adds at time 5 for the identity of a@x.com. *)
Definition saved_a : AccountSnapshot.t :=
  {| AccountSnapshot.email := "a@x.com";
     AccountSnapshot.authStatus := active_identity;
     AccountSnapshot.savedAt := 5 |}.

(** The secret storage after the snapshot of b@x.com was saved. *)
Definition saved_secrets : gmap string string :=
  {[ AccountSwitcher.SNAPSHOTS_KEY :=
       @JSON_stringify_snapshots ReferenceSnapshots.platform saved_before ]}.

Definition logged_in_world : Snapshots.World :=
  {| Snapshots.switcher :=
       {| AccountSwitcher.secrets := saved_secrets;
          AccountSwitcher.snapshotsCache := None;
          AccountSwitcher.itemTable := {[ "antigravityAuthStatus" := active_identity ]};
          AccountSwitcher.trace := [] |};
     Snapshots.prototype := None;
     Snapshots.shown := [] |}.

(** The same switcher when the identity row names the account
    [__proto__]. *)
Definition proto_identity : string :=
  "{" +:+ Str.of_chars [Str.dquote] +:+ "email" +:+ Str.of_chars [Str.dquote] +:+ ":"
  +:+ Str.of_chars [Str.dquote] +:+ "__proto__" +:+ Str.of_chars [Str.dquote] +:+ "}".

Definition proto_world : Snapshots.World :=
  {| Snapshots.switcher :=
       {| AccountSwitcher.secrets := saved_secrets;
          AccountSwitcher.snapshotsCache := None;
          AccountSwitcher.itemTable := {[ "antigravityAuthStatus" := proto_identity ]};
          AccountSwitcher.trace := [] |};
     Snapshots.prototype := None;
     Snapshots.shown := [] |}.

(** The same switcher when the host application has no identity row. *)
Definition logged_out_world : Snapshots.World :=
  {| Snapshots.switcher :=
       {| AccountSwitcher.secrets := saved_secrets;
          AccountSwitcher.snapshotsCache := None;
          AccountSwitcher.itemTable := ∅;
          AccountSwitcher.trace := [] |};
     Snapshots.prototype := None;
     Snapshots.shown := [] |}.

End Scenarios.

(** * Properties *)

(** ** Bytes and the bit operators *)

Section ByteFacts.

Lemma byte_val_range (b : byte) : 0 <= byte_val b < 256.
Proof. unfold byte_val. pose proof (Byte.to_N_bounded b). lia. Qed.

Lemma byte_val_of_Z (z : Z) : 0 <= z < 256 -> byte_val (Wire.byte_of_Z z) = z.
Proof.
  intros Hz. unfold Wire.byte_of_Z, byte_val.
  destruct (Byte.of_N (Z.to_N z)) as [b|] eqn:E; simpl.
  - apply Byte.to_of_N in E. rewrite E. lia.
  - apply Byte.of_N_None_iff in E. lia.
Qed.

Lemma js_and_low7 (b : byte) : js_and (byte_val b) 0x7f = byte_val b mod 128.
Proof. destruct b; reflexivity. Qed.

Lemma js_and_high (b : byte) : (js_and (byte_val b) 0x80 =? 0) = (byte_val b <? 128).
Proof. destruct b; reflexivity. Qed.

(** The conversion to a signed 32-bit integer, on an unsigned one. *)
Lemma ToInt32_cases (x : Z) :
  0 <= x < 2 ^ 32 ->
  ToInt32 x = if x <? 2 ^ 31 then x else x - 2 ^ 32.
Proof.
  intros Hx. unfold ToInt32. destruct (Z.ltb_spec x (2 ^ 31)).
  - rewrite Z.mod_small; lia.
  - replace (x + 2 ^ 31) with (x - 2 ^ 31 + 1 * 2 ^ 32) by lia.
    rewrite Z.mod_add by lia. rewrite Z.mod_small; lia.
Qed.

(** [tag & 7] is the wire type of every 32-bit tag. *)
Lemma js_and_wire (tag : Z) : 0 <= tag < 2 ^ 32 -> js_and tag 7 = tag mod 8.
Proof.
  intros Ht. unfold js_and. rewrite (ToInt32_cases 7) by lia. simpl.
  change 7 with (Z.ones 3). rewrite Z.land_ones by lia. change (2 ^ 3) with 8.
  rewrite ToInt32_cases by lia. destruct (tag <? 2 ^ 31); [reflexivity|].
  replace (tag - 2 ^ 32) with (tag + (- 2 ^ 29) * 8) by lia.
  apply Z.mod_add. lia.
Qed.

(** [tag >> 3] is the field number of a tag below 2^31 and a negative
    number above; compared with a target below 2^28 it answers as the
    field number does. *)
Lemma js_sar_number (tag : Z) :
  0 <= tag < 2 ^ 32 ->
  js_sar tag 3 = if tag <? 2 ^ 31 then tag / 8 else tag / 8 - 2 ^ 29.
Proof.
  intros Ht. unfold js_sar. change (3 mod 32) with 3.
  rewrite Z.shiftr_div_pow2 by lia. change (2 ^ 3) with 8.
  rewrite ToInt32_cases by lia. destruct (tag <? 2 ^ 31); [reflexivity|].
  replace (tag - 2 ^ 32) with (tag + (- 2 ^ 29) * 8) by lia.
  rewrite Z.div_add by lia. lia.
Qed.

Lemma js_sar_eqb (tag target : Z) :
  0 <= tag < 2 ^ 32 -> 0 <= target < 2 ^ 28 ->
  (js_sar tag 3 =? target) = (tag / 8 =? target).
Proof.
  intros Ht Hg. rewrite js_sar_number by assumption.
  destruct (Z.ltb_spec tag (2 ^ 31)); [reflexivity|].
  assert (2 ^ 28 <= tag / 8) by (apply Z.div_le_lower_bound; lia).
  assert (tag / 8 < 2 ^ 29) by (apply Z.div_lt_upper_bound; lia).
  destruct (Z.eqb_spec (tag / 8 - 2 ^ 29) target); [lia|].
  destruct (Z.eqb_spec (tag / 8) target); [lia|reflexivity].
Qed.

End ByteFacts.

(** ** The decoder on varints *)

Section VarintFacts.
Import Protobuf Wire.

Lemma buf_length_app (a b : Buffer) : buf_length (a ++ b) = buf_length a + buf_length b.
Proof. unfold buf_length. rewrite length_app. lia. Qed.

Lemma buf_length_nonneg (a : Buffer) : 0 <= buf_length a.
Proof. unfold buf_length. lia. Qed.

Lemma buf_length_pos (a : Buffer) : a <> [] -> 0 < buf_length a.
Proof. destruct a; [congruence|]. unfold buf_length. simpl. lia. Qed.

Lemma is_varint_nonempty bytes : is_varint bytes = true -> bytes <> [].
Proof. destruct bytes; [discriminate|congruence]. Qed.

Lemma varint_value_nonneg bytes : 0 <= varint_value bytes.
Proof.
  induction bytes as [|b bytes IH]; simpl; [lia|].
  pose proof (Z.mod_pos_bound (byte_val b) 128 ltac:(lia)). lia.
Qed.

Lemma readVarint_loop_varint bytes : forall rest acc shift pos,
  is_varint bytes = true -> 0 <= shift ->
  readVarint_loop (bytes ++ rest) acc shift pos
  = Ok (acc + varint_value bytes * 2 ^ shift, pos + buf_length bytes).
Proof.
  induction bytes as [|b bytes IH]; intros rest acc shift pos Hv Hs; [discriminate|].
  cbn [app readVarint_loop is_varint varint_value] in *.
  rewrite js_and_high, js_and_low7.
  destruct (byte_val b <? 128).
  - destruct bytes; [|discriminate]. simpl.
    replace (buf_length [b]) with 1 by reflexivity.
    f_equal. apply pair_equal_spec. split; ring.
  - rewrite IH by (auto; lia).
    replace (buf_length (b :: bytes)) with (1 + buf_length bytes)
      by (unfold buf_length; simpl length; lia).
    rewrite Z.pow_add_r by lia. change (2 ^ 7) with 128.
    f_equal. apply pair_equal_spec. split; ring.
Qed.

(** Reading a varint that starts at the end of [pre]. *)
Lemma readVarint_varint pre bytes rest :
  is_varint bytes = true ->
  readVarint (pre ++ bytes ++ rest) (buf_length pre)
  = Ok (varint_value bytes, buf_length (pre ++ bytes)).
Proof.
  intros Hv. unfold readVarint, buf_length at 1.
  rewrite Nat2Z.id, drop_app_length.
  rewrite readVarint_loop_varint by (auto; lia).
  rewrite buf_length_app. f_equal. f_equal. lia.
Qed.

(** The encoder writes varints, with the value it was given. *)
Lemma encode_varint_fuel_spec fuel : forall n,
  0 <= n < 2 * 2 ^ Z.of_nat fuel ->
  is_varint (encode_varint_fuel fuel n) = true
  /\ varint_value (encode_varint_fuel fuel n) = n.
Proof.
  induction fuel as [|fuel IH]; intros n Hn.
  - simpl in *. rewrite byte_val_of_Z by lia.
    destruct (Z.ltb_spec n 128); [|lia]. rewrite Z.mod_small by lia. split; [reflexivity|lia].
  - cbn [encode_varint_fuel]. destruct (Z.ltb_spec n 128).
    + simpl. rewrite byte_val_of_Z by lia.
      destruct (Z.ltb_spec n 128); [|lia]. rewrite Z.mod_small by lia.
      split; [reflexivity|lia].
    + assert (Hm : 0 <= n mod 128 < 128) by (apply Z.mod_pos_bound; lia).
      assert (Hd : 0 <= n / 128 < 2 * 2 ^ Z.of_nat fuel).
      { rewrite Nat2Z.inj_succ, Z.pow_succ_r in Hn by lia.
        split; [apply Z.div_pos; lia|apply Z.div_lt_upper_bound; lia]. }
      destruct (IH (n / 128) Hd) as [Hv Hval].
      cbn [is_varint varint_value]. rewrite byte_val_of_Z by lia.
      destruct (Z.ltb_spec (n mod 128 + 128) 128); [lia|].
      split; [exact Hv|]. rewrite Hval.
      replace (n mod 128 + 128) with (n mod 128 + 1 * 128) by lia.
      rewrite Z.mod_add by lia. rewrite Z.mod_mod by lia.
      pose proof (Z.div_mod n 128 ltac:(lia)). lia.
Qed.

Lemma encode_varint_spec n :
  0 <= n -> is_varint (encode_varint n) = true /\ varint_value (encode_varint n) = n.
Proof.
  intros Hn. apply encode_varint_fuel_spec. split; [lia|].
  rewrite Z2Nat.id by apply Z.log2_nonneg.
  destruct (Z.eq_dec n 0) as [->|Hne]; [reflexivity|].
  rewrite <- Z.pow_succ_r by apply Z.log2_nonneg.
  apply Z.log2_spec. lia.
Qed.

End VarintFacts.

(** ** The decoder on encoded fields *)

Section FieldFacts.
Import Protobuf Wire.

Lemma subarray_app (a p rest : Buffer) :
  subarray (a ++ p ++ rest) (buf_length a) (buf_length a + buf_length p) = p.
Proof.
  unfold subarray, buf_length.
  rewrite Nat2Z.id, drop_app_length.
  replace (Z.to_nat (Z.of_nat (length a) + Z.of_nat (length p) - Z.of_nat (length a)))
    with (length p) by lia.
  apply take_app_length.
Qed.

Lemma field_shape_inv f :
  field_shape f = true ->
  is_varint (tagBytes f) = true /\ 0 <= tag f < 2 ^ 32
  /\ tag f mod 8 = wireType (value f) /\ value_shape (value f) = true.
Proof.
  unfold field_shape. rewrite !andb_true_iff. intros [[[H1 H2] H3] H4].
  apply Z.ltb_lt in H2. apply Z.eqb_eq in H3.
  pose proof (varint_value_nonneg (tagBytes f)). unfold tag in *. auto.
Qed.

Lemma tag_wireType f : field_shape f = true -> js_and (tag f) 7 = wireType (value f).
Proof.
  intros (_ & Ht & Hw & _)%field_shape_inv. rewrite js_and_wire; assumption.
Qed.

Lemma tag_fieldNumber f target :
  field_shape f = true -> 0 <= target < 2 ^ 28 ->
  (js_sar (tag f) 3 =? target) = (fieldNumber f =? target).
Proof.
  intros (_ & Ht & _)%field_shape_inv Hg. apply js_sar_eqb; assumption.
Qed.

Lemma encode_field_nonempty f : field_shape f = true -> encode_field f <> [].
Proof.
  intros (Hv & _)%field_shape_inv. apply is_varint_nonempty in Hv.
  unfold encode_field. destruct (tagBytes f); [congruence|discriminate].
Qed.

(** Reading the tag of a field that starts at the end of [pre]. *)
Lemma readVarint_tag pre f rest :
  field_shape f = true ->
  readVarint (pre ++ encode_field f ++ rest) (buf_length pre)
  = Ok (tag f, buf_length (pre ++ tagBytes f)).
Proof.
  intros (Hv & _)%field_shape_inv. unfold encode_field.
  rewrite <- (app_assoc (tagBytes f)). apply readVarint_varint. assumption.
Qed.

(** Skipping the value of a field, from the end of its tag. *)
Lemma skipField_value pre v rest :
  value_shape v = true ->
  skipField (pre ++ encode_value v ++ rest) (buf_length pre) (wireType v)
  = Ok (buf_length (pre ++ encode_value v)).
Proof.
  intros Hwf. unfold skipField.
  destruct v as [bytes|bytes|len payload|bytes]; simpl in *.
  - rewrite readVarint_varint by assumption. reflexivity.
  - apply Z.eqb_eq in Hwf. rewrite buf_length_app, Hwf. reflexivity.
  - apply andb_true_iff in Hwf as [Hv Hl]. apply Z.eqb_eq in Hl.
    rewrite <- (app_assoc len).
    rewrite readVarint_varint by assumption.
    simpl. rewrite Hl, !buf_length_app. f_equal. lia.
  - apply Z.eqb_eq in Hwf. rewrite buf_length_app, Hwf. reflexivity.
Qed.

Lemma skipField_field pre f rest :
  field_shape f = true ->
  skipField (pre ++ encode_field f ++ rest)
            (buf_length (pre ++ tagBytes f)) (wireType (value f))
  = Ok (buf_length (pre ++ encode_field f)).
Proof.
  intros (_ & _ & _ & Hv)%field_shape_inv. unfold encode_field.
  rewrite <- (app_assoc (tagBytes f)), (app_assoc pre).
  rewrite skipField_value by assumption.
  rewrite <- app_assoc. reflexivity.
Qed.

(** The length and the payload of a length-delimited field, read from the
    end of its tag. *)
Lemma read_length pre f len payload rest :
  field_shape f = true -> value f = LengthDelimited len payload ->
  let data := pre ++ encode_field f ++ rest in
  let contentOffset := buf_length (pre ++ tagBytes f ++ len) in
  readVarint data (buf_length (pre ++ tagBytes f)) = Ok (buf_length payload, contentOffset)
  /\ subarray data contentOffset (contentOffset + buf_length payload) = payload
  /\ contentOffset + buf_length payload = buf_length (pre ++ encode_field f).
Proof.
  intros (_ & _ & _ & Hwf)%field_shape_inv Hv. rewrite Hv in Hwf. simpl in Hwf.
  apply andb_true_iff in Hwf as [Hlen Hl]. apply Z.eqb_eq in Hl.
  cbn zeta. unfold encode_field. rewrite Hv. simpl encode_value.
  set (t := tagBytes f).
  replace (pre ++ (t ++ len ++ payload) ++ rest)
    with ((pre ++ t) ++ len ++ (payload ++ rest)) by (rewrite <- !app_assoc; reflexivity).
  split; [|split].
  - rewrite (readVarint_varint (pre ++ t)) by assumption.
    rewrite Hl, <- app_assoc. reflexivity.
  - replace ((pre ++ t) ++ len ++ payload ++ rest)
      with ((pre ++ t ++ len) ++ payload ++ rest) by (rewrite <- !app_assoc; reflexivity).
    apply subarray_app.
  - rewrite !buf_length_app. lia.
Qed.

Lemma offset_inside pre f rest :
  field_shape f = true ->
  (buf_length pre <? buf_length (pre ++ encode_field f ++ rest)) = true.
Proof.
  intros Hwf. apply Z.ltb_lt. rewrite !buf_length_app.
  pose proof (buf_length_pos _ (encode_field_nonempty f Hwf)).
  pose proof (buf_length_nonneg rest). lia.
Qed.

Lemma offset_at_end (data : Buffer) : (buf_length data <? buf_length data) = false.
Proof. apply Z.ltb_irrefl. Qed.

(** One tag-read plus [skipField] passes one whole field. *)
Lemma skip_one_field pre f rest :
  field_shape f = true ->
  skip_one (pre ++ encode_field f ++ rest) (buf_length pre)
  = Ok (buf_length (pre ++ encode_field f)).
Proof.
  intros Hwf. unfold skip_one. rewrite readVarint_tag by assumption. simpl.
  rewrite tag_wireType by assumption. apply skipField_field. assumption.
Qed.

(** One iteration of the loop of [findField] at a field boundary. *)
Lemma findField_loop_field fuel pre f rest target :
  field_shape f = true -> 0 <= target < 2 ^ 28 ->
  findField_loop (S fuel) (pre ++ encode_field f ++ rest) target (buf_length pre)
  = match value f with
    | LengthDelimited _ payload =>
        if fieldNumber f =? target then Some (Ok (Some payload))
        else findField_loop fuel (pre ++ encode_field f ++ rest) target
                            (buf_length (pre ++ encode_field f))
    | _ => findField_loop fuel (pre ++ encode_field f ++ rest) target
                          (buf_length (pre ++ encode_field f))
    end.
Proof.
  intros Hwf Hg. cbn [findField_loop]. rewrite offset_inside by assumption.
  rewrite readVarint_tag by assumption. cbn zeta.
  rewrite tag_wireType, tag_fieldNumber by assumption.
  pose proof (skipField_field pre f rest Hwf) as Hskip.
  destruct (value f) as [bytes|bytes|len payload|bytes] eqn:Hv; simpl wireType in *;
    rewrite ?andb_false_r, ?Hskip; try reflexivity.
  change (2 =? 2) with true. rewrite andb_true_r.
  destruct (fieldNumber f =? target); [|reflexivity].
  destruct (read_length pre f len payload rest Hwf Hv) as (Hread & Hsub & _).
  rewrite Hread. simpl. rewrite Hsub. reflexivity.
Qed.

End FieldFacts.

(** ** The loops are started with enough fuel *)

Section Fuel.
Import Protobuf Wire.

Lemma readVarint_loop_advances rest : forall acc shift pos v pos',
  0 <= acc -> 0 <= shift ->
  readVarint_loop rest acc shift pos = Ok (v, pos') -> pos < pos' /\ 0 <= v.
Proof.
  induction rest as [|b rest IH]; intros acc shift pos v pos' Ha Hs; simpl; [discriminate|].
  rewrite js_and_high, js_and_low7.
  pose proof (Z.mod_pos_bound (byte_val b) 128 ltac:(lia)) as Hm.
  assert (0 <= byte_val b mod 128 * 2 ^ shift) by (apply Z.mul_nonneg_nonneg; lia).
  destruct (byte_val b <? 128).
  - intros [= <- <-]. lia.
  - intros Hr. apply IH in Hr; lia.
Qed.

Lemma readVarint_advances data offset v pos' :
  readVarint data offset = Ok (v, pos') -> offset < pos' /\ 0 <= v.
Proof. unfold readVarint. apply readVarint_loop_advances; lia. Qed.

Lemma skipField_advances data offset wt offset' :
  skipField data offset wt = Ok offset' -> offset <= offset'.
Proof.
  unfold skipField.
  destruct (wt =? 0).
  { destruct (readVarint data offset) as [[v p]|] eqn:E; simpl; [|discriminate].
    apply readVarint_advances in E. intros [= <-]. lia. }
  destruct (wt =? 1); [intros [= <-]; lia|].
  destruct (wt =? 2).
  { destruct (readVarint data offset) as [[v p]|] eqn:E; simpl; [|discriminate].
    apply readVarint_advances in E. intros [= <-]. lia. }
  destruct (wt =? 5); [intros [= <-]; lia|discriminate].
Qed.

Lemma findField_loop_enough fuel : forall data target offset,
  buf_length data - offset < Z.of_nat fuel ->
  is_Some (findField_loop fuel data target offset).
Proof.
  induction fuel as [|fuel IH]; intros data target offset Hf.
  - simpl. destruct (offset <? buf_length data) eqn:E; [apply Z.ltb_lt in E; lia|eauto].
  - cbn [findField_loop]. destruct (offset <? buf_length data); [|eauto].
    destruct (readVarint data offset) as [[tag newOffset]|] eqn:E; [|eauto].
    apply readVarint_advances in E. cbn zeta.
    destruct ((js_sar tag 3 =? target) && (js_and tag 7 =? 2)); [eauto|].
    destruct (skipField data newOffset (js_and tag 7)) as [offset'|] eqn:E'; [|eauto].
    apply skipField_advances in E'. apply IH. lia.
Qed.

Lemma parseOAuthTokenInfo_step_advances data offset info offset' info' :
  parseOAuthTokenInfo_step data offset info = Ok (offset', info') -> offset < offset'.
Proof.
  unfold parseOAuthTokenInfo_step.
  destruct (readVarint data offset) as [[tag newOffset]|] eqn:E; simpl; [|discriminate].
  apply readVarint_advances in E.
  destruct (js_and tag 7 =? 2).
  - destruct (readVarint data newOffset) as [[len contentOffset]|] eqn:E2; simpl; [|discriminate].
    apply readVarint_advances in E2.
    destruct (js_sar tag 3 =? 1); [intros [= <- <-]; lia|].
    destruct (js_sar tag 3 =? 3); intros [= <- <-]; lia.
  - destruct (skipField data newOffset (js_and tag 7)) as [o|] eqn:E2; simpl; [|discriminate].
    apply skipField_advances in E2. intros [= <- <-]. lia.
Qed.

Lemma parseOAuthTokenInfo_loop_enough fuel : forall data offset info,
  buf_length data - offset < Z.of_nat fuel ->
  is_Some (parseOAuthTokenInfo_loop fuel data offset info).
Proof.
  induction fuel as [|fuel IH]; intros data offset info Hf.
  - simpl. destruct (offset <? buf_length data) eqn:E; [apply Z.ltb_lt in E; lia|eauto].
  - cbn [parseOAuthTokenInfo_loop]. destruct (offset <? buf_length data); [|eauto].
    destruct (parseOAuthTokenInfo_step data offset info) as [[offset' info']|] eqn:E; [|eauto].
    apply parseOAuthTokenInfo_step_advances in E. apply IH. lia.
Qed.

(** [findField] and [parseOAuthTokenInfo] are the results of their loops. *)
Lemma findField_loop_result data target :
  findField_loop (findField_fuel data) data target 0 = Some (findField data target).
Proof.
  unfold findField.
  destruct (findField_loop_enough (findField_fuel data) data target 0) as [r ->];
    [|reflexivity].
  unfold findField_fuel, buf_length. lia.
Qed.

Lemma parseOAuthTokenInfo_loop_result data :
  parseOAuthTokenInfo_loop (S (length data)) data 0 emptyInfo
  = Some (parseOAuthTokenInfo data).
Proof.
  unfold parseOAuthTokenInfo.
  destruct (parseOAuthTokenInfo_loop_enough (S (length data)) data 0 emptyInfo) as [r ->];
    [|reflexivity].
  unfold buf_length. lia.
Qed.

End Fuel.

(** ** The decoder on encoded messages *)

Section MessageFacts.
Import Protobuf Wire.

Lemma encode_message_cons f fs :
  encode_message (f :: fs) = encode_field f ++ encode_message fs.
Proof. reflexivity. Qed.

Lemma encode_message_app fs1 fs2 :
  encode_message (fs1 ++ fs2) = encode_message fs1 ++ encode_message fs2.
Proof. unfold encode_message. rewrite map_app, concat_app. reflexivity. Qed.

Lemma shaped_cons f fs :
  shaped (f :: fs) = true <-> field_shape f = true /\ shaped fs = true.
Proof. unfold shaped. simpl. apply andb_true_iff. Qed.

Lemma shaped_app fs1 fs2 :
  shaped (fs1 ++ fs2) = true <-> shaped fs1 = true /\ shaped fs2 = true.
Proof. unfold shaped. rewrite forallb_app. apply andb_true_iff. Qed.

Lemma length_encode_message fs :
  shaped fs = true -> (length fs <= length (encode_message fs))%nat.
Proof.
  induction fs as [|f fs IH]; intros Hwf; [simpl; lia|].
  apply shaped_cons in Hwf as [Hf Hfs].
  rewrite encode_message_cons, length_app.
  pose proof (encode_field_nonempty f Hf). specialize (IH Hfs).
  destruct (encode_field f); [congruence|simpl; lia].
Qed.

Lemma findField_loop_message fs : forall pre fuel target,
  shaped fs = true -> 0 <= target < 2 ^ 28 -> (length fs < fuel)%nat ->
  findField_loop fuel (pre ++ encode_message fs) target (buf_length pre)
  = Some (Ok (first_length_delimited target fs)).
Proof.
  induction fs as [|f fs IH]; intros pre fuel target Hwf Hg Hfuel.
  - unfold encode_message. simpl. rewrite app_nil_r.
    destruct fuel; simpl; rewrite offset_at_end; reflexivity.
  - apply shaped_cons in Hwf as [Hf Hfs].
    destruct fuel as [|fuel]; [simpl in Hfuel; lia|].
    rewrite encode_message_cons, findField_loop_field by assumption.
    simpl in Hfuel. simpl first_length_delimited.
    destruct (value f); try destruct (fieldNumber f =? target);
      try reflexivity; rewrite app_assoc; apply IH; auto; lia.
Qed.

Lemma findField_message fs target :
  shaped fs = true -> 0 <= target < 2 ^ 28 ->
  findField (encode_message fs) target = Ok (first_length_delimited target fs).
Proof.
  intros Hwf Hg. unfold findField, findField_fuel.
  rewrite (findField_loop_message fs [] _ target Hwf Hg); [reflexivity|].
  pose proof (length_encode_message fs Hwf). simpl. lia.
Qed.

Lemma walk_loop_message fs : forall pre fuel,
  shaped fs = true -> (length fs < fuel)%nat ->
  walk_loop fuel (pre ++ encode_message fs) (buf_length pre)
  = Some (Ok (buf_length (pre ++ encode_message fs))).
Proof.
  induction fs as [|f fs IH]; intros pre fuel Hwf Hfuel.
  - unfold encode_message. simpl. rewrite app_nil_r.
    destruct fuel; simpl; rewrite offset_at_end; reflexivity.
  - apply shaped_cons in Hwf as [Hf Hfs].
    destruct fuel as [|fuel]; [simpl in Hfuel; lia|].
    rewrite encode_message_cons. cbn [walk_loop].
    rewrite offset_inside, skip_one_field by assumption.
    simpl in Hfuel. rewrite app_assoc. apply IH; auto; lia.
Qed.

Lemma first_length_delimited_unrelated target fs :
  forallb (unrelated target) fs = true -> first_length_delimited target fs = None.
Proof.
  induction fs as [|f fs IH]; simpl; [reflexivity|].
  rewrite andb_true_iff. intros [Hf Hfs]. unfold unrelated in Hf.
  destruct (value f); auto.
  apply negb_true_iff in Hf. rewrite Hf. auto.
Qed.

Lemma first_length_delimited_app target fs1 fs2 :
  first_length_delimited target (fs1 ++ fs2)
  = match first_length_delimited target fs1 with
    | Some payload => Some payload
    | None => first_length_delimited target fs2
    end.
Proof.
  induction fs1 as [|f fs1 IH]; simpl; [reflexivity|].
  destruct (value f); auto. destruct (fieldNumber f =? target); auto.
Qed.

(** One iteration of the loop of [parseOAuthTokenInfo] on a length-delimited
    field at a field boundary. *)
Lemma parseOAuthTokenInfo_step_leaf pre f len payload rest info :
  field_shape f = true -> value f = LengthDelimited len payload ->
  parseOAuthTokenInfo_step (pre ++ encode_field f ++ rest) (buf_length pre) info
  = Ok (buf_length (pre ++ encode_field f),
        if fieldNumber f =? 1 then
          {| accessToken := Some (buf_toString payload); refreshToken := refreshToken info |}
        else if fieldNumber f =? 3 then
          {| accessToken := accessToken info; refreshToken := Some (buf_toString payload) |}
        else info).
Proof.
  intros Hwf Hv. unfold parseOAuthTokenInfo_step.
  rewrite readVarint_tag by assumption. cbn [mbind Res_bind]. cbn zeta.
  rewrite tag_wireType by assumption.
  rewrite !tag_fieldNumber by (auto; lia).
  rewrite Hv. simpl wireType. change (2 =? 2) with true. cbn iota.
  destruct (read_length pre f len payload rest Hwf Hv) as (Hread & Hsub & Hend).
  rewrite Hread. cbn [mbind Res_bind]. cbn zeta. rewrite Hsub, Hend.
  destruct (fieldNumber f =? 1); [reflexivity|].
  destruct (fieldNumber f =? 3); reflexivity.
Qed.

Lemma parseOAuthTokenInfo_loop_end fuel data info :
  parseOAuthTokenInfo_loop fuel data (buf_length data) info = Some info.
Proof. destruct fuel; simpl; rewrite offset_at_end; reflexivity. Qed.

(** The fields an encoder writes have the shape the decoder relies on. *)
Lemma length_delimited_field_shape number payload :
  0 <= number < 2 ^ 29 ->
  field_shape (length_delimited_field number payload) = true
  /\ fieldNumber (length_delimited_field number payload) = number.
Proof.
  intros Hn. unfold field_shape, fieldNumber, tag, length_delimited_field. simpl.
  destruct (encode_varint_spec (number * 8 + 2) ltac:(lia)) as [Hv ->].
  destruct (encode_varint_spec (buf_length payload) (buf_length_nonneg _)) as [Hv' ->].
  rewrite Hv, Hv', Z.eqb_refl.
  replace ((number * 8 + 2) mod 8) with 2
    by (rewrite Z.add_comm, Z.mod_add by lia; reflexivity).
  replace ((number * 8 + 2) / 8) with number
    by (rewrite Z.add_comm, Z.div_add by lia; reflexivity).
  destruct (Z.ltb_spec (number * 8 + 2) (2 ^ 32)); [auto|lia].
Qed.

Lemma well_formed_shaped fs : well_formed fs = true -> shaped fs = true.
Proof.
  unfold well_formed, shaped. rewrite !forallb_forall. intros Hwf f Hf.
  specialize (Hwf f Hf). unfold wf_field in Hwf.
  apply andb_true_iff in Hwf as [Hshape _]. exact Hshape.
Qed.

End MessageFacts.

(** ** The TLV decoder *)

Section DecoderProperties.
Import Protobuf Wire.

(** C7. In a well-formed buffer, at the boundary of a field [f], the tag is
    read and [skipField] with the wire type of the tag (one of 0, 1, 2 and
    5) returns the offset just past the value of [f], which is the boundary
    of the next field; with any other wire type [skipField] throws the
    unknown-wire-type error; and the walk that repeats tag-read plus
    [skipField] from offset 0 stops, without running out of fuel, exactly at
    the length of the buffer. *)
Theorem skipField_one_field :
  (forall before f after,
      well_formed (before ++ f :: after) = true ->
      let data := encode_message (before ++ f :: after) in
      let offset := buf_length (encode_message before) in
      let afterTag := offset + buf_length (tagBytes f) in
      readVarint data offset = Ok (tag f, afterTag)
      /\ js_and (tag f) 7 = wireType (value f)
      /\ (wireType (value f) = 0 \/ wireType (value f) = 1
          \/ wireType (value f) = 2 \/ wireType (value f) = 5)
      /\ skipField data afterTag (js_and (tag f) 7)
         = Ok (afterTag + buf_length (encode_value (value f)))
      /\ afterTag + buf_length (encode_value (value f))
         = buf_length (encode_message (before ++ [f])))
  /\ (forall data offset wireType,
        wireType <> 0 -> wireType <> 1 -> wireType <> 2 -> wireType <> 5 ->
        skipField data offset wireType = Throw (UnknownWireType wireType))
  /\ (forall fs,
        well_formed fs = true ->
        walk (encode_message fs) = Some (Ok (buf_length (encode_message fs)))).
Proof.
  split; [|split].
  - intros before f after Hwf data offset afterTag.
    apply well_formed_shaped, shaped_app in Hwf as [_ [Hf _]%shaped_cons].
    subst data offset afterTag. rewrite !encode_message_app, encode_message_cons.
    rewrite <- buf_length_app.
    split; [apply readVarint_tag; assumption|].
    split; [apply tag_wireType; assumption|].
    split; [destruct (value f); simpl; auto|].
    rewrite tag_wireType by assumption.
    split.
    + rewrite skipField_field by assumption.
      unfold encode_field. rewrite !buf_length_app. f_equal. lia.
    + unfold encode_message at 3. simpl. rewrite app_nil_r.
      unfold encode_field. rewrite !buf_length_app. lia.
  - intros data offset wt H0 H1 H2 H5. unfold skipField.
    destruct (Z.eqb_spec wt 0); [contradiction|].
    destruct (Z.eqb_spec wt 1); [contradiction|].
    destruct (Z.eqb_spec wt 2); [contradiction|].
    destruct (Z.eqb_spec wt 5); [contradiction|]. reflexivity.
  - intros fs Hwf. apply well_formed_shaped in Hwf. unfold walk.
    rewrite (walk_loop_message fs [] _ Hwf); [reflexivity|].
    pose proof (length_encode_message fs Hwf). simpl. lia.
Qed.

(** C8, as the code has it.  For a target field number below 2^28, on a
    well-formed sequence of top-level fields, [findField] returns the
    payload of the first length-delimited field numbered [target], and
    nothing when there is none; inserting well-formed fields that are not
    length-delimited occurrences of [target] anywhere, before or after the
    target field, does not change the result. *)
Theorem findField_first_occurrence (target : Z) :
  0 <= target < 2 ^ 28 ->
  (forall before f length payload after,
      well_formed (before ++ f :: after) = true ->
      value f = LengthDelimited length payload ->
      fieldNumber f = target ->
      forallb (unrelated target) before = true ->
      findField (encode_message (before ++ f :: after)) target = Ok (Some payload))
  /\ (forall fs,
        well_formed fs = true ->
        forallb (unrelated target) fs = true ->
        findField (encode_message fs) target = Ok None)
  /\ (forall fs1 extra fs2,
        well_formed (fs1 ++ extra ++ fs2) = true ->
        forallb (unrelated target) extra = true ->
        findField (encode_message (fs1 ++ extra ++ fs2)) target
        = findField (encode_message (fs1 ++ fs2)) target).
Proof.
  intros Hg. split; [|split].
  - intros before f len payload after Hwf Hv Hn Hbefore.
    apply well_formed_shaped in Hwf.
    rewrite findField_message by assumption.
    rewrite first_length_delimited_app, first_length_delimited_unrelated by assumption.
    simpl. rewrite Hv, Hn, Z.eqb_refl. reflexivity.
  - intros fs Hwf Hfs. apply well_formed_shaped in Hwf.
    rewrite findField_message by assumption.
    rewrite first_length_delimited_unrelated by assumption. reflexivity.
  - intros fs1 extra fs2 Hwf Hextra. apply well_formed_shaped in Hwf.
    pose proof Hwf as [H1 [_ H2]%shaped_app]%shaped_app.
    rewrite (findField_message _ _ Hwf Hg).
    rewrite findField_message by (try apply shaped_app; auto).
    rewrite !first_length_delimited_app.
    rewrite (first_length_delimited_unrelated target extra) by assumption.
    reflexivity.
Qed.

(** C9. Round trip: the pair of an access token and a refresh token,
    encoded as an inner message (access token at field 1, refresh token at
    field 3) wrapped in a length-delimited outer field, is decoded by
    [findField] followed by [parseOAuthTokenInfo] to exactly that pair.
    The outer field is numbered 6 in the default store and 1 in the unified
    one. *)
Theorem token_info_round_trip (access refresh : string) (outerField : Z) :
  outerField = 6 \/ outerField = 1 ->
  exists inner,
    findField (encode_wrapped outerField (encode_token_info access refresh)) outerField
    = Ok (Some inner)
    /\ parseOAuthTokenInfo inner
       = {| accessToken := Some access; refreshToken := Some refresh |}.
Proof.
  intros Hshape.
  assert (Hk : 0 <= outerField < 2 ^ 28) by (destruct Hshape; subst; lia).
  exists (encode_token_info access refresh). split.
  - unfold encode_wrapped.
    destruct (length_delimited_field_shape outerField (encode_token_info access refresh))
      as [Hwf Hn]; [lia|].
    rewrite findField_message; [|unfold shaped; simpl; rewrite Hwf; reflexivity|lia].
    cbn [first_length_delimited]. rewrite Hn, Z.eqb_refl. reflexivity.
  - pose proof (parseOAuthTokenInfo_loop_result (encode_token_info access refresh)) as Hres.
    unfold encode_token_info in *.
    set (f1 := length_delimited_field 1 (utf8 access)) in *.
    set (f3 := length_delimited_field 3 (utf8 refresh)) in *.
    destruct (length_delimited_field_shape 1 (utf8 access)) as [Hwf1 Hn1]; [lia|].
    destruct (length_delimited_field_shape 3 (utf8 refresh)) as [Hwf3 Hn3]; [lia|].
    fold f1 in Hwf1, Hn1. fold f3 in Hwf3, Hn3.
    assert (Hdata : encode_message [f1; f3] = [] ++ encode_field f1 ++ encode_field f3 ++ []).
    { unfold encode_message. simpl. reflexivity. }
    destruct (length (encode_message [f1; f3])) as [|n] eqn:Hlen.
    { assert (Hwf : shaped [f1; f3] = true)
        by (unfold shaped; simpl; rewrite Hwf1, Hwf3; reflexivity).
      pose proof (length_encode_message [f1; f3] Hwf). simpl in *. lia. }
    rewrite Hdata in Hres.
    cbn [parseOAuthTokenInfo_loop] in Hres.
    change (0 <? buf_length ([] ++ encode_field f1 ++ encode_field f3 ++ []))
      with (buf_length [] <? buf_length ([] ++ encode_field f1 ++ encode_field f3 ++ []))
      in Hres.
    rewrite offset_inside in Hres by assumption.
    change 0 with (buf_length []) in Hres at 1.
    rewrite (parseOAuthTokenInfo_step_leaf [] f1 _ (utf8 access)) in Hres
      by (assumption || reflexivity).
    rewrite (app_assoc [] (encode_field f1)) in Hres.
    rewrite offset_inside in Hres by assumption.
    rewrite (parseOAuthTokenInfo_step_leaf ([] ++ encode_field f1) f3 _ (utf8 refresh))
      in Hres by (assumption || reflexivity).
    rewrite app_nil_r in Hres.
    rewrite parseOAuthTokenInfo_loop_end in Hres.
    replace (encode_message [f1; f3]) with (([] ++ encode_field f1) ++ encode_field f3)
      by (unfold encode_message; simpl; rewrite app_nil_r; reflexivity).
    assert (Hinj : forall x y : TokenInfo, Some x = Some y -> y = x) by congruence.
    apply Hinj in Hres. rewrite Hres, Hn1, Hn3. simpl.
    unfold buf_toString, utf8.
    rewrite !String.string_of_list_byte_of_string. reflexivity.
Qed.

End DecoderProperties.

(** ** The byte scan *)

Section ScanProperties.
Import ByteScan.

Lemma insert_by_index_perm x l : insert_by_index x l ≡ₚ x :: l.
Proof.
  induction l as [|y l IH]; simpl; [reflexivity|].
  destruct (index x - index y <? 0); [reflexivity|].
  rewrite IH. apply Permutation_swap.
Qed.

Lemma insert_by_index_sorted x l :
  StronglySorted by_index l -> StronglySorted by_index (insert_by_index x l).
Proof.
  induction l as [|y l IH]; intros Hs; simpl.
  - repeat constructor.
  - apply StronglySorted_cons in Hs as [Hy Hl].
    destruct (Z.ltb_spec (index x - index y) 0) as [Hlt|Hge].
    + apply StronglySorted_cons. split; [|apply StronglySorted_cons; auto].
      constructor; [unfold by_index; lia|].
      eapply Forall_impl; [exact Hy|]. unfold by_index. intros; lia.
    + apply StronglySorted_cons. split; [|auto].
      rewrite insert_by_index_perm. constructor; [unfold by_index; lia|assumption].
Qed.

Lemma fold_insert_spec l : forall acc,
  StronglySorted by_index acc ->
  StronglySorted by_index (fold_left (fun sorted x => insert_by_index x sorted) l acc)
  /\ fold_left (fun sorted x => insert_by_index x sorted) l acc ≡ₚ l ++ acc.
Proof.
  induction l as [|x l IH]; intros acc Hacc; simpl; [split; [assumption|reflexivity]|].
  destruct (IH (insert_by_index x acc) (insert_by_index_sorted x acc Hacc)) as [Hs Hp].
  split; [assumption|].
  rewrite Hp, insert_by_index_perm. symmetry. apply Permutation_middle.
Qed.


Lemma sort_by_index_perm l : sort_by_index l ≡ₚ l.
Proof.
  unfold sort_by_index.
  destruct (fold_insert_spec l []) as [_ Hp]; [constructor|].
  rewrite Hp, app_nil_r. reflexivity.
Qed.



End ScanProperties.

(** ** The extraction strategies *)

Section ExtractionProperties.
Context `{Platform}.
Import TokenService.


(** C6. None of the three extraction strategies throws, whatever the file,
    the database and the stored values are: each returns a result or
    nothing.  An error of the decoder inside the structured decode (a
    truncated varint, an unknown wire type) ends that strategy with no
    result; both errors do occur in [findField]. *)
Theorem strategies_never_throw :
  (forall host, exists r, getAuthStatus host = Ok r)
  /\ (forall host, exists r, extractTokensWithProtobuf host = Ok r)
  /\ (forall host, exists r, extractTokensFromDb host = Ok r)
  /\ (forall host stateValue e,
        readStateValue host = Ok (Some stateValue) ->
        Protobuf.findField (from_base64 (Str.trim stateValue)) 6 = Throw e ->
        extractTokensWithProtobuf host = Ok None)
  /\ Protobuf.findField [x32; x80] 6 = Throw IncompleteVarint
  /\ Protobuf.findField [x0b] 6 = Throw (UnknownWireType 3).
Proof.
  repeat split.
  - intros host. unfold getAuthStatus.
    destruct (existsSync host); simpl; [|eauto].
    unfold try_catch. destruct (_ ≫= _); eauto.
  - intros host. unfold extractTokensWithProtobuf, try_catch.
    destruct (_ ≫= _); eauto.
  - intros host. unfold extractTokensFromDb.
    destruct (existsSync host); simpl; [|eauto].
    unfold try_catch. destruct (_ ≫= _); eauto.
  - intros host stateValue e Hs Hf. unfold extractTokensWithProtobuf.
    rewrite Hs. cbn [mbind Res_bind].
    destruct (Str.not (Some stateValue)); [reflexivity|].
    cbn [default from_option id]. rewrite Hf. reflexivity.
Qed.

End ExtractionProperties.

(** ** Running a computation *)

Section MonadFacts.
Context {W : Type}.

Lemma bind_run {A B} (m : StateRes W A) (f : A -> StateRes W B) (w : W) :
  (m ≫= f) w
  = match m w with
    | (Ok a, w') => f a w'
    | (Throw e, w') => (Throw e, w')
    end.
Proof. reflexivity. Qed.

Lemma ret_run {A} (a : A) (w : W) : (mret a : StateRes W A) w = (Ok a, w).
Proof. reflexivity. Qed.

Lemma try_catchM_run {A} (body : StateRes W A) handler (w : W) :
  try_catchM body handler w
  = match body w with
    | (Ok a, w') => (Ok a, w')
    | (Throw e, w') => handler e w'
    end.
Proof. reflexivity. Qed.

Lemma lift_run {A} (r : Res A) (w : W) : (lift r : StateRes W A) w = (r, w).
Proof. reflexivity. Qed.

End MonadFacts.

(** ** The credential lifecycle *)

Section LifecycleProperties.
Context `{Platform}.
Import StoredCredential TokenService.

Lemma secrets_get_run key (w : World) : secrets_get key w = (Ok (secrets w !! key), w).
Proof. reflexivity. Qed.

Lemma emit_run e (w : World) :
  emit e w = (Ok tt, {| secrets := secrets w; trace := trace w ++ [e] |}).
Proof. reflexivity. Qed.

Lemma secrets_store_run key value (w : World) :
  secrets_store key value w
  = (Ok tt, {| secrets := <[key := value]> (secrets w); trace := trace w |}).
Proof. reflexivity. Qed.

Ltac run :=
  repeat (rewrite ?bind_run, ?ret_run, ?try_catchM_run, ?secrets_get_run, ?lift_run,
            ?emit_run, ?secrets_store_run;
          cbn beta iota; cbn [secrets trace]).

Lemma not_Some s : Str.not (Some s) = Str.falsy s.
Proof. reflexivity. Qed.

Lemma falsy_length stored : 10 < Str.length stored -> Str.falsy stored = false.
Proof. destruct stored; [unfold Str.length; simpl; lia|reflexivity]. Qed.

(** C1. With a credential record stored for the account and
    [now < expiresAt - 5 minutes], [getToken] returns the access token of
    the record and leaves the world as it was: the secret storage is not
    written and nothing is added to the trace, so neither the refresh
    exchange nor recovery is invoked.  A second call in the same window, on
    the world the first one left, returns the same token. *)
Theorem getToken_cached host email stored credential w :
  secrets w !! (TOKEN_PREFIX +:+ email) = Some stored ->
  Str.falsy stored = false ->
  JSON_parse_credential stored = Ok credential ->
  now host < expiresAt credential - 5 * 60 * 1000 ->
  getToken host email w = (Ok (Some (accessToken credential)), w)
  /\ forall host',
       now host' < expiresAt credential - 5 * 60 * 1000 ->
       getToken host' email (snd (getToken host email w))
       = (Ok (Some (accessToken credential)), w).
Proof.
  intros Hs Hf Hp Hn.
  assert (Hcall : forall h, now h < expiresAt credential - 5 * 60 * 1000 ->
                            getToken h email w = (Ok (Some (accessToken credential)), w)).
  { intros h Hh. unfold getToken. run. repeat (run; rewrite ?Hs, ?not_Some, ?Hf; cbn [default from_option id]).
    rewrite Hp.
    destruct (Z.gtb_spec (now h) (expiresAt credential - 5 * 60 * 1000)); [lia|].
    reflexivity. }
  split; [auto|].
  intros host' Hn'. rewrite (Hcall host Hn). simpl. auto.
Qed.

(** C10. A stored value longer than 10 characters that [JSON.parse] rejects
    is returned by [getToken] as the access token, while [hasToken] answers
    false for it: the two operations disagree on whether the account has a
    usable token. *)
Theorem legacy_token_disagreement host email stored e w :
  secrets w !! (TOKEN_PREFIX +:+ email) = Some stored ->
  10 < Str.length stored ->
  JSON_parse_credential stored = Throw e ->
  getToken host email w = (Ok (Some stored), w)
  /\ hasToken host email w = (Ok false, w).
Proof.
  intros Hs Hl Hp. pose proof (falsy_length stored Hl) as Hf. split.
  - unfold getToken. run. repeat (run; rewrite ?Hs, ?not_Some, ?Hf; cbn [default from_option id]).
    rewrite Hp.
    destruct (Z.ltb_spec 10 (Str.length stored)); [reflexivity|lia].
  - unfold hasToken. run. repeat (run; rewrite ?Hs, ?not_Some, ?Hf; cbn [default from_option id]).
    destruct (Z.leb_spec (Str.length stored) 10); [lia|]. simpl. run.
    rewrite Hp. reflexivity.
Qed.

Lemma tryAutoRecovery_run host email w :
  tryAutoRecovery host email w
  = match extractTokensFromDb host with
    | Ok (Some tokens) =>
        (Ok true,
         {| secrets :=
              <[TOKEN_PREFIX +:+ email :=
                  JSON_stringify_credential
                    {| accessToken := ByteScan.accessToken tokens;
                       refreshToken := ByteScan.refreshToken tokens;
                       expiresAt := now host + 55 * 60 * 1000;
                       email := email;
                       createdAt := now host |}]> (secrets w);
            trace := (trace w ++ [RecoveryCall email])
                     ++ [ShowInformation (TokenRecovered email)] |})
    | _ => (Ok false, {| secrets := secrets w; trace := trace w ++ [RecoveryCall email] |})
    end.
Proof.
  unfold tryAutoRecovery. run.
  destruct (extractTokensFromDb host) as [[tokens|]|e]; run; reflexivity.
Qed.

Lemma refreshAccessToken_run host credential w :
  refreshAccessToken host credential w
  = if Str.not (refreshToken credential) then
      (Ok None, {| secrets := secrets w; trace := trace w ++ [RefreshCall credential] |})
    else
      (Ok match token_endpoint host (default "" (refreshToken credential)) with
          | Some (access_token, expires_in) =>
              Some (access_token, now host + expires_in * 1000)
          | None => None
          end,
       {| secrets := secrets w;
          trace := (trace w ++ [RefreshCall credential])
                   ++ [TokenRequest (default "" (refreshToken credential))] |}).
Proof.
  unfold refreshAccessToken. run.
  destruct (Str.not (refreshToken credential)); run; [reflexivity|].
  destruct (token_endpoint host _) as [[a e]|]; reflexivity.
Qed.

(** C2, as the code has it.  With a credential record stored for the
    account and [now > expiresAt - 5 minutes], [getToken] first enters the
    refresh; when the refresh fails (no refresh token, or the endpoint
    declines) it enters recovery next; and when recovery fails too (the
    byte scan finds no token) it returns the access token of the stored
    record, not null, and leaves the secret storage as it was. *)
Theorem getToken_expired host email stored credential w :
  secrets w !! (TOKEN_PREFIX +:+ email) = Some stored ->
  Str.falsy stored = false ->
  JSON_parse_credential stored = Ok credential ->
  now host > expiresAt credential - 5 * 60 * 1000 ->
  let requests :=
    if Str.not (refreshToken credential) then []
    else [TokenRequest (default "" (refreshToken credential))] in
  let refresh_fails :=
    Str.not (refreshToken credential) = true
    \/ token_endpoint host (default "" (refreshToken credential)) = None in
  (exists rest,
      trace (snd (getToken host email w)) = trace w ++ RefreshCall credential :: rest)
  /\ (refresh_fails ->
      exists rest,
        trace (snd (getToken host email w))
        = trace w ++ RefreshCall credential :: requests ++ RecoveryCall email :: rest)
  /\ (refresh_fails ->
      extractTokensFromDb host = Ok None ->
      getToken host email w
      = (Ok (Some (accessToken credential)),
         {| secrets := secrets w;
            trace := trace w ++ RefreshCall credential :: requests ++ [RecoveryCall email] |})).
Proof.
  intros Hs Hf Hp Hn requests refresh_fails.
  assert (Hstart : getToken host email w
    = match refreshAccessToken host credential w with
      | (Ok (Some (newAccessToken, newExpiresAt)), w1) =>
          (Ok (Some newAccessToken),
           {| secrets :=
                <[TOKEN_PREFIX +:+ email :=
                    JSON_stringify_credential
                      {| accessToken := newAccessToken;
                         refreshToken := refreshToken credential;
                         expiresAt := newExpiresAt;
                         email := StoredCredential.email credential;
                         createdAt := createdAt credential |}]> (secrets w1);
              trace := trace w1 |})
      | (Ok None, w1) =>
          match tryAutoRecovery host email w1 with
          | (Ok true, w2) =>
              if Str.not (secrets w2 !! (TOKEN_PREFIX +:+ email))
              then (Ok (Some (accessToken credential)), w2)
              else
                match JSON_parse_credential
                        (default "" (secrets w2 !! (TOKEN_PREFIX +:+ email))) with
                | Ok newCredential => (Ok (Some (accessToken newCredential)), w2)
                | Throw _ =>
                    (if 10 <? Str.length stored then Ok (Some stored) else Ok None, w2)
                end
          | (Ok false, w2) => (Ok (Some (accessToken credential)), w2)
          | (Throw _, w2) =>
              (if 10 <? Str.length stored then Ok (Some stored) else Ok None, w2)
          end
      | (Throw _, w1) =>
          (if 10 <? Str.length stored then Ok (Some stored) else Ok None, w1)
      end).
  { unfold getToken.
    repeat (run; rewrite ?Hs, ?not_Some, ?Hf, ?Hp; cbn [default from_option id]).
    destruct (Z.gtb_spec (now host) (expiresAt credential - 5 * 60 * 1000)); [|lia].
    run.
    destruct (refreshAccessToken host credential w) as [[[[a x]|]|e] w1]; run;
      [reflexivity| |destruct (10 <? Str.length stored); reflexivity].
    destruct (tryAutoRecovery host email w1) as [[[|]|e] w2]; run;
      [|reflexivity|destruct (10 <? Str.length stored); reflexivity].
    destruct (Str.not (secrets w2 !! (TOKEN_PREFIX +:+ email))); run; [reflexivity|].
    destruct (JSON_parse_credential
                (default "" (secrets w2 !! (TOKEN_PREFIX +:+ email)))); run;
      [reflexivity|destruct (10 <? Str.length stored); reflexivity]. }
  rewrite Hstart, refreshAccessToken_run. clear Hstart.
  assert (Htrace : forall w1 rest1,
    trace w1 = trace w ++ RefreshCall credential :: rest1 ->
    exists rest,
      trace (snd
        match tryAutoRecovery host email w1 with
        | (Ok true, w2) =>
            if Str.not (secrets w2 !! (TOKEN_PREFIX +:+ email))
            then (Ok (Some (accessToken credential)), w2)
            else
              match JSON_parse_credential
                      (default "" (secrets w2 !! (TOKEN_PREFIX +:+ email))) with
              | Ok newCredential => (Ok (Some (accessToken newCredential)), w2)
              | Throw _ =>
                  (if 10 <? Str.length stored then Ok (Some stored) else Ok None, w2)
              end
        | (Ok false, w2) => (Ok (Some (accessToken credential)), w2)
        | (Throw _, w2) =>
            (if 10 <? Str.length stored then Ok (Some stored) else Ok None, w2)
        end)
      = trace w ++ RefreshCall credential :: rest1 ++ RecoveryCall email :: rest).
  { intros w1 rest1 Hw1. rewrite tryAutoRecovery_run.
    destruct (extractTokensFromDb host) as [[tokens|]|e]; cbn beta iota;
      cbn [secrets trace];
      repeat match goal with
             | |- context [match ?x with _ => _ end] => destruct x
             end;
      cbn [snd secrets trace]; rewrite Hw1, <- ?app_assoc; simpl;
      rewrite <- ?app_assoc; simpl; eauto. }
  split; [|split].
  - destruct (Str.not (refreshToken credential)).
    + destruct (Htrace {| secrets := secrets w; trace := trace w ++ [RefreshCall credential] |} [])
        as [rest Hrest]; [reflexivity|].
      rewrite Hrest. eauto.
    + destruct (token_endpoint host _) as [[a x]|].
      * cbn [snd secrets trace]. rewrite <- app_assoc. simpl. eauto.
      * destruct (Htrace {| secrets := secrets w;
                            trace := (trace w ++ [RefreshCall credential])
                                     ++ [TokenRequest (default "" (refreshToken credential))] |}
                         [TokenRequest (default "" (refreshToken credential))])
          as [rest Hrest]; [cbn [trace]; rewrite <- app_assoc; reflexivity|].
        rewrite Hrest. eauto.
  - intros Hfail. unfold requests.
    destruct (Str.not (refreshToken credential)) eqn:Hrt.
    + apply (Htrace {| secrets := secrets w; trace := trace w ++ [RefreshCall credential] |} []).
      reflexivity.
    + destruct Hfail as [Hfail|Hfail]; [discriminate|]. rewrite Hfail.
      apply (Htrace {| secrets := secrets w;
                       trace := (trace w ++ [RefreshCall credential])
                                ++ [TokenRequest (default "" (refreshToken credential))] |}
                    [TokenRequest (default "" (refreshToken credential))]).
      cbn [trace]. rewrite <- app_assoc. reflexivity.
  - intros Hfail Hscan. unfold requests.
    destruct (Str.not (refreshToken credential)) eqn:Hrt.
    + rewrite tryAutoRecovery_run, Hscan. cbn [secrets trace].
      rewrite <- ?app_assoc. reflexivity.
    + destruct Hfail as [Hfail|Hfail]; [discriminate|]. rewrite Hfail.
      rewrite tryAutoRecovery_run, Hscan. cbn [secrets trace].
      rewrite <- ?app_assoc. reflexivity.
Qed.

Lemma try_catch_total {A} (body : Res (option A)) :
  exists r, try_catch body (fun _ => Ok None) = Ok r.
Proof. destruct body; simpl; eauto. Qed.

Lemma toLowerCase_falsy s : Str.falsy (Str.toLowerCase s) = Str.falsy s.
Proof. destruct s; reflexivity. Qed.

(** C4, as the code has it.  [captureCurrentToken] stores the new record
    under the lowercased e-mail of the identity the host application has
    active, whatever the argument is; the record carries that e-mail and
    the access token of the active identity.  When the lowercased argument
    differs from that e-mail a mismatch warning is shown, and when it is
    equal none is; in both cases the capture completes and returns true.
    An entry under another key, the one of the argument included, is left
    as it was. *)
Theorem captureCurrentToken_active_identity
    host email authStatus activeEmail apiKey w :
  getAuthStatus host = Ok (Some authStatus) ->
  AuthStatus.email authStatus = Some activeEmail ->
  AuthStatus.apiKey authStatus = Some apiKey ->
  Str.falsy activeEmail = false ->
  Str.falsy apiKey = false ->
  let currentEmail := Str.toLowerCase activeEmail in
  let warnings :=
    if String.eqb (Str.toLowerCase email) currentEmail then []
    else [ShowWarning (EmailMismatch currentEmail email)] in
  exists credential,
    captureCurrentToken host email w
    = (Ok true,
       {| secrets :=
            <[TOKEN_PREFIX +:+ currentEmail := JSON_stringify_credential credential]>
              (secrets w);
          trace := trace w ++ warnings
                   ++ [ShowInformation
                         (TokenCaptured currentEmail
                            (negb (Str.not (refreshToken credential))))] |})
    /\ StoredCredential.email credential = currentEmail
    /\ accessToken credential = apiKey
    /\ (Str.toLowerCase email <> currentEmail ->
        warnings = [ShowWarning (EmailMismatch currentEmail email)])
    /\ (Str.toLowerCase email = currentEmail -> warnings = [])
    /\ (forall key, key <> TOKEN_PREFIX +:+ currentEmail ->
                    secrets (snd (captureCurrentToken host email w)) !! key
                    = secrets w !! key).
Proof.
  intros Hauth He Hk Hfe Hfk currentEmail warnings.
  destruct (try_catch_total
              (r ← getRefreshToken host; if Str.not r then Ok None else Ok r))
    as [refresh Hrefresh].
  exists {| accessToken := apiKey;
            refreshToken := refresh;
            expiresAt := now host + 55 * 60 * 1000;
            email := currentEmail;
            createdAt := now host |}.
  assert (Hrun : captureCurrentToken host email w
    = (Ok true,
       {| secrets :=
            <[TOKEN_PREFIX +:+ currentEmail :=
                JSON_stringify_credential
                  {| accessToken := apiKey;
                     refreshToken := refresh;
                     expiresAt := now host + 55 * 60 * 1000;
                     email := currentEmail;
                     createdAt := now host |}]> (secrets w);
          trace := trace w ++ warnings
                   ++ [ShowInformation (TokenCaptured currentEmail (negb (Str.not refresh)))] |})).
  { unfold captureCurrentToken. run. rewrite Hauth. run. rewrite He, Hk.
    cbn [fmap option_fmap option_map].
    rewrite !not_Some, toLowerCase_falsy, Hfe, Hfk. cbn [orb]. run.
    cbn [default from_option id].
    rewrite Hrefresh. run. fold currentEmail. unfold warnings.
    destruct (String.eqb (Str.toLowerCase email) currentEmail); cbn [negb]; run;
      rewrite <- ?app_assoc; reflexivity. }
  rewrite Hrun. cbn [snd secrets].
  split; [reflexivity|]. split; [reflexivity|]. split; [reflexivity|].
  unfold warnings. split; [|split].
  - intros Hne. destruct (String.eqb_spec (Str.toLowerCase email) currentEmail);
      [contradiction|reflexivity].
  - intros Heq. destruct (String.eqb_spec (Str.toLowerCase email) currentEmail);
      [reflexivity|contradiction].
  - intros key Hkey. apply lookup_insert_ne. congruence.
Qed.

End LifecycleProperties.

(** ** Account switching *)

Section SwitcherProperties.
Context `{Platform}.
Import AccountSnapshot AccountSwitcher.

Lemma chars_of_chars l : Str.chars (Str.of_chars l) = l.
Proof. apply String.list_ascii_of_string_of_list_ascii. Qed.

Lemma of_chars_chars s : Str.of_chars (Str.chars s) = s.
Proof. apply String.string_of_list_ascii_of_string. Qed.

Lemma sql_literal_chars_escape (l : list ascii) :
  sql_literal_chars
    (flat_map (fun x => if Ascii.eqb x Str.squote then Str.chars "''" else [x]) l)
  = Some l.
Proof.
  induction l as [|c l IH]; [reflexivity|].
  cbn [flat_map].
  set (tail := flat_map _ l) in *.
  destruct (Ascii.eqb_spec c Str.squote) as [->|Hne].
  - change (Str.chars "''") with [Str.squote; Str.squote].
    cbn [app sql_literal_chars]. rewrite Ascii.eqb_refl, IH. reflexivity.
  - cbn [app sql_literal_chars].
    destruct (Ascii.eqb_spec c Str.squote); [contradiction|].
    rewrite IH. reflexivity.
Qed.

(** The literal the command carries denotes the text it was made from. *)
Lemma sql_literal_escape (authStatus : string) :
  sql_literal_value (escape_quotes authStatus) = Some authStatus.
Proof.
  unfold sql_literal_value, escape_quotes, Str.replace_char.
  rewrite chars_of_chars, sql_literal_chars_escape.
  simpl. rewrite of_chars_chars. reflexivity.
Qed.

(** [loadSnapshots] does not throw and touches the cache only. *)
Lemma loadSnapshots_run (w : World) :
  exists snapshots,
    loadSnapshots w
    = (Ok snapshots,
       {| secrets := secrets w; snapshotsCache := Some snapshots;
          itemTable := itemTable w; trace := trace w |}).
Proof.
  destruct w as [sec cache table tr]. unfold loadSnapshots.
  rewrite bind_run. cbn [get_cache snapshotsCache].
  destruct cache as [snapshots|].
  - exists snapshots. reflexivity.
  - rewrite bind_run, try_catchM_run, bind_run. cbn [secrets_get secrets].
    destruct (Str.not (sec !! SNAPSHOTS_KEY)).
    + exists ∅. reflexivity.
    + rewrite bind_run, lift_run.
      destruct (JSON_parse_snapshots (default "" (sec !! SNAPSHOTS_KEY))) as [snapshots|e].
      * exists snapshots. reflexivity.
      * exists ∅. reflexivity.
Qed.

(** When the snapshots hold none for the e-mail, [switchToAccount]
    returns false, runs no command and leaves the table of the store, the
    identity key included, as it was.  When they hold one, it runs exactly
    one command, the UPDATE of the identity key whose single-quoted literal
    is the blob of the snapshot with every single quote doubled, a literal
    that denotes the blob itself; the table afterwards is what that one
    command made of it, and the call returns whether the command
    succeeded. *)
Lemma switchToAccount_command host dbPath email snapshots w w1 :
  loadSnapshots w = (Ok snapshots, w1) ->
  (snapshots !! email = None ->
     switchToAccount host dbPath email w
     = (Ok false,
        {| secrets := secrets w; snapshotsCache := Some snapshots;
           itemTable := itemTable w;
           trace := trace w ++ [ShowError (NoSnapshot email)] |}))
  /\ (forall snapshot,
        snapshots !! email = Some snapshot ->
        let cmd := update_command dbPath (authStatus snapshot) in
        switchToAccount host dbPath email w
        = match exec host cmd (itemTable w) with
          | Some table' =>
              (Ok true,
               {| secrets := secrets w; snapshotsCache := Some snapshots;
                  itemTable := table';
                  trace := trace w
                           ++ Exec cmd :: ShowInformation (Switched email)
                              :: (if reload host then [ReloadWindow] else []) |})
          | None =>
              (Ok false,
               {| secrets := secrets w; snapshotsCache := Some snapshots;
                  itemTable := itemTable w;
                  trace := trace w ++ [Exec cmd] |})
          end
        /\ cmd = update_prefix dbPath
                 +:+ Str.replace_char Str.squote "''" (authStatus snapshot)
                 +:+ update_suffix
        /\ sql_literal_value (Str.replace_char Str.squote "''" (authStatus snapshot))
           = Some (authStatus snapshot)).
Proof.
  intros Hload.
  destruct (loadSnapshots_run w) as [snapshots' Hrun].
  rewrite Hrun in Hload. injection Hload as -> <-.
  split.
  - intros Hnone. unfold switchToAccount.
    rewrite try_catchM_run, bind_run, Hrun, Hnone. reflexivity.
  - intros snapshot Hsome cmd. split; [|split].
    + unfold switchToAccount.
      rewrite try_catchM_run, bind_run, Hrun, Hsome.
      unfold updateAuthStatus, run_exec. fold cmd.
      rewrite !bind_run. unfold apply_exec.
      cbn [emit itemTable secrets snapshotsCache trace].
      destruct (exec host cmd (itemTable w)) as [table'|]; [|reflexivity].
      rewrite !bind_run. cbn [emit itemTable secrets snapshotsCache trace].
      destruct (reload host); rewrite ?bind_run, ?ret_run;
        cbn [emit itemTable secrets snapshotsCache trace];
        rewrite ?ret_run, <- ?app_assoc; reflexivity.
    + reflexivity.
    + apply sql_literal_escape.
Qed.

(** *** What the shell makes of the command *)

Lemma strip_prefix_app p l r : Regex.strip_prefix p l = Some r -> l = p ++ r.
Proof.
  revert l. induction p as [|a p IH]; intros l Hstrip.
  - cbn in Hstrip. injection Hstrip as <-. reflexivity.
  - destruct l as [|b l]; cbn in Hstrip; [discriminate|].
    destruct (Ascii.eqb_spec a b) as [->|]; [|discriminate].
    cbn. f_equal. apply IH, Hstrip.
Qed.

Lemma strip_suffix_app suffix l r : Shell.strip_suffix suffix l = Some r -> l = r ++ suffix.
Proof.
  unfold Shell.strip_suffix. intros Hstrip.
  destruct (Regex.strip_prefix (rev suffix) (rev l)) as [r'|] eqn:Hprefix;
    [|discriminate].
  cbn in Hstrip. injection Hstrip as <-.
  apply strip_prefix_app in Hprefix.
  rewrite <- (rev_involutive l), Hprefix, rev_app_distr, rev_involutive.
  reflexivity.
Qed.

Lemma sql_literal_chars_unquoted body :
  forall value, sql_literal_chars body = Some value -> Shell.unquoted body -> Shell.unquoted value.
Proof.
  induction body as [body IH] using (induction_ltof1 _ (@List.length ascii)).
  unfold ltof in IH. intros value Hvalue Hbody.
  destruct body as [|c rest]; cbn in Hvalue.
  - injection Hvalue as <-. constructor.
  - apply Forall_cons in Hbody as [Hc Hrest].
    destruct (Ascii.eqb c Str.squote).
    + destruct rest as [|c' rest']; [discriminate|].
      apply Forall_cons in Hrest as [_ Hrest'].
      destruct (Ascii.eqb c' Str.squote); [|discriminate].
      destruct (sql_literal_chars rest') as [v|] eqn:Hv; [|discriminate].
      cbn in Hvalue. injection Hvalue as <-.
      constructor; [vm_compute; discriminate|].
      apply (IH rest'); [cbn; lia|reflexivity || exact Hv|exact Hrest'].
    + destruct (sql_literal_chars rest) as [v|] eqn:Hv; [|discriminate].
      cbn in Hvalue. injection Hvalue as <-.
      constructor; [exact Hc|].
      apply (IH rest); [cbn; lia|exact Hv|exact Hrest].
Qed.

(** No word of a command line holds a double quote. *)
Lemma words_from_unquoted l :
  forall quoted started current ws,
    Shell.words_from l quoted started current = Some ws ->
    Shell.unquoted current -> Forall Shell.unquoted ws.
Proof.
  induction l as [|c l IH]; intros quoted started current ws Hws Hcurrent;
    cbn [Shell.words_from] in Hws.
  - destruct quoted; [discriminate|]. injection Hws as <-.
    unfold Shell.close_word. destruct started; repeat constructor.
    apply Forall_rev, Hcurrent.
  - destruct (Ascii.eqb_spec c Str.dquote) as [->|Hc].
    { destruct (quoted && Shell.head_is Str.dquote l); [discriminate|].
      eapply IH; eauto. }
    destruct (Shell.special c); [discriminate|].
    assert (Hnext : Shell.unquoted (c :: current)) by (constructor; assumption).
    destruct quoted; [eapply IH; eauto|].
    destruct (Str.is_space c).
    + destruct (Shell.words_from l false false []) as [ws'|] eqn:Hws'; [|discriminate].
      cbn in Hws. injection Hws as <-.
      assert (Htail : Forall Shell.unquoted ws') by (eapply IH; [exact Hws'|constructor]).
      unfold Shell.close_word. destruct started; [|exact Htail].
      constructor; [apply Forall_rev, Hcurrent|exact Htail].
    + destruct (Shell.inert c); [|discriminate]. eapply IH; eauto.
Qed.

(** The value a command leaves under the identity key holds no double
    quote. *)
Lemma exec_unquoted cmd table table' value :
  Shell.exec cmd table = Some table' ->
  table' !! "antigravityAuthStatus" = Some value ->
  Shell.unquoted (Str.chars value).
Proof.
  unfold Shell.exec, Shell.words. intros Hexec Hvalue.
  destruct (Shell.words_from (Str.chars cmd) false false []) as [ws|] eqn:Hws;
    [|discriminate].
  apply words_from_unquoted in Hws; [|constructor].
  cbn [mbind option_bind] in Hexec. destruct ws as [|program args]; [discriminate|].
  apply Forall_cons in Hws as [_ Hargs].
  destruct (String.eqb _ _); [|discriminate].
  unfold Shell.sqlite3 in Hexec.
  destruct args as [|db [|sql [|]]]; try discriminate.
  apply Forall_cons in Hargs as [_ Hargs].
  apply Forall_cons in Hargs as [Hsql _].
  destruct (Regex.strip_prefix _ sql) as [body|] eqn:Hbody; [|discriminate].
  cbn [mbind option_bind] in Hexec.
  destruct (Shell.strip_suffix _ body) as [literal|] eqn:Hliteral; [|discriminate].
  cbn [mbind option_bind] in Hexec.
  destruct (sql_literal_chars literal) as [v|] eqn:Hv; [|discriminate].
  cbn [mbind option_bind] in Hexec. injection Hexec as <-.
  rewrite lookup_alter_eq in Hvalue.
  destruct (table !! "antigravityAuthStatus"); [|discriminate].
  cbn [fmap option_fmap option_map] in Hvalue. injection Hvalue as <-.
  rewrite chars_of_chars.
  apply strip_prefix_app in Hbody. apply strip_suffix_app in Hliteral.
  subst sql body. unfold Shell.unquoted in Hsql.
  apply Forall_app in Hsql as [_ Hsql]. apply Forall_app in Hsql as [Hsql _].
  eapply sql_literal_chars_unquoted; eauto.
Qed.

(** C3. The command of [switchToAccount] puts the blob between the double
    quotes of a word of the command line and doubles its single quotes only.
    With [exec] read as the shell reads it, a blob that holds a double quote,
    as every JSON text of an identity record does, is never what the
    identity key holds after a switch that returned true: the shell has
    taken its double quotes away before the statement reaches the store. *)
Theorem switchToAccount_double_quotes_lost reload dbPath email snapshots snapshot w w1 :
  loadSnapshots w = (Ok snapshots, w1) ->
  snapshots !! email = Some snapshot ->
  Str.dquote ∈ Str.chars (authStatus snapshot) ->
  fst (switchToAccount (Shell.host reload) dbPath email w) = Ok true ->
  itemTable (snd (switchToAccount (Shell.host reload) dbPath email w))
  !! "antigravityAuthStatus"
  <> Some (authStatus snapshot).
Proof.
  intros Hload Hsome Hquote Htrue Hvalue.
  destruct (switchToAccount_command (Shell.host reload) dbPath email _ _ _ Hload)
    as [_ Hrun].
  destruct (Hrun snapshot Hsome) as [Hswitch _].
  cbn zeta in Hswitch. rewrite Hswitch in Htrue, Hvalue.
  cbn [exec Shell.host] in Htrue, Hvalue.
  destruct (Shell.exec _ (itemTable w)) as [table'|] eqn:Hexec;
    [|discriminate].
  cbn [snd itemTable] in Hvalue.
  pose proof (exec_unquoted _ _ _ _ Hexec Hvalue) as Hunquoted.
  unfold Shell.unquoted in Hunquoted. rewrite Forall_forall in Hunquoted.
  exact (Hunquoted _ Hquote eq_refl).
Qed.

End SwitcherProperties.

(** ** The properties on concrete inputs *)

Section Instances.
Import Examples.

Lemma getToken_cached_witness :
  let stored := @JSON_stringify_credential no_database boundary_credential in
  TokenService.secrets boundary_world !! "rerevolve.token.a@x.com" = Some stored
  /\ Str.falsy stored = false
  /\ @JSON_parse_credential no_database stored = Ok boundary_credential
  /\ TokenService.now fresh_host < 1000000 - 5 * 60 * 1000
  /\ @TokenService.getToken no_database fresh_host "a@x.com" boundary_world
     = (Ok (Some "ya29.cached"), boundary_world).
Proof.
  intros stored.
  assert (H1 : TokenService.secrets boundary_world
               !! (TokenService.TOKEN_PREFIX +:+ "a@x.com") = Some stored)
    by (vm_compute; reflexivity).
  assert (H2 : Str.falsy stored = false) by (vm_compute; reflexivity).
  assert (H3 : @JSON_parse_credential no_database stored = Ok boundary_credential)
    by (vm_compute; reflexivity).
  assert (H4 : TokenService.now fresh_host
               < StoredCredential.expiresAt boundary_credential - 5 * 60 * 1000)
    by (vm_compute; reflexivity).
  split; [exact H1|]. split; [exact H2|]. split; [exact H3|]. split; [exact H4|].
  exact (proj1 (@getToken_cached no_database fresh_host "a@x.com" stored
                  boundary_credential boundary_world H1 H2 H3 H4)).
Defined.

(** Exactly five minutes before expiry [getToken] returns the cached token
    and does not enter the refresh, although the record has a refresh token
    the endpoint would honour: the world, its trace included, is as before. *)
Lemma getToken_at_skew_boundary :
  let stored := @JSON_stringify_credential no_database boundary_credential in
  TokenService.secrets boundary_world !! "rerevolve.token.a@x.com" = Some stored
  /\ @JSON_parse_credential no_database stored = Ok boundary_credential
  /\ StoredCredential.expiresAt boundary_credential - TokenService.now boundary_host
     = 5 * 60 * 1000
  /\ ~ TokenService.now boundary_host
        < StoredCredential.expiresAt boundary_credential - 5 * 60 * 1000
  /\ @TokenService.getToken no_database boundary_host "a@x.com" boundary_world
     = (Ok (Some "ya29.cached"), boundary_world)
  /\ TokenService.trace
       (snd (@TokenService.getToken no_database boundary_host "a@x.com" boundary_world))
     = [].
Proof.
  intros stored. repeat split; try (vm_compute; reflexivity).
  vm_compute. discriminate.
Qed.

Lemma getToken_expired_witness :
  let stored := @JSON_stringify_credential no_database boundary_credential in
  TokenService.secrets boundary_world !! "rerevolve.token.a@x.com" = Some stored
  /\ Str.falsy stored = false
  /\ @JSON_parse_credential no_database stored = Ok boundary_credential
  /\ TokenService.now expired_host > 1000000 - 5 * 60 * 1000
  /\ TokenService.token_endpoint expired_host "1//refresh" = None
  /\ @TokenService.extractTokensFromDb no_database expired_host = Ok None
  /\ @TokenService.getToken no_database expired_host "a@x.com" boundary_world
     = (Ok (Some "ya29.cached"),
        {| TokenService.secrets := TokenService.secrets boundary_world;
           TokenService.trace :=
             [ TokenService.RefreshCall boundary_credential;
               TokenService.TokenRequest "1//refresh";
               TokenService.RecoveryCall "a@x.com" ] |}).
Proof.
  intros stored.
  assert (H1 : TokenService.secrets boundary_world
               !! (TokenService.TOKEN_PREFIX +:+ "a@x.com") = Some stored)
    by (vm_compute; reflexivity).
  assert (H2 : Str.falsy stored = false) by (vm_compute; reflexivity).
  assert (H3 : @JSON_parse_credential no_database stored = Ok boundary_credential)
    by (vm_compute; reflexivity).
  assert (H4 : TokenService.now expired_host
               > StoredCredential.expiresAt boundary_credential - 5 * 60 * 1000)
    by (vm_compute; reflexivity).
  assert (H5 : TokenService.token_endpoint expired_host "1//refresh" = None)
    by reflexivity.
  assert (H6 : @TokenService.extractTokensFromDb no_database expired_host = Ok None)
    by reflexivity.
  split; [exact H1|]. split; [exact H2|]. split; [exact H3|]. split; [exact H4|].
  split; [exact H5|]. split; [exact H6|].
  exact (proj2 (proj2 (@getToken_expired no_database expired_host "a@x.com" stored
                         boundary_credential boundary_world H1 H2 H3 H4))
           (or_intror H5) H6).
Defined.

Lemma legacy_token_disagreement_witness :
  TokenService.secrets legacy_world !! "rerevolve.token.a@x.com"
  = Some "ya29.legacy-raw-token"
  /\ 10 < Str.length "ya29.legacy-raw-token"
  /\ @JSON_parse_credential no_database "ya29.legacy-raw-token" = Throw SyntaxError
  /\ @TokenService.getToken no_database fresh_host "a@x.com" legacy_world
     = (Ok (Some "ya29.legacy-raw-token"), legacy_world)
  /\ @TokenService.hasToken no_database fresh_host "a@x.com" legacy_world
     = (Ok false, legacy_world).
Proof.
  assert (H1 : TokenService.secrets legacy_world
               !! (TokenService.TOKEN_PREFIX +:+ "a@x.com") = Some "ya29.legacy-raw-token")
    by (vm_compute; reflexivity).
  assert (H2 : 10 < Str.length "ya29.legacy-raw-token") by (vm_compute; reflexivity).
  assert (H3 : @JSON_parse_credential no_database "ya29.legacy-raw-token"
               = Throw SyntaxError) by (vm_compute; reflexivity).
  split; [exact H1|]. split; [exact H2|]. split; [exact H3|].
  exact (@legacy_token_disagreement no_database fresh_host "a@x.com"
           "ya29.legacy-raw-token" SyntaxError legacy_world H1 H2 H3).
Defined.

(** The host application is logged in as a@x.com and the argument is the
    same address in capitals: the e-mail extracted differs from the
    argument, the record is stored under the extracted one, and no warning
    is shown. *)
Lemma captureCurrentToken_case_difference :
  @TokenService.getAuthStatus logged_in capture_host
  = Ok (Some {| AuthStatus.email := Some "a@x.com";
                AuthStatus.apiKey := Some "ya29.active" |})
  /\ "a@x.com" <> "A@X.COM"
  /\ fst (@TokenService.captureCurrentToken logged_in capture_host "A@X.COM" empty_world)
     = Ok true
  /\ TokenService.trace
       (snd (@TokenService.captureCurrentToken logged_in capture_host "A@X.COM" empty_world))
     = [TokenService.ShowInformation (TokenService.TokenCaptured "a@x.com" false)]
  /\ is_Some (TokenService.secrets
                (snd (@TokenService.captureCurrentToken logged_in capture_host
                        "A@X.COM" empty_world))
              !! "rerevolve.token.a@x.com").
Proof.
  split; [vm_compute; reflexivity|].
  split; [discriminate|].
  split; [vm_compute; reflexivity|].
  split; [vm_compute; reflexivity|].
  vm_compute. eauto.
Qed.

Lemma captureCurrentToken_active_identity_witness :
  let authStatus := {| AuthStatus.email := Some "a@x.com";
                       AuthStatus.apiKey := Some "ya29.active" |} in
  @TokenService.getAuthStatus logged_in capture_host = Ok (Some authStatus)
  /\ Str.falsy "a@x.com" = false
  /\ Str.falsy "ya29.active" = false
  /\ exists credential,
       @TokenService.captureCurrentToken logged_in capture_host "b@x.com" empty_world
       = (Ok true,
          {| TokenService.secrets :=
               <[ "rerevolve.token.a@x.com" :=
                    @JSON_stringify_credential logged_in credential ]> ∅;
             TokenService.trace :=
               [ TokenService.ShowWarning (TokenService.EmailMismatch "a@x.com" "b@x.com");
                 TokenService.ShowInformation
                   (TokenService.TokenCaptured "a@x.com"
                      (negb (Str.not (StoredCredential.refreshToken credential)))) ] |})
       /\ StoredCredential.email credential = "a@x.com"
       /\ StoredCredential.accessToken credential = "ya29.active".
Proof.
  intros authStatus.
  assert (H1 : @TokenService.getAuthStatus logged_in capture_host = Ok (Some authStatus))
    by (vm_compute; reflexivity).
  assert (H2 : Str.falsy "a@x.com" = false) by reflexivity.
  assert (H3 : Str.falsy "ya29.active" = false) by reflexivity.
  split; [exact H1|]. split; [exact H2|]. split; [exact H3|].
  destruct (@captureCurrentToken_active_identity logged_in capture_host "b@x.com"
              authStatus "a@x.com" "ya29.active" empty_world H1 eq_refl eq_refl H2 H3)
    as (credential & Hrun & Hemail & Htoken & _).
  exists credential. split; [exact Hrun|]. split; [exact Hemail|exact Htoken].
Defined.

(** Without a snapshot nothing is run; a blob with single quotes and no
    double quote reaches the identity key as it is. *)
Lemma switchToAccount_command_example :
  let snapshots : gmap string AccountSnapshot.t := {[ "a@x.com" := snapshot_a ]} in
  let loaded :=
    {| AccountSwitcher.secrets := AccountSwitcher.secrets switch_world;
       AccountSwitcher.snapshotsCache := Some snapshots;
       AccountSwitcher.itemTable := AccountSwitcher.itemTable switch_world;
       AccountSwitcher.trace := [] |} in
  @AccountSwitcher.loadSnapshots no_database switch_world = (Ok snapshots, loaded)
  /\ snapshots !! "c@x.com" = None
  /\ snapshots !! "a@x.com" = Some snapshot_a
  /\ @AccountSwitcher.switchToAccount no_database switch_host db_path "c@x.com" switch_world
     = (Ok false,
        {| AccountSwitcher.secrets := AccountSwitcher.secrets switch_world;
           AccountSwitcher.snapshotsCache := Some snapshots;
           AccountSwitcher.itemTable := AccountSwitcher.itemTable switch_world;
           AccountSwitcher.trace :=
             [AccountSwitcher.ShowError (AccountSwitcher.NoSnapshot "c@x.com")] |})
  /\ AccountSwitcher.itemTable
       (snd (@AccountSwitcher.switchToAccount no_database switch_host db_path
               "a@x.com" switch_world))
     !! "antigravityAuthStatus"
     = Some (AccountSnapshot.authStatus snapshot_a).
Proof.
  intros snapshots loaded.
  assert (H1 : @AccountSwitcher.loadSnapshots no_database switch_world
               = (Ok snapshots, loaded)) by (vm_compute; reflexivity).
  assert (H2 : snapshots !! "c@x.com" = None) by (vm_compute; reflexivity).
  assert (H3 : snapshots !! "a@x.com" = Some snapshot_a) by (vm_compute; reflexivity).
  split; [exact H1|]. split; [exact H2|]. split; [exact H3|].
  destruct (@switchToAccount_command no_database switch_host db_path "c@x.com"
              snapshots switch_world loaded H1) as [Hnone _].
  destruct (@switchToAccount_command no_database switch_host db_path "a@x.com"
              snapshots switch_world loaded H1) as [_ Hsome].
  split; [exact (Hnone H2)|].
  destruct (Hsome snapshot_a H3) as [Hrun _].
  rewrite Hrun. vm_compute. reflexivity.
Defined.

Lemma switchToAccount_double_quotes_lost_witness :
  let snapshots : gmap string AccountSnapshot.t := {[ "a@x.com" := snapshot_json ]} in
  let run :=
    @AccountSwitcher.switchToAccount no_database (Shell.host false) db_path
      "a@x.com" json_world in
  @AccountSwitcher.loadSnapshots no_database json_world = (Ok snapshots, json_world)
  /\ snapshots !! "a@x.com" = Some snapshot_json
  /\ Str.dquote ∈ Str.chars (AccountSnapshot.authStatus snapshot_json)
  /\ fst run = Ok true
  /\ AccountSwitcher.itemTable (snd run) !! "antigravityAuthStatus"
     = Some "{email:a@x.com,apiKey:ya29.active}"
  /\ AccountSwitcher.itemTable (snd run) !! "antigravityAuthStatus"
     <> Some (AccountSnapshot.authStatus snapshot_json).
Proof.
  intros snapshots run.
  assert (H1 : @AccountSwitcher.loadSnapshots no_database json_world
               = (Ok snapshots, json_world)) by (vm_compute; reflexivity).
  assert (H2 : snapshots !! "a@x.com" = Some snapshot_json) by (vm_compute; reflexivity).
  assert (H3 : Str.dquote ∈ Str.chars (AccountSnapshot.authStatus snapshot_json)).
  { apply list_elem_of_In. vm_compute. right. left. reflexivity. }
  assert (H4 : fst run = Ok true) by (vm_compute; reflexivity).
  split; [exact H1|]. split; [exact H2|]. split; [exact H3|]. split; [exact H4|].
  split; [vm_compute; reflexivity|].
  exact (@switchToAccount_double_quotes_lost no_database false db_path "a@x.com"
           snapshots snapshot_json json_world json_world H1 H2 H3 H4).
Defined.

Lemma strategies_never_throw_witness :
  @TokenService.readStateValue truncated_state capture_host = Ok (Some "MoA=")
  /\ Protobuf.findField (@from_base64 truncated_state (Str.trim "MoA=")) 6
     = Throw IncompleteVarint
  /\ @TokenService.extractTokensWithProtobuf truncated_state capture_host = Ok None.
Proof.
  assert (H1 : @TokenService.readStateValue truncated_state capture_host
               = Ok (Some "MoA=")) by (vm_compute; reflexivity).
  assert (H2 : Protobuf.findField (@from_base64 truncated_state (Str.trim "MoA=")) 6
               = Throw IncompleteVarint) by (vm_compute; reflexivity).
  split; [exact H1|]. split; [exact H2|].
  destruct (@strategies_never_throw truncated_state) as (_ & _ & _ & Hdegrade & _).
  exact (Hdegrade capture_host "MoA=" IncompleteVarint H1 H2).
Defined.

End Instances.

(** ** The decoder on concrete inputs *)

Section DecoderInstances.
Import Protobuf Wire Examples.

(** A tag of 2^31 or more: the field is numbered 2^28 and is
    length-delimited, and [findField] does not find it. *)
Lemma findField_high_field_number :
  well_formed [high_field] = true
  /\ fieldNumber high_field = 2 ^ 28
  /\ value high_field = LengthDelimited [x01] [x41]
  /\ first_length_delimited (2 ^ 28) [high_field] = Some [x41]
  /\ findField (encode_message [high_field]) (2 ^ 28) = Ok None.
Proof. repeat split. Qed.

Lemma skipField_one_field_witness :
  well_formed sample_fields = true
  /\ walk (encode_message sample_fields)
     = Some (Ok (buf_length (encode_message sample_fields)))
  /\ readVarint (encode_message sample_fields) 14 = Ok (50, 15)
  /\ skipField (encode_message sample_fields) 15 (js_and 50 7) = Ok 26.
Proof.
  assert (H1 : well_formed sample_fields = true) by reflexivity.
  destruct skipField_one_field as (Hone & _ & Hwalk).
  split; [exact H1|]. split; [exact (Hwalk sample_fields H1)|].
  destruct (Hone (take 2 sample_fields)
                 (length_delimited_field 6 (encode_token_info "AT2" "RT2"))
                 (drop 3 sample_fields) H1)
    as (Htag & _ & _ & Hskip & _).
  split; [exact Htag|exact Hskip].
Defined.

Lemma findField_first_occurrence_witness :
  0 <= 6 < 2 ^ 28
  /\ well_formed sample_fields = true
  /\ forallb (unrelated 6) (take 2 sample_fields) = true
  /\ findField (encode_message sample_fields) 6
     = Ok (Some (encode_token_info "AT2" "RT2"))
  /\ forallb (unrelated 6) (take 2 sample_fields ++ drop 3 sample_fields) = true
  /\ findField (encode_message (take 2 sample_fields ++ drop 3 sample_fields)) 6 = Ok None
  /\ findField (encode_message ([] ++ take 2 sample_fields ++ drop 2 sample_fields)) 6
     = findField (encode_message ([] ++ drop 2 sample_fields)) 6.
Proof.
  assert (H0 : 0 <= 6 < 2 ^ 28) by lia.
  assert (H1 : well_formed sample_fields = true) by reflexivity.
  assert (H2 : forallb (unrelated 6) (take 2 sample_fields) = true) by reflexivity.
  assert (H3 : forallb (unrelated 6) (take 2 sample_fields ++ drop 3 sample_fields) = true)
    by reflexivity.
  destruct (findField_first_occurrence 6 H0) as (Hfound & Habsent & Hinsert).
  split; [exact H0|]. split; [exact H1|]. split; [exact H2|].
  split.
  { exact (Hfound (take 2 sample_fields)
             (length_delimited_field 6 (encode_token_info "AT2" "RT2"))
             _ (encode_token_info "AT2" "RT2") (drop 3 sample_fields)
             H1 eq_refl eq_refl H2). }
  split; [exact H3|].
  split.
  { exact (Habsent (take 2 sample_fields ++ drop 3 sample_fields) eq_refl H3). }
  exact (Hinsert [] (take 2 sample_fields) (drop 2 sample_fields) H1 H2).
Defined.

(** The scenario of the design description: outer field 6, inner fields
    AT2 and RT2. *)
Lemma token_info_round_trip_witness :
  (6 = 6 \/ 6 = 1)
  /\ exists inner,
       findField (encode_wrapped 6 (encode_token_info "AT2" "RT2")) 6 = Ok (Some inner)
       /\ parseOAuthTokenInfo inner
          = {| accessToken := Some "AT2"; refreshToken := Some "RT2" |}.
Proof.
  assert (H1 : 6 = 6 \/ 6 = 1) by (left; reflexivity).
  split; [exact H1|].
  exact (token_info_round_trip "AT2" "RT2" 6 H1).
Defined.

End DecoderInstances.

(** ** What the patterns match *)

Section RegexFacts.
Import Regex Shape.

Lemma run_spec class s : forall cap,
  forallb class (take (run class cap s) s) = true
  /\ match cap with
     | Some h => (run class cap s <= h)%nat
     | None => True
     end.
Proof.
  induction s as [|c s IH]; intros cap.
  - destruct cap as [[|h]|]; cbn; split; auto; lia.
  - destruct cap as [[|h]|]; cbn [run].
    + split; [reflexivity|lia].
    + destruct (class c) eqn:Hc; [|split; [reflexivity|lia]].
      destruct (IH (Some h)) as [Hall Hcap]. cbn [take forallb].
      rewrite Hc, Hall. split; [reflexivity|lia].
    + destruct (class c) eqn:Hc; [|split; [reflexivity|exact I]].
      destruct (IH None) as [Hall _]. cbn [take forallb].
      rewrite Hc, Hall. split; [reflexivity|exact I].
Qed.

Lemma forallb_take {A} (f : A -> bool) (l : list A) n m :
  (m <= n)%nat -> forallb f (take n l) = true -> forallb f (take m l) = true.
Proof.
  revert n m. induction l as [|x l IH]; intros n m Hle Hall.
  - rewrite take_nil. reflexivity.
  - destruct m as [|m]; [reflexivity|]. destruct n as [|n]; [lia|].
    cbn [take forallb] in *. apply andb_true_iff in Hall as [Hx Hall].
    rewrite Hx. cbn. apply (IH n m); [lia|exact Hall].
Qed.

Lemma backtrack_spec k s lo : forall n pieces,
  backtrack k s n lo = Some pieces ->
  exists m rest,
    (lo <= m <= n)%nat /\ pieces = take m s :: rest /\ k (drop m s) = Some rest.
Proof.
  induction n as [|n IH]; intros pieces; cbn [backtrack].
  - destruct (Nat.ltb_spec 0 lo); [discriminate|].
    destruct (k (drop 0 s)) as [rest|] eqn:Hk; [|discriminate].
    intros Hp. injection Hp as <-. exists O, rest. repeat split; [lia|lia|exact Hk].
  - destruct (Nat.ltb_spec (S n) lo); [discriminate|].
    destruct (k (drop (S n) s)) as [rest|] eqn:Hk.
    + intros Hp. injection Hp as <-. exists (S n), rest.
      repeat split; [lia|lia|exact Hk].
    + intros Hp. apply IH in Hp as (m & rest & Hm & -> & Hrest).
      exists m, rest. repeat split; [lia|lia|exact Hrest].
Qed.

Lemma strip_prefix_spec p s rest : strip_prefix p s = Some rest -> s = p ++ rest.
Proof.
  revert s. induction p as [|a p IH]; intros s Hs.
  - cbn in Hs. injection Hs as <-. reflexivity.
  - destruct s as [|b s]; cbn in Hs; [discriminate|].
    destruct (Ascii.eqb_spec a b) as [->|]; [|discriminate].
    cbn. f_equal. apply IH, Hs.
Qed.

(** A match consumes, atom by atom, text the atom allows, and the pieces
    are the head of the text matched. *)
Lemma match_here_sound p : forall s pieces,
  match_here p s = Some pieces ->
  Forall2 atom_ok p pieces /\ exists rest, s = concat pieces ++ rest.
Proof.
  induction p as [|a p IH]; intros s pieces Hm.
  - cbn in Hm. injection Hm as <-. split; [constructor|]. exists s. reflexivity.
  - destruct a as [text|class lo hi]; cbn [match_here] in Hm.
    + destruct (strip_prefix text s) as [rest|] eqn:Hs; [|discriminate].
      destruct (match_here p rest) as [ps|] eqn:Hp; [|discriminate].
      cbn in Hm. injection Hm as <-.
      apply IH in Hp as [Hall [rest' Hrest]].
      split; [constructor; [reflexivity|exact Hall]|].
      exists rest'. apply strip_prefix_spec in Hs. cbn [concat].
      rewrite Hs, Hrest, app_assoc. reflexivity.
    + apply backtrack_spec in Hm as (m & ps & Hbound & -> & Hp).
      apply IH in Hp as [Hall [rest' Hrest]].
      destruct (run_spec class s hi) as [Hrun Hcap].
      assert (Hlen : (m <= length s)%nat \/ (length s < m)%nat) by lia.
      split.
      * constructor; [|exact Hall]. cbn [atom_ok]. split; [|split].
        -- apply (forallb_take class s (run class hi s) m); [lia|exact Hrun].
        -- destruct Hlen as [Hlen|Hlen]; [rewrite length_take; lia|].
           assert (Hfull : (run class hi s <= length s)%nat).
           { clear. revert hi. induction s as [|c s IH]; intros hi.
             - destruct hi as [[|h]|]; cbn; lia.
             - destruct hi as [[|h]|]; cbn [run length]; [lia| |];
                 destruct (class c); try lia.
               + specialize (IH (Some h)). lia.
               + specialize (IH None). lia. }
           lia.
        -- destruct hi as [h|]; [|exact I]. rewrite length_take. lia.
      * exists rest'. cbn [concat]. rewrite <- app_assoc, <- Hrest.
        symmetry. apply take_drop.
Qed.

Lemma exec_from_sound p s : forall i skip m,
  m ∈ exec_from p s i skip ->
  exists s', match_here p s' = Some (pieces m).
Proof.
  induction s as [|c s IH]; intros i skip m Hm; cbn [exec_from] in Hm.
  - inversion Hm.
  - destruct skip as [|k]; [|eapply IH; exact Hm].
    destruct (match_here p (c :: s)) as [ps|] eqn:Hp; [|eapply IH; exact Hm].
    apply elem_of_cons in Hm as [->|Hm]; [|eapply IH; exact Hm].
    exists (c :: s). exact Hp.
Qed.

Lemma exec_all_sound p content m :
  m ∈ exec_all p content ->
  exists s', match_here p s' = Some (pieces m).
Proof. apply exec_from_sound. Qed.

Lemma match_first_sound p s m :
  match_first p s = Some m ->
  exists s', match_here p s' = Some (pieces m).
Proof.
  unfold match_first. intros Hm. apply (exec_all_sound p s).
  destruct (exec_all p s) as [|x l]; [discriminate|].
  cbn in Hm. injection Hm as ->. apply list_elem_of_here.
Qed.

Lemma length_of_chars l : Str.length (Str.of_chars l) = Z.of_nat (length l).
Proof.
  unfold Str.length, Str.of_chars. f_equal.
  induction l as [|c l IH]; [reflexivity|]. cbn. f_equal. exact IH.
Qed.

Lemma of_chars_app a b : Str.of_chars (a ++ b) = Str.of_chars a +:+ Str.of_chars b.
Proof.
  unfold Str.of_chars. induction a as [|c a IH]; [reflexivity|].
  cbn [app String.string_of_list_ascii]. rewrite IH. reflexivity.
Qed.

End RegexFacts.

(** ** The byte scan against the text *)

Section ScanAgainstText.
Import Regex ByteScan Shape Occurrence.

(** *** The global search reports what stands in the text *)








End ScanAgainstText.

(** *** The matches are reported once, in the order of their offsets *)

Section ScanOrder.
Import Regex ByteScan Shape Occurrence.









End ScanOrder.

(** *** The lists of the scan hold the matches *)

Section ScanLists.
Import Regex ByteScan Shape Occurrence.
Variable from_base64 : string -> Buffer.








End ScanLists.

(** *** The choice of the scan *)

Section ScanChoice.
Context `{Platform}.
Import TokenService ByteScan Occurrence.



End ScanChoice.

Section ScanScenarios.
Import Examples Scenarios.


End ScanScenarios.

(** * Further properties of the code *)

(** ** The decoder on damaged and truncated input *)

Section MoreVarint.
Import Protobuf Wire Decoding.

Lemma readVarint_loop_throw rest : forall acc shift pos,
  readVarint_loop rest acc shift pos = Throw IncompleteVarint
  <-> forallb continuation rest = true.
Proof.
  induction rest as [|b rest IH]; intros acc shift pos; cbn [readVarint_loop forallb].
  - split; reflexivity.
  - rewrite js_and_high. unfold continuation at 1.
    destruct (Z.ltb_spec (byte_val b) 128), (Z.leb_spec 128 (byte_val b)); try lia.
    + split; discriminate.
    + rewrite IH. reflexivity.
Qed.

Lemma readVarint_loop_error rest : forall acc shift pos e,
  readVarint_loop rest acc shift pos = Throw e -> e = IncompleteVarint.
Proof.
  induction rest as [|b rest IH]; intros acc shift pos e; cbn [readVarint_loop].
  - congruence.
  - destruct (_ =? 0); [discriminate|]. apply IH.
Qed.

Lemma readVarint_loop_stop (rest : list byte) : forall acc shift pos v pos',
  readVarint_loop rest acc shift pos = Ok (v, pos') ->
  exists n b,
    pos' = pos + Z.of_nat n + 1
    /\ rest !! n = Some b /\ continuation b = false
    /\ forallb continuation (take n rest) = true.
Proof.
  induction rest as [|b rest IH]; intros acc shift pos v pos'; cbn [readVarint_loop].
  - discriminate.
  - rewrite js_and_high.
    destruct (Z.ltb_spec (byte_val b) 128) as [Hb|Hb].
    + intros Hok. injection Hok as <- <-. exists O, b.
      repeat split; [lia|]. unfold continuation.
      destruct (Z.leb_spec 128 (byte_val b)); [lia|reflexivity].
    + intros Hok. apply IH in Hok as (n & b' & -> & Hb' & Hc & Hall).
      exists (S n), b'. repeat split; [lia|exact Hb'|exact Hc|].
      cbn [take forallb]. rewrite Hall. unfold continuation.
      destruct (Z.leb_spec 128 (byte_val b)); [reflexivity|lia].
Qed.

(** X2. From an offset that is not negative, [readVarint] throws exactly
    when every byte from the offset to the end of the buffer has its
    continuation bit set (in particular at or past the end), and the error
    is then the incomplete-varint one, never another.  When it returns, the
    position returned lies past the offset and within the buffer, the byte
    before it is the first one from the offset whose continuation bit is
    clear. *)
Theorem readVarint_incomplete (data : list byte) (offset : Z) :
  0 <= offset ->
  (readVarint data offset = Throw IncompleteVarint
   <-> forallb continuation (drop (Z.to_nat offset) data) = true)
  /\ (forall e, readVarint data offset = Throw e -> e = IncompleteVarint)
  /\ (forall v pos,
        readVarint data offset = Ok (v, pos) ->
        offset < pos <= buf_length data
        /\ (exists b, data !! Z.to_nat (pos - 1) = Some b /\ continuation b = false)
        /\ forallb continuation (subarray data offset (pos - 1)) = true).
Proof.
  intros Hoffset. unfold readVarint. split; [apply readVarint_loop_throw|].
  split; [intros e; apply readVarint_loop_error|].
  intros v pos Hok.
  apply readVarint_loop_stop in Hok as (n & b & -> & Hb & Hc & Hall).
  rewrite lookup_drop in Hb.
  assert (Hlen : (Z.to_nat offset + n < length data)%nat)
    by (apply lookup_lt_is_Some; eauto).
  split; [unfold buf_length; lia|]. split.
  - exists b. split; [|exact Hc].
    replace (Z.to_nat (offset + Z.of_nat n + 1 - 1)) with (Z.to_nat offset + n)%nat by lia.
    exact Hb.
  - unfold subarray.
    replace (Z.to_nat (offset + Z.of_nat n + 1 - 1 - offset)) with n by lia.
    exact Hall.
Qed.

(** X1. Round trip: wherever the minimal varint of a value below 2^53
    stands in a buffer, whatever precedes and follows it, [readVarint] at
    its first byte returns that value and the offset just past its last
    byte. *)
Theorem readVarint_round_trip (n : Z) (pre rest : Buffer) :
  0 <= n < 2 ^ 53 ->
  readVarint (pre ++ encode_varint n ++ rest) (buf_length pre)
  = Ok (n, buf_length pre + buf_length (encode_varint n)).
Proof.
  intros Hn. destruct (encode_varint_spec n) as [Hv Hval]; [lia|].
  rewrite readVarint_varint by exact Hv.
  rewrite Hval, buf_length_app. reflexivity.
Qed.

End MoreVarint.

Section MoreDecoder.
Import Protobuf Wire Decoding.

Lemma findField_loop_more fuel : forall data target offset r k,
  findField_loop fuel data target offset = Some r ->
  findField_loop (fuel + k) data target offset = Some r.
Proof.
  induction fuel as [|fuel IH]; intros data target offset r k Hr.
  - cbn [findField_loop] in Hr.
    destruct (offset <? buf_length data) eqn:Hlt; [discriminate|].
    destruct (0 + k)%nat; cbn [findField_loop]; rewrite Hlt; exact Hr.
  - cbn [findField_loop Nat.add] in *.
    destruct (offset <? buf_length data); [|exact Hr].
    destruct (readVarint data offset) as [[tag newOffset]|]; [|exact Hr].
    destruct (_ && _); [exact Hr|].
    destruct (skipField data newOffset (js_and tag 7)); [|exact Hr].
    apply IH, Hr.
Qed.

Lemma findField_from_loop fuel data target r :
  findField_loop fuel data target 0 = Some r -> findField data target = r.
Proof.
  intros Hr.
  pose proof (findField_loop_result data target) as Hres.
  apply (findField_loop_more _ _ _ _ _ (findField_fuel data)) in Hr.
  apply (findField_loop_more _ _ _ _ _ fuel) in Hres.
  rewrite Nat.add_comm in Hres. congruence.
Qed.

Lemma findField_loop_prefix fs : forall pre rest fuel target,
  shaped fs = true -> 0 <= target < 2 ^ 28 ->
  findField_loop (length fs + fuel) (pre ++ encode_message fs ++ rest) target
                 (buf_length pre)
  = match first_length_delimited target fs with
    | Some payload => Some (Ok (Some payload))
    | None => findField_loop fuel (pre ++ encode_message fs ++ rest) target
                             (buf_length (pre ++ encode_message fs))
    end.
Proof.
  induction fs as [|f fs IH]; intros pre rest fuel target Hs Ht.
  - cbn [first_length_delimited length Nat.add]. unfold encode_message. cbn.
    rewrite app_nil_r. reflexivity.
  - apply shaped_cons in Hs as [Hf Hfs].
    rewrite encode_message_cons. cbn [length Nat.add first_length_delimited].
    rewrite <- (app_assoc (encode_field f)).
    rewrite findField_loop_field by assumption.
    assert (Hnext :
      findField_loop (length fs + fuel)
        (pre ++ encode_field f ++ encode_message fs ++ rest) target
        (buf_length (pre ++ encode_field f))
      = match first_length_delimited target fs with
        | Some payload => Some (Ok (Some payload))
        | None =>
            findField_loop fuel (pre ++ encode_field f ++ encode_message fs ++ rest)
              target (buf_length (pre ++ encode_field f ++ encode_message fs))
        end).
    { specialize (IH (pre ++ encode_field f) rest fuel target Hfs Ht).
      rewrite <- !app_assoc in IH. exact IH. }
    destruct (value f); try exact Hnext.
    destruct (fieldNumber f =? target); [reflexivity|exact Hnext].
Qed.

(** Reading at the end of a prefix is reading the rest from its start. *)
Lemma readVarint_shift (pre junk : list byte) :
  readVarint (pre ++ junk) (buf_length pre)
  = readVarint_loop junk 0 0 (buf_length pre).
Proof.
  unfold readVarint, buf_length. rewrite Nat2Z.id, drop_app_length. reflexivity.
Qed.

Lemma readVarint_unreadable (pre junk : list byte) :
  readVarint junk 0 = Throw IncompleteVarint ->
  readVarint (pre ++ junk) (buf_length pre) = Throw IncompleteVarint.
Proof.
  intros Hjunk. rewrite readVarint_shift.
  apply readVarint_loop_throw. unfold readVarint in Hjunk.
  apply readVarint_loop_throw in Hjunk. exact Hjunk.
Qed.

(** A view that would end past the buffer ends with it. *)
Lemma subarray_clamped (a p : list byte) (n : Z) :
  buf_length p <= n -> subarray (a ++ p) (buf_length a) (buf_length a + n) = p.
Proof.
  intros Hn. unfold subarray, buf_length in *.
  rewrite Nat2Z.id, drop_app_length. apply take_ge. lia.
Qed.

(** X3. [findField] stops at the first length-delimited field numbered
    [target] (below 2^28): on well-formed fields (no varint longer than
    ten bytes), when the fields before it are not such occurrences, it
    returns the payload of that field whatever bytes follow the field, well
    formed or not. *)
Theorem findField_ignores_what_follows (target : Z) before f length payload (junk : Buffer) :
  0 <= target < 2 ^ 28 ->
  well_formed (before ++ [f]) = true ->
  value f = LengthDelimited length payload ->
  fieldNumber f = target ->
  forallb (unrelated target) before = true ->
  findField (encode_message (before ++ [f]) ++ junk) target = Ok (Some payload).
Proof.
  intros Ht Hs Hv Hn Hbefore. apply well_formed_shaped in Hs.
  apply (findField_from_loop (List.length (before ++ [f]) + 0)).
  pose proof (findField_loop_prefix (before ++ [f]) [] junk O target Hs Ht) as Hloop.
  cbn [app] in Hloop. change (buf_length []) with 0 in Hloop. rewrite Hloop.
  rewrite first_length_delimited_app, first_length_delimited_unrelated by assumption.
  cbn [first_length_delimited]. rewrite Hv, Hn, Z.eqb_refl. reflexivity.
Qed.

(** X4. A payload cut short is returned as far as it goes: after
    well-formed fields none of which is such an occurrence, when the buffer
    ends before the declared length (below 2^53) of the first
    length-delimited field numbered [target] is reached, [findField]
    returns the bytes that are there and does not throw.  The tag and the
    length are varints of ten bytes at most. *)
Theorem findField_truncated_payload (target : Z) before tagBytes lengthBytes
    (part : Buffer) :
  0 <= target < 2 ^ 28 ->
  well_formed before = true ->
  forallb (unrelated target) before = true ->
  format_varint tagBytes = true -> varint_value tagBytes = target * 8 + 2 ->
  format_varint lengthBytes = true ->
  buf_length part <= varint_value lengthBytes < 2 ^ 53 ->
  findField (encode_message before ++ tagBytes ++ lengthBytes ++ part) target
  = Ok (Some part).
Proof.
  intros Ht Hs Hbefore Htag Hvalue Hlen Hpart. apply well_formed_shaped in Hs.
  apply andb_true_iff in Htag as [Htag _]. apply andb_true_iff in Hlen as [Hlen _].
  apply (findField_from_loop (List.length before + 1)).
  pose proof (findField_loop_prefix before [] (tagBytes ++ lengthBytes ++ part)
                1 target Hs Ht) as Hloop.
  cbn [app] in Hloop. change (buf_length []) with 0 in Hloop. rewrite Hloop.
  rewrite first_length_delimited_unrelated by assumption.
  set (pre := encode_message before).
  cbn [findField_loop].
  assert (Hin : (buf_length pre <? buf_length (pre ++ tagBytes ++ lengthBytes ++ part)) = true).
  { apply Z.ltb_lt. rewrite !buf_length_app.
    pose proof (buf_length_pos tagBytes (is_varint_nonempty _ Htag)).
    pose proof (buf_length_nonneg lengthBytes). pose proof (buf_length_nonneg part). lia. }
  rewrite Hin, readVarint_varint by exact Htag.
  rewrite Hvalue.
  rewrite js_and_wire by lia. rewrite js_sar_eqb by lia.
  replace ((target * 8 + 2) mod 8) with 2
    by (rewrite Z.add_comm, Z.mod_add by lia; reflexivity).
  replace ((target * 8 + 2) / 8) with target
    by (rewrite Z.add_comm, Z.div_add by lia; reflexivity).
  rewrite Z.eqb_refl. cbn [andb Z.eqb].
  rewrite (app_assoc pre tagBytes), readVarint_varint by exact Hlen.
  cbn [mbind Res_bind].
  rewrite (app_assoc (pre ++ tagBytes) lengthBytes).
  rewrite subarray_clamped by lia. reflexivity.
Qed.

(** X5. After well-formed fields none of which is a length-delimited field
    numbered [target]: a tag varint that is cut off ends [findField] with
    no result and no error, and a tag (a varint of ten bytes at most, below
    2^32) whose wire type is not 0, 1, 2 or 5 makes it throw the
    unknown-wire-type error for that wire type. *)
Theorem findField_damaged_field (target : Z) fs :
  0 <= target < 2 ^ 28 ->
  well_formed fs = true ->
  forallb (unrelated target) fs = true ->
  (forall junk : Buffer,
      readVarint junk 0 = Throw IncompleteVarint ->
      findField (encode_message fs ++ junk) target = Ok None)
  /\ (forall tagBytes (rest : Buffer),
        format_varint tagBytes = true -> varint_value tagBytes < 2 ^ 32 ->
        known_wire_type (varint_value tagBytes mod 8) = false ->
        findField (encode_message fs ++ tagBytes ++ rest) target
        = Throw (UnknownWireType (varint_value tagBytes mod 8))).
Proof.
  intros Ht Hs Hfs. apply well_formed_shaped in Hs. split.
  - intros junk Hjunk.
    apply (findField_from_loop (List.length fs + 1)).
    pose proof (findField_loop_prefix fs [] junk 1 target Hs Ht) as Hloop.
    cbn [app] in Hloop. change (buf_length []) with 0 in Hloop. rewrite Hloop.
    rewrite first_length_delimited_unrelated by assumption.
    cbn [findField_loop].
    rewrite readVarint_unreadable by exact Hjunk.
    destruct (_ <? _); reflexivity.
  - intros tagBytes rest Htag Hbound Hw. apply andb_true_iff in Htag as [Htag _].
    apply (findField_from_loop (List.length fs + 1)).
    pose proof (findField_loop_prefix fs [] (tagBytes ++ rest) 1 target Hs Ht) as Hloop.
    cbn [app] in Hloop. change (buf_length []) with 0 in Hloop. rewrite Hloop.
    rewrite first_length_delimited_unrelated by assumption.
    set (pre := encode_message fs).
    cbn [findField_loop].
    assert (Hin : (buf_length pre <? buf_length (pre ++ tagBytes ++ rest)) = true).
    { apply Z.ltb_lt. rewrite !buf_length_app.
      pose proof (buf_length_pos tagBytes (is_varint_nonempty _ Htag)).
      pose proof (buf_length_nonneg rest). lia. }
    rewrite Hin, readVarint_varint by exact Htag.
    pose proof (varint_value_nonneg tagBytes) as Hnn.
    rewrite js_and_wire by lia.
    unfold known_wire_type in Hw.
    unfold skipField.
    destruct (varint_value tagBytes mod 8 =? 0) eqn:H0; [discriminate|].
    destruct (varint_value tagBytes mod 8 =? 1) eqn:H1; [discriminate|].
    destruct (varint_value tagBytes mod 8 =? 2) eqn:H2; [discriminate|].
    destruct (varint_value tagBytes mod 8 =? 5) eqn:H5; [discriminate|].
    rewrite andb_false_r. reflexivity.
Qed.

End MoreDecoder.

Section MoreParse.
Import Protobuf Wire Decoding.

Lemma parseOAuthTokenInfo_loop_more fuel : forall data offset info r k,
  parseOAuthTokenInfo_loop fuel data offset info = Some r ->
  parseOAuthTokenInfo_loop (fuel + k) data offset info = Some r.
Proof.
  induction fuel as [|fuel IH]; intros data offset info r k Hr.
  - cbn [parseOAuthTokenInfo_loop] in Hr.
    destruct (offset <? buf_length data) eqn:Hlt; [discriminate|].
    destruct (0 + k)%nat; cbn [parseOAuthTokenInfo_loop]; rewrite Hlt; exact Hr.
  - cbn [parseOAuthTokenInfo_loop Nat.add] in *.
    destruct (offset <? buf_length data); [|exact Hr].
    destruct (parseOAuthTokenInfo_step data offset info) as [[offset' info']|];
      [|exact Hr].
    apply IH, Hr.
Qed.

Lemma parseOAuthTokenInfo_from_loop fuel data r :
  parseOAuthTokenInfo_loop fuel data 0 emptyInfo = Some r -> parseOAuthTokenInfo data = r.
Proof.
  intros Hr.
  pose proof (parseOAuthTokenInfo_loop_result data) as Hres.
  apply (parseOAuthTokenInfo_loop_more _ _ _ _ _ (S (length data))) in Hr.
  apply (parseOAuthTokenInfo_loop_more _ _ _ _ _ fuel) in Hres.
  rewrite Nat.add_comm in Hres. congruence.
Qed.

(** One iteration of the loop of [parseOAuthTokenInfo] on a field at a field
    boundary. *)
Lemma parseOAuthTokenInfo_step_field pre f rest info :
  field_shape f = true ->
  parseOAuthTokenInfo_step (pre ++ encode_field f ++ rest) (buf_length pre) info
  = Ok (buf_length (pre ++ encode_field f), update_info info f).
Proof.
  intros Hf. unfold update_info.
  destruct (value f) as [bytes|bytes|len payload|bytes] eqn:Hv;
    [| |exact (parseOAuthTokenInfo_step_leaf pre f len payload rest info Hf Hv)|].
  all: unfold parseOAuthTokenInfo_step;
    rewrite readVarint_tag by exact Hf; cbn [mbind Res_bind];
    rewrite tag_wireType by exact Hf;
    pose proof (skipField_field pre f rest Hf) as Hskip;
    rewrite Hv in *; cbn [wireType Z.eqb] in *;
    rewrite Hskip; reflexivity.
Qed.

Lemma parseOAuthTokenInfo_loop_prefix fs : forall pre rest fuel info,
  shaped fs = true ->
  parseOAuthTokenInfo_loop (length fs + fuel) (pre ++ encode_message fs ++ rest)
                           (buf_length pre) info
  = parseOAuthTokenInfo_loop fuel (pre ++ encode_message fs ++ rest)
                             (buf_length (pre ++ encode_message fs))
                             (fold_left update_info fs info).
Proof.
  induction fs as [|f fs IH]; intros pre rest fuel info Hs.
  - unfold encode_message. cbn. rewrite app_nil_r. reflexivity.
  - apply shaped_cons in Hs as [Hf Hfs].
    rewrite encode_message_cons. cbn [length Nat.add fold_left].
    rewrite <- (app_assoc (encode_field f)).
    cbn [parseOAuthTokenInfo_loop].
    rewrite offset_inside, parseOAuthTokenInfo_step_field by exact Hf.
    specialize (IH (pre ++ encode_field f) rest fuel (update_info info f) Hfs).
    rewrite <- !app_assoc in IH. exact IH.
Qed.

Lemma fold_update_info fs : forall info,
  accessToken (fold_left update_info fs info)
  = match last_length_delimited 1 fs with
    | Some payload => Some (buf_toString payload)
    | None => accessToken info
    end
  /\ refreshToken (fold_left update_info fs info)
     = match last_length_delimited 3 fs with
       | Some payload => Some (buf_toString payload)
       | None => refreshToken info
       end.
Proof.
  unfold last_length_delimited.
  induction fs as [|f fs IH] using rev_ind; intros info; [split; reflexivity|].
  rewrite fold_left_app, rev_app_distr. cbn [fold_left rev app first_length_delimited].
  destruct (IH info) as [Ha Hr].
  unfold update_info at 1 3.
  destruct (value f) as [bytes|bytes|len payload|bytes]; try (split; assumption).
  destruct (Z.eqb_spec (fieldNumber f) 1) as [H1|H1].
  - rewrite H1. cbn [Z.eqb accessToken refreshToken]. split; [reflexivity|exact Hr].
  - destruct (Z.eqb_spec (fieldNumber f) 3) as [H3|H3].
    + cbn [accessToken refreshToken]. split; [exact Ha|reflexivity].
    + split; assumption.
Qed.

(** On a message [parseOAuthTokenInfo] applies its fields one after the
    other. *)
Lemma parseOAuthTokenInfo_message fs :
  shaped fs = true ->
  parseOAuthTokenInfo (encode_message fs) = fold_left update_info fs emptyInfo.
Proof.
  intros Hs.
  apply (parseOAuthTokenInfo_from_loop (length fs + 0)).
  pose proof (parseOAuthTokenInfo_loop_prefix fs [] [] O emptyInfo Hs) as Hloop.
  cbn [app] in Hloop. rewrite app_nil_r in Hloop.
  change (buf_length []) with 0 in Hloop. rewrite Hloop.
  apply parseOAuthTokenInfo_loop_end.
Qed.

(** X6. On the encoding of well-formed fields, [parseOAuthTokenInfo]
    returns as access token the payload of the LAST length-delimited field
    numbered 1, and as refresh token that of the last one numbered 3 (none
    where there is no such field): a later occurrence overwrites an earlier
    one, where [findField] keeps the first.  The two payloads are ASCII
    text, which [toString] returns as it is. *)
Theorem parseOAuthTokenInfo_last_occurrence fs :
  well_formed fs = true ->
  (forall payload, last_length_delimited 1 fs = Some payload -> ascii_text payload = true) ->
  (forall payload, last_length_delimited 3 fs = Some payload -> ascii_text payload = true) ->
  parseOAuthTokenInfo (encode_message fs)
  = {| accessToken := buf_toString <$> last_length_delimited 1 fs;
       refreshToken := buf_toString <$> last_length_delimited 3 fs |}.
Proof.
  intros Hs _ _. apply well_formed_shaped in Hs. rewrite parseOAuthTokenInfo_message by exact Hs.
  destruct (fold_update_info fs emptyInfo) as [Ha Hr].
  destruct (fold_left update_info fs emptyInfo) as [a r].
  cbn [accessToken refreshToken emptyInfo] in Ha, Hr. rewrite Ha, Hr.
  destruct (last_length_delimited 1 fs), (last_length_delimited 3 fs); reflexivity.
Qed.

(** X7. [parseOAuthTokenInfo] keeps what it has read: after the encoding of
    well-formed fields, a tag varint that is cut off, or a tag (a varint of
    ten bytes at most, below 2^32) with an unknown wire type, ends the
    parse with the result of the fields read so far, and no error. *)
Theorem parseOAuthTokenInfo_keeps_what_it_read fs :
  well_formed fs = true ->
  (forall junk : Buffer,
      readVarint junk 0 = Throw IncompleteVarint ->
      parseOAuthTokenInfo (encode_message fs ++ junk)
      = parseOAuthTokenInfo (encode_message fs))
  /\ (forall tagBytes (rest : Buffer),
        format_varint tagBytes = true -> varint_value tagBytes < 2 ^ 32 ->
        known_wire_type (varint_value tagBytes mod 8) = false ->
        parseOAuthTokenInfo (encode_message fs ++ tagBytes ++ rest)
        = parseOAuthTokenInfo (encode_message fs)).
Proof.
  intros Hs. apply well_formed_shaped in Hs.
  rewrite parseOAuthTokenInfo_message by exact Hs. split.
  - intros junk Hjunk.
    apply (parseOAuthTokenInfo_from_loop (length fs + 1)).
    pose proof (parseOAuthTokenInfo_loop_prefix fs [] junk 1 emptyInfo Hs) as Hloop.
    cbn [app] in Hloop. change (buf_length []) with 0 in Hloop. rewrite Hloop.
    cbn [parseOAuthTokenInfo_loop]. unfold parseOAuthTokenInfo_step.
    rewrite readVarint_unreadable by exact Hjunk.
    destruct (_ <? _); reflexivity.
  - intros tagBytes rest Htag Hbound Hw. apply andb_true_iff in Htag as [Htag _].
    apply (parseOAuthTokenInfo_from_loop (length fs + 1)).
    pose proof (parseOAuthTokenInfo_loop_prefix fs [] (tagBytes ++ rest) 1 emptyInfo Hs)
      as Hloop.
    cbn [app] in Hloop. change (buf_length []) with 0 in Hloop. rewrite Hloop.
    cbn [parseOAuthTokenInfo_loop]. unfold parseOAuthTokenInfo_step.
    rewrite readVarint_varint by exact Htag. cbn [mbind Res_bind].
    pose proof (varint_value_nonneg tagBytes) as Hnn.
    rewrite js_and_wire by lia.
    unfold known_wire_type in Hw. unfold skipField.
    destruct (varint_value tagBytes mod 8 =? 0) eqn:H0; [discriminate|].
    destruct (varint_value tagBytes mod 8 =? 1) eqn:H1; [discriminate|].
    destruct (varint_value tagBytes mod 8 =? 2) eqn:H2; [discriminate|].
    destruct (varint_value tagBytes mod 8 =? 5) eqn:H5; [discriminate|].
    destruct (_ <? _); reflexivity.
Qed.

End MoreParse.

(** ** More of the credential lifecycle *)

Section MoreLifecycle.
Context `{Platform}.
Import StoredCredential TokenService.

Ltac step :=
  repeat (rewrite ?bind_run, ?ret_run, ?try_catchM_run, ?secrets_get_run, ?lift_run,
            ?emit_run, ?secrets_store_run;
          cbn beta iota; cbn [secrets trace]).

(** [getToken] on a stored record that parses. *)
Lemma getToken_record_run host email stored credential w :
  secrets w !! (TOKEN_PREFIX +:+ email) = Some stored ->
  Str.falsy stored = false ->
  JSON_parse_credential stored = Ok credential ->
  getToken host email w
  = if now host >? expiresAt credential - 5 * 60 * 1000 then
      match refreshAccessToken host credential w with
      | (Ok (Some (newAccessToken, newExpiresAt)), w1) =>
          (Ok (Some newAccessToken),
           {| secrets :=
                <[TOKEN_PREFIX +:+ email :=
                    JSON_stringify_credential
                      {| accessToken := newAccessToken;
                         refreshToken := refreshToken credential;
                         expiresAt := newExpiresAt;
                         email := StoredCredential.email credential;
                         createdAt := createdAt credential |}]> (secrets w1);
              trace := trace w1 |})
      | (Ok None, w1) =>
          match tryAutoRecovery host email w1 with
          | (Ok true, w2) =>
              if Str.not (secrets w2 !! (TOKEN_PREFIX +:+ email))
              then (Ok (Some (accessToken credential)), w2)
              else
                match JSON_parse_credential
                        (default "" (secrets w2 !! (TOKEN_PREFIX +:+ email))) with
                | Ok newCredential => (Ok (Some (accessToken newCredential)), w2)
                | Throw _ =>
                    (if 10 <? Str.length stored then Ok (Some stored) else Ok None, w2)
                end
          | (Ok false, w2) => (Ok (Some (accessToken credential)), w2)
          | (Throw _, w2) =>
              (if 10 <? Str.length stored then Ok (Some stored) else Ok None, w2)
          end
      | (Throw _, w1) =>
          (if 10 <? Str.length stored then Ok (Some stored) else Ok None, w1)
      end
    else (Ok (Some (accessToken credential)), w).
Proof.
  intros Hs Hf Hp. unfold getToken.
  repeat (step; rewrite ?Hs, ?not_Some, ?Hf, ?Hp; cbn [default from_option id]).
  destruct (now host >? expiresAt credential - 5 * 60 * 1000); [|reflexivity].
  step.
  destruct (refreshAccessToken host credential w) as [[[[a x]|]|e] w1]; step;
    [reflexivity| |destruct (10 <? Str.length stored); reflexivity].
  destruct (tryAutoRecovery host email w1) as [[[|]|e] w2]; step;
    [|reflexivity|destruct (10 <? Str.length stored); reflexivity].
  destruct (Str.not (secrets w2 !! (TOKEN_PREFIX +:+ email))); step; [reflexivity|].
  destruct (JSON_parse_credential
              (default "" (secrets w2 !! (TOKEN_PREFIX +:+ email)))); step;
    [reflexivity|destruct (10 <? Str.length stored); reflexivity].
Qed.


Lemma extractTokensFromDb_total host : exists r, extractTokensFromDb host = Ok r.
Proof.
  unfold extractTokensFromDb. destruct (existsSync host); simpl; [|eauto].
  unfold try_catch. destruct (_ ≫= _); eauto.
Qed.

End MoreLifecycle.

Section FootprintFacts.
Context `{Platform}.
Import StoredCredential TokenService Footprint.

Lemma only_refl key w : only key w w.
Proof. split; [reflexivity|]. exists []. rewrite app_nil_r. reflexivity. Qed.

Lemma only_trans key w1 w2 w3 : only key w1 w2 -> only key w2 w3 -> only key w1 w3.
Proof.
  intros [Hs1 [r1 Ht1]] [Hs2 [r2 Ht2]]. split.
  - intros k Hk. rewrite Hs2, Hs1 by exact Hk. reflexivity.
  - exists (r1 ++ r2). rewrite Ht2, Ht1, app_assoc. reflexivity.
Qed.

Lemma frame_safe key {A} (m : M A) : safe key m -> frame key m.
Proof. intros Hm w. apply Hm. Qed.

Lemma safe_ret key {A} (a : A) : safe key (mret a : M A).
Proof. intros w. split; [eexists; reflexivity|apply only_refl]. Qed.

Lemma frame_lift key {A} (r : Res A) : frame key (lift r : M A).
Proof. intros w. apply only_refl. Qed.

Lemma safe_secrets_get key k : safe key (secrets_get k).
Proof. intros w. split; [eexists; reflexivity|apply only_refl]. Qed.

Lemma safe_emit key e : safe key (emit e).
Proof.
  intros w. split; [eexists; reflexivity|]. split; [reflexivity|].
  exists [e]. reflexivity.
Qed.

Lemma safe_secrets_store key value : safe key (secrets_store key value).
Proof.
  intros w. split; [eexists; reflexivity|]. split.
  - intros k Hk. cbn. apply lookup_insert_ne. congruence.
  - exists []. cbn. rewrite app_nil_r. reflexivity.
Qed.

Lemma frame_bind key {A B} (m : M A) (f : A -> M B) :
  frame key m -> (forall a, frame key (f a)) -> frame key (m ≫= f).
Proof.
  intros Hm Hf w. rewrite bind_run. specialize (Hm w).
  destruct (m w) as [[a|e] w1]; cbn [snd] in *; [|exact Hm].
  eapply only_trans; [exact Hm|apply Hf].
Qed.

Lemma safe_bind key {A B} (m : M A) (f : A -> M B) :
  safe key m -> (forall a, safe key (f a)) -> safe key (m ≫= f).
Proof.
  intros Hm Hf w. rewrite bind_run. destruct (Hm w) as [[a Ha] Hw].
  destruct (m w) as [r w1]; cbn [fst snd] in *. subst r.
  destruct (Hf a w1) as [Hb Hw1]. split; [exact Hb|].
  eapply only_trans; eassumption.
Qed.

Lemma safe_try_catchM key {A} (body : M A) handler :
  frame key body -> (forall e, safe key (handler e)) ->
  safe key (try_catchM body handler).
Proof.
  intros Hbody Hhandler w. rewrite try_catchM_run. specialize (Hbody w).
  destruct (body w) as [[a|e] w1]; cbn [fst snd] in *.
  - split; [eauto|exact Hbody].
  - destruct (Hhandler e w1) as [Ha Hw1]. split; [exact Ha|].
    eapply only_trans; eassumption.
Qed.

Lemma safe_tryAutoRecovery host email :
  safe (TOKEN_PREFIX +:+ email) (tryAutoRecovery host email).
Proof.
  unfold tryAutoRecovery.
  apply safe_bind; [apply safe_emit|]. intros _.
  apply safe_try_catchM; [|intros e; apply safe_ret].
  apply frame_bind; [apply frame_lift|]. intros [tokens|];
    [|apply frame_safe, safe_ret].
  apply frame_safe.
  apply safe_bind; [apply safe_secrets_store|]. intros _.
  apply safe_bind; [apply safe_emit|]. intros _. apply safe_ret.
Qed.

Lemma safe_refreshAccessToken key host credential :
  safe key (refreshAccessToken host credential).
Proof.
  unfold refreshAccessToken.
  apply safe_bind; [apply safe_emit|]. intros _.
  destruct (Str.not (refreshToken credential)); [apply safe_ret|].
  apply safe_bind; [apply safe_emit|]. intros _.
  destruct (token_endpoint host _) as [[a x]|]; apply safe_ret.
Qed.

(** The keys of two accounts differ. *)
Lemma TOKEN_PREFIX_inj email other :
  TOKEN_PREFIX +:+ other = TOKEN_PREFIX +:+ email -> other = email.
Proof. intros Heq. cbv [TOKEN_PREFIX String.append] in Heq. congruence. Qed.

(** X12. [getToken] never throws, and all it may change in the secret
    storage is the record of the account asked for: the record of every
    other account, and every other key, is as before; the log of what
    happened is only extended. *)
Theorem getToken_footprint host email w :
  exists result w',
    getToken host email w = (Ok result, w')
    /\ (forall other, other <> email ->
          secrets w' !! (TOKEN_PREFIX +:+ other) = secrets w !! (TOKEN_PREFIX +:+ other))
    /\ (forall key, key <> TOKEN_PREFIX +:+ email -> secrets w' !! key = secrets w !! key)
    /\ exists rest, trace w' = trace w ++ rest.
Proof.
  assert (Hsafe : safe (TOKEN_PREFIX +:+ email) (getToken host email)).
  { unfold getToken.
    apply safe_bind; [apply safe_secrets_get|]. intros stored.
    apply safe_bind.
    { destruct (Str.not stored); [|apply safe_ret].
      apply safe_bind; [apply safe_tryAutoRecovery|]. intros [|];
        [apply safe_secrets_get|apply safe_ret]. }
    intros stored'. destruct (Str.not stored'); [apply safe_ret|].
    apply safe_try_catchM.
    - apply frame_bind; [apply frame_lift|]. intros credential.
      destruct (_ >? _); [|apply frame_safe, safe_ret].
      apply frame_bind; [apply frame_safe, safe_refreshAccessToken|].
      intros [[newAccessToken newExpiresAt]|].
      + apply frame_safe.
        apply safe_bind; [apply safe_secrets_store|]. intros _. apply safe_ret.
      + apply frame_bind; [apply frame_safe, safe_tryAutoRecovery|]. intros [|];
          [|apply frame_safe, safe_ret].
        apply frame_bind; [apply frame_safe, safe_secrets_get|]. intros newStored.
        destruct (Str.not newStored); [apply frame_safe, safe_ret|].
        apply frame_bind; [apply frame_lift|]. intros newCredential.
        apply frame_safe, safe_ret.
    - intros e. destruct (_ <? _); apply safe_ret. }
  destruct (Hsafe w) as [[result Hresult] [Hsecrets Htrace]].
  destruct (getToken host email w) as [r w'] eqn:Hrun. cbn [fst snd] in *. subst r.
  exists result, w'. split; [reflexivity|]. split; [|split; assumption].
  intros other Hother. apply Hsecrets. intros Heq.
  apply Hother, TOKEN_PREFIX_inj, Heq.
Qed.

End FootprintFacts.

Section LifecycleOutcomes.
Context `{Platform}.
Import StoredCredential TokenService.

Ltac step :=
  repeat (rewrite ?bind_run, ?ret_run, ?try_catchM_run, ?secrets_get_run, ?lift_run,
            ?emit_run, ?secrets_store_run;
          cbn beta iota; cbn [secrets trace]).



End LifecycleOutcomes.

Section StoreOutcomes.
Context `{Platform}.
Import StoredCredential TokenService.

Ltac step :=
  repeat (rewrite ?bind_run, ?ret_run, ?try_catchM_run, ?secrets_get_run, ?lift_run,
            ?emit_run, ?secrets_store_run;
          cbn beta iota; cbn [secrets trace]).

(** X16. Insert then lookup: after [saveToken] of the JSON text of a
    credential that is more than five minutes from expiry, [getToken]
    returns the access token of that credential and changes nothing,
    [hasToken] answers whether the text is longer than 10 characters, and
    the records of the other accounts are as before. *)
Theorem saveToken_getToken host email tokenData credential w :
  Str.falsy tokenData = false ->
  JSON_parse_credential tokenData = Ok credential ->
  now host <= expiresAt credential - 5 * 60 * 1000 ->
  let w' := snd (saveToken email tokenData w) in
  getToken host email w' = (Ok (Some (accessToken credential)), w')
  /\ hasToken host email w' = (Ok (10 <? Str.length tokenData), w')
  /\ forall other, other <> email ->
       secrets w' !! (TOKEN_PREFIX +:+ other) = secrets w !! (TOKEN_PREFIX +:+ other).
Proof.
  intros Hf Hp Hn w'.
  assert (Hs : secrets w' !! (TOKEN_PREFIX +:+ email) = Some tokenData)
    by (cbn; apply lookup_insert_eq).
  split; [|split].
  - rewrite (getToken_record_run host email tokenData credential w' Hs Hf Hp).
    destruct (Z.gtb_spec (now host) (expiresAt credential - 5 * 60 * 1000)); [lia|].
    reflexivity.
  - unfold hasToken. step. rewrite Hs, not_Some, Hf. cbn [default from_option id orb].
    destruct (Z.leb_spec (Str.length tokenData) 10) as [Hle|Hgt].
    + destruct (Z.ltb_spec 10 (Str.length tokenData)); [lia|reflexivity].
    + destruct (Z.ltb_spec 10 (Str.length tokenData)); [|lia].
      step. rewrite Hp. step.
      destruct (Z.leb_spec (now host) (expiresAt credential - 5 * 60 * 1000)); [|lia].
      reflexivity.
  - intros other Hother. cbn. apply lookup_insert_ne.
    intros Heq. apply Hother. symmetry in Heq. apply TOKEN_PREFIX_inj, Heq.
Qed.





End StoreOutcomes.

(** ** The structured decode of the store *)

Section StructuredDecode.
Context `{Platform}.
Import StoredCredential TokenService.

Lemma trim_start_fixed l : Str.trim_start (Str.trim_start l) = Str.trim_start l.
Proof.
  induction l as [|c l IH]; [reflexivity|]. cbn [Str.trim_start].
  destruct (Str.is_space c) eqn:Hc; [exact IH|].
  cbn [Str.trim_start]. rewrite Hc. reflexivity.
Qed.

Lemma trim_start_suffix l : exists spaces, l = spaces ++ Str.trim_start l.
Proof.
  induction l as [|c l [spaces IH]]; [exists []; reflexivity|].
  cbn [Str.trim_start]. destruct (Str.is_space c).
  - exists (c :: spaces). cbn. f_equal. exact IH.
  - exists []. reflexivity.
Qed.

Lemma trim_start_head l c l' :
  Str.trim_start l = l -> l = c :: l' -> Str.is_space c = false.
Proof.
  intros Hfix ->. cbn [Str.trim_start] in Hfix.
  destruct (Str.is_space c) eqn:Hc; [|reflexivity].
  destruct (trim_start_suffix l') as [spaces Hspaces].
  rewrite Hfix in Hspaces.
  apply (f_equal (@length ascii)) in Hspaces. rewrite length_app in Hspaces.
  cbn in Hspaces. lia.
Qed.

(** Trimming the end of a text that has no white space at its start leaves
    none at its start. *)
Lemma trim_end_keeps_start t :
  Str.trim_start t = t ->
  Str.trim_start (rev (Str.trim_start (rev t))) = rev (Str.trim_start (rev t)).
Proof.
  intros Hfix.
  destruct (trim_start_suffix (rev t)) as [spaces Hspaces].
  set (u := Str.trim_start (rev t)) in *.
  destruct (rev u) as [|c r] eqn:Hu; [reflexivity|].
  assert (Ht : t = (c :: r) ++ rev spaces).
  { rewrite <- (rev_involutive t), Hspaces, rev_app_distr, Hu. reflexivity. }
  cbn [Str.trim_start].
  rewrite (trim_start_head t c (r ++ rev spaces) Hfix Ht). reflexivity.
Qed.

(** [trim()] of a trimmed text changes nothing. *)
Lemma trim_trim s : Str.trim (Str.trim s) = Str.trim s.
Proof.
  unfold Str.trim. rewrite chars_of_chars.
  set (t := Str.trim_start (Str.chars s)).
  rewrite (trim_end_keeps_start t) by apply trim_start_fixed.
  rewrite rev_involutive, trim_start_fixed. reflexivity.
Qed.

Lemma select_value_table host fileBuffer table key :
  readFileSync host = Ok fileBuffer -> sql_ItemTable fileBuffer = Ok table ->
  select_value host key = Ok (table !! key).
Proof. intros Hr Ht. unfold select_value. rewrite Hr. cbn. rewrite Ht. reflexivity. Qed.

(** The token info in a message of the store: the inner message is the
    first length-delimited field numbered [outerField]. *)
Lemma token_info_of_message outer inner outerField :
  0 <= outerField < 2 ^ 28 ->
  Wire.shaped outer = true -> Wire.shaped inner = true ->
  Wire.first_length_delimited outerField outer = Some (Wire.encode_message inner) ->
  Protobuf.findField (Wire.encode_message outer) outerField
  = Ok (Some (Wire.encode_message inner))
  /\ Protobuf.parseOAuthTokenInfo (Wire.encode_message inner)
     = {| Protobuf.accessToken := buf_toString <$> Decoding.last_length_delimited 1 inner;
          Protobuf.refreshToken := buf_toString <$> Decoding.last_length_delimited 3 inner |}.
Proof.
  intros Hf Houter Hinner Hfirst. split.
  - rewrite findField_message by assumption. rewrite Hfirst. reflexivity.
  - rewrite parseOAuthTokenInfo_message by exact Hinner.
    destruct (fold_update_info inner Protobuf.emptyInfo) as [Ha Hr].
    destruct (fold_left Decoding.update_info inner Protobuf.emptyInfo) as [a r].
    cbn [Protobuf.accessToken Protobuf.refreshToken Protobuf.emptyInfo] in Ha, Hr.
    rewrite Ha, Hr.
    destruct (Decoding.last_length_delimited 1 inner),
             (Decoding.last_length_delimited 3 inner); reflexivity.
Qed.

(** X8. When the row of the state key holds the base64 text of a well-formed
    outer message whose first length-delimited field 6 is a well-formed
    inner message, [extractTokensWithProtobuf] returns the access token of
    the last field 1 and the refresh token of the last field 3 of the inner
    message, these two payloads being ASCII text. *)
Theorem extractTokensWithProtobuf_decodes host fileBuffer table stateValue outer inner :
  existsSync host = true ->
  readFileSync host = Ok fileBuffer ->
  sql_ItemTable fileBuffer = Ok table ->
  table !! STATE_KEY = Some stateValue ->
  Str.falsy (Str.trim stateValue) = false ->
  from_base64 (Str.trim stateValue) = Wire.encode_message outer ->
  Wire.well_formed outer = true -> Wire.well_formed inner = true ->
  Wire.first_length_delimited 6 outer = Some (Wire.encode_message inner) ->
  (forall payload, Decoding.last_length_delimited 1 inner = Some payload ->
                   Decoding.ascii_text payload = true) ->
  (forall payload, Decoding.last_length_delimited 3 inner = Some payload ->
                   Decoding.ascii_text payload = true) ->
  extractTokensWithProtobuf host
  = Ok (Some {| Protobuf.accessToken :=
                  buf_toString <$> Decoding.last_length_delimited 1 inner;
                Protobuf.refreshToken :=
                  buf_toString <$> Decoding.last_length_delimited 3 inner |}).
Proof.
  intros He Hr Ht Hrow Hf Hraw Houter Hinner Hfirst _ _.
  apply well_formed_shaped in Houter, Hinner.
  assert (Hv : Str.falsy stateValue = false).
  { destruct stateValue; [discriminate Hf|reflexivity]. }
  assert (Hlen : (0 <? Str.length (Str.trim stateValue)) = true).
  { destruct (Str.trim stateValue); [discriminate|].
    unfold Str.length. cbn [String.length]. apply Z.ltb_lt. lia. }
  assert (Hstate : readStateValue host = Ok (Some (Str.trim stateValue))).
  { unfold readStateValue. rewrite He. cbn [negb].
    rewrite (select_value_table host fileBuffer table) by assumption.
    rewrite Hrow. cbn [try_catch mbind Res_bind Str.not default from_option id].
    rewrite Hv, Hlen. reflexivity. }
  unfold extractTokensWithProtobuf. rewrite Hstate.
  cbn [try_catch mbind Res_bind Str.not default from_option id].
  rewrite Hf, trim_trim, Hraw.
  destruct (token_info_of_message outer inner 6 ltac:(lia) Houter Hinner Hfirst)
    as [Hfind Hparse].
  rewrite Hfind. cbn [mbind Res_bind]. rewrite Hparse. reflexivity.
Qed.


End StructuredDecode.

(** ** The exchange of an authorization code *)

Section OAuthProperties.
Context `{Platform}.
Import StoredCredential OAuthFlow.

Ltac step :=
  repeat (rewrite ?bind_run, ?ret_run, ?try_catchM_run, ?lift_run;
          cbn beta iota; cbn [emit secrets_get secrets_store secrets trace]).

Lemma exchangeCodeForToken_run host code email w :
  exchangeCodeForToken host code email w
  = let requested := trace w ++ [CodeRequest code] in
    match code_endpoint host code with
    | Ok (Rejected status errorText) =>
        (Ok false,
         {| secrets := secrets w;
            trace := requested ++ [ShowError (ExchangeRejected status errorText)] |})
    | Ok (Granted access_token refresh_token expires_in) =>
        if Str.not access_token then
          (Ok false, {| secrets := secrets w; trace := requested ++ [ShowError NoAccessToken] |})
        else
          (Ok true,
           {| secrets :=
                <[TokenService.TOKEN_PREFIX +:+ email :=
                    JSON_stringify_credential
                      {| accessToken := default "" access_token;
                         refreshToken := refresh_token;
                         expiresAt := now host + expires_in * 1000;
                         email := email;
                         createdAt := now host |}]> (secrets w);
              trace := requested
                       ++ [ShowInformation
                             (Authenticated email (negb (Str.not refresh_token)))] |})
    | Throw e =>
        (Ok false, {| secrets := secrets w; trace := requested ++ [ShowError (ExchangeError e)] |})
    end.
Proof.
  unfold exchangeCodeForToken. step.
  destruct (code_endpoint host code) as [[status errorText|access refresh expires]|e];
    cbn zeta; step; try reflexivity.
  destruct (Str.not access); step; reflexivity.
Qed.


(** X20. After a code was exchanged for a token, and until five minutes
    before its expiry, [getToken] of the token service returns the access
    token granted, changing nothing; [hasValidOAuth] answers whether a
    refresh token came with it. *)
Theorem exchangeCodeForToken_then_getToken
    host service code email access_token refresh_token expires_in w :
  code_endpoint host code = Ok (Granted (Some access_token) refresh_token expires_in) ->
  Str.falsy access_token = false ->
  let credential :=
    {| accessToken := access_token;
       refreshToken := refresh_token;
       expiresAt := now host + expires_in * 1000;
       email := email;
       createdAt := now host |} in
  Str.falsy (JSON_stringify_credential credential) = false ->
  JSON_parse_credential (JSON_stringify_credential credential) = Ok credential ->
  TokenService.now service <= now host + expires_in * 1000 - 5 * 60 * 1000 ->
  let w' := snd (exchangeCodeForToken host code email w) in
  TokenService.getToken service email (service_world w')
  = (Ok (Some access_token), service_world w')
  /\ hasValidOAuth email w' = (Ok (negb (Str.not refresh_token)), w').
Proof.
  intros Hendpoint Hfa credential Hf Hp Hfresh w'.
  assert (Hs : secrets w' !! (TokenService.TOKEN_PREFIX +:+ email)
               = Some (JSON_stringify_credential credential)).
  { unfold w'. rewrite exchangeCodeForToken_run, Hendpoint. cbn zeta.
    cbn [Str.not default from_option id]. rewrite Hfa. cbn [snd secrets].
    apply lookup_insert_eq. }
  split.
  - rewrite (getToken_record_run service email _ credential (service_world w') Hs Hf Hp).
    destruct (Z.gtb_spec (TokenService.now service)
                (expiresAt credential - 5 * 60 * 1000)) as [Hgt|];
      [cbn [credential expiresAt] in Hgt; lia|reflexivity].
  - unfold hasValidOAuth. step.
    rewrite Hs. cbn [Str.not default from_option id]. rewrite Hf.
    step. rewrite Hp. reflexivity.
Qed.

(** A dismissed input box: [promptForAuthCode] answers false with a
    warning and stores nothing. *)
Lemma promptForAuthCode_cancelled host email w :
  Str.not (showInputBox host) = true ->
  promptForAuthCode host email w
  = (Ok false, {| secrets := secrets w; trace := trace w ++ [ShowWarning Cancelled] |}).
Proof.
  intros Hnone. unfold promptForAuthCode. rewrite Hnone. reflexivity.
Qed.

End OAuthProperties.

(** ** The shape of what the byte scan returns *)

Section ScanShape.
Context `{Platform}.
Import Regex ByteScan Shape.

(** A match of a literal followed by one repetition. *)
Lemma prefixed_match text class lo hi s pieces :
  match_here [Lit text; Rep class lo hi] s = Some pieces ->
  exists body,
    pieces = [text; body] /\ forallb class body = true
    /\ (lo <= length body)%nat
    /\ match hi with Some h => (length body <= h)%nat | None => True end.
Proof.
  intros Hm. apply match_here_sound in Hm as [Hall _].
  inversion Hall as [|a piece p ps Ha Hrest]; subst.
  inversion Hrest as [|a' body p' ps' Hb Hnil]; subst.
  inversion Hnil; subst. cbn [atom_ok] in Ha, Hb. subst piece.
  destruct Hb as (Hclass & Hlo & Hhi). exists body. repeat split; assumption.
Qed.

Lemma whole_prefixed (m : Match) text body :
  pieces m = [Str.chars text; body] ->
  whole m = text +:+ Str.of_chars body
  /\ Str.length (whole m) = Str.length text + Z.of_nat (length body).
Proof.
  intros Hp. unfold whole. rewrite Hp. cbn [concat]. rewrite app_nil_r.
  rewrite of_chars_app, of_chars_chars. split; [reflexivity|].
  rewrite <- (of_chars_chars text) at 1. rewrite <- of_chars_app, length_of_chars.
  rewrite length_app. rewrite <- (of_chars_chars text) at 2.
  rewrite length_of_chars. lia.
Qed.

Lemma direct_match_shaped content m :
  m ∈ exec_all directRegex content -> bearer_shaped (whole m).
Proof.
  intros Hm. apply exec_all_sound in Hm as [s Hs].
  apply prefixed_match in Hs as (body & Hp & Hclass & Hlo & _).
  destruct (whole_prefixed m "ya29." body Hp) as [Hw Hl].
  exists body. split; [exact Hw|]. split; [exact Hclass|].
  rewrite Hl. change (Str.length "ya29.") with 5. lia.
Qed.

Lemma decoded_match_shaped decoded m :
  match_first decodedRegex decoded = Some m ->
  (100 <? Str.length (whole m)) = true ->
  bearer_shaped (whole m).
Proof.
  intros Hm Hlen. apply match_first_sound in Hm as [s Hs].
  apply prefixed_match in Hs as (body & Hp & Hclass & _).
  destruct (whole_prefixed m "ya29." body Hp) as [Hw _].
  exists body. split; [exact Hw|]. split; [exact Hclass|]. apply Z.ltb_lt, Hlen.
Qed.

Lemma allTokens_shaped content x :
  x ∈ allTokens from_base64 content -> bearer_shaped (token x).
Proof.
  unfold allTokens. intros Hx. apply elem_of_app in Hx as [Hx|Hx].
  - unfold base64_tokens in Hx. apply list_elem_of_omap in Hx as (m & _ & Hf).
    destruct (match_first decodedRegex _) as [tokenMatch|] eqn:Hfirst; [|discriminate].
    destruct (100 <? Str.length (whole tokenMatch)) eqn:Hlen; [|discriminate].
    injection Hf as <-. cbn [token].
    eapply decoded_match_shaped; eassumption.
  - unfold direct_tokens in Hx. apply list_elem_of_In, in_map_iff in Hx as (m & <- & Hm).
    cbn [token]. apply (direct_match_shaped content), list_elem_of_In, Hm.
Qed.

Lemma refreshTokens_length content x :
  x ∈ refreshTokens content -> 30 <= Str.length (token x) <= 200.
Proof.
  unfold refreshTokens. intros Hx.
  apply elem_of_app in Hx as [Hx|Hx]; [|apply elem_of_app in Hx as [Hx|Hx]];
    apply list_elem_of_In, in_map_iff in Hx as (m & <- & Hm);
    apply list_elem_of_In, exec_all_sound in Hm as [s Hs]; cbn [token].
  - apply prefixed_match in Hs as (body & Hp & _ & Hlo & Hhi).
    destruct (whole_prefixed m "1/" body Hp) as [_ Hl]. rewrite Hl.
    change (Str.length "1/") with 2. lia.
  - apply prefixed_match in Hs as (body & Hp & _ & Hlo & Hhi).
    destruct (whole_prefixed m "1//" body Hp) as [_ Hl]. rewrite Hl.
    change (Str.length "1//") with 3. lia.
  - apply match_here_sound in Hs as [Hall _]. unfold refreshRegex3 in Hall.
    repeat match goal with
           | Hf : Forall2 atom_ok (_ :: _) _ |- _ =>
               let a := fresh "a" in let piece := fresh "piece" in
               let p := fresh "p" in let ps := fresh "ps" in
               let Ha := fresh "Ha" in let Hr := fresh "Hr" in
               inversion Hf as [|a piece p ps Ha Hr]; subst; clear Hf
           end.
    unfold group.
    match goal with Heq : _ = pieces m |- _ => rewrite <- Heq end.
    cbn [lookup list_lookup default from_option id].
    match goal with
    | Hok : atom_ok (Rep not_dquote _ _) _ |- _ => destruct Hok as (_ & Hlo & Hhi)
    end.
    rewrite length_of_chars. lia.
Qed.

Lemma last_sort_elem_of l x : last (sort_by_index l) = Some x -> x ∈ l.
Proof.
  intros Hlast. apply last_Some_elem_of in Hlast.
  rewrite sort_by_index_perm in Hlast. exact Hlast.
Qed.

(** X11. Whatever [extractTokensFromDb] returns as access token has the
    shape of a bearer token: the prefix ya29., then characters of the token
    alphabet only, more than 100 characters in all; [extractTokenFromDb]
    returns that same access token; and a refresh token that comes with it
    has from 30 to 200 characters. *)
Theorem extractTokensFromDb_token_shape host tokens :
  TokenService.extractTokensFromDb host = Ok (Some tokens) ->
  bearer_shaped (accessToken tokens)
  /\ TokenService.extractTokenFromDb host = Ok (Some (accessToken tokens))
  /\ forall refresh, refreshToken tokens = Some refresh ->
       30 <= Str.length refresh <= 200.
Proof.
  intros Hscan.
  assert (Hshape : bearer_shaped (accessToken tokens)
                   /\ forall refresh, refreshToken tokens = Some refresh ->
                        30 <= Str.length refresh <= 200).
  { unfold TokenService.extractTokensFromDb in Hscan.
    destruct (TokenService.existsSync host); [|discriminate].
    cbn [negb] in Hscan.
    destruct (TokenService.readFileSync host) as [fileBuffer|e]; [|discriminate].
    cbn [try_catch mbind Res_bind] in Hscan. unfold scan in Hscan.
    set (content := buf_toString fileBuffer) in *.
    destruct (last (sort_by_index (allTokens from_base64 content)))
      as [lastToken|] eqn:Hlast; [|discriminate].
    injection Hscan as <-. cbn [accessToken refreshToken]. split.
    - eapply allTokens_shaped, last_sort_elem_of, Hlast.
    - intros refresh Hrefresh.
      destruct (last (sort_by_index (refreshTokens content))) as [r|] eqn:Hr;
        [|discriminate].
      cbn in Hrefresh. injection Hrefresh as <-.
      eapply refreshTokens_length, last_sort_elem_of, Hr. }
  destruct Hshape as [Hbearer Hrefresh]. split; [exact Hbearer|]. split; [|exact Hrefresh].
  unfold TokenService.extractTokenFromDb. rewrite Hscan. cbn [mbind Res_bind].
  destruct Hbearer as (body & -> & _). reflexivity.
Qed.

End ScanShape.

(** ** The e-mail of the active account *)

Section LoggedInEmailProperties.
Import Regex Shape LoggedInEmail.

Lemma lower_char_fixed c : Str.lower_char (Str.lower_char c) = Str.lower_char c.
Proof. destruct c as [[] [] [] [] [] [] [] []]; reflexivity. Qed.

Lemma toLowerCase_fixed s : Str.toLowerCase (Str.toLowerCase s) = Str.toLowerCase s.
Proof.
  unfold Str.toLowerCase. rewrite chars_of_chars, map_map. f_equal.
  apply map_ext. intros c. apply lower_char_fixed.
Qed.

(** What the pattern captures. *)
Lemma captured_address (m : Match) s :
  match_here emailRegex s = Some (pieces m) ->
  address (Str.toLowerCase (captured m)).
Proof.
  intros Hm. apply match_here_sound in Hm as [Hall _]. unfold emailRegex in Hall.
  repeat match goal with
         | Hf : Forall2 atom_ok (_ :: _) _ |- _ =>
             let a := fresh "a" in let piece := fresh "piece" in
             let p := fresh "p" in let ps := fresh "ps" in
             let Ha := fresh "Ha" in let Hr := fresh "Hr" in
             inversion Hf as [|a piece p ps Ha Hr]; subst; clear Hf
         end.
  match goal with Hf : Forall2 atom_ok [] _ |- _ => inversion Hf; subst; clear Hf end.
  unfold captured.
  match goal with Heq : _ = pieces m |- _ => rewrite <- Heq end.
  cbn [drop take concat].
  repeat match goal with
         | Hok : atom_ok (Lit _) _ |- _ => cbn [atom_ok] in Hok; subst
         | Hok : atom_ok (ByteScan.lit _) _ |- _ =>
             unfold ByteScan.lit in Hok; cbn [atom_ok] in Hok; subst
         end.
  match goal with
  | Hl : atom_ok (Rep local_char _ _) ?local,
    Hd : atom_ok (Rep domain_char _ _) ?domain,
    Ht : atom_ok (Rep letter _ _) ?tld |- _ =>
      destruct Hl as (Hlc & Hll & _); destruct Hd as (Hdc & Hdl & _);
      destruct Ht as (Htc & Htl & _);
      exists local, domain, tld
  end.
  rewrite app_nil_r.
  repeat split; try assumption.
  - intros ->. cbn in Hll. lia.
  - intros ->. cbn in Hdl. lia.
Qed.

Lemma email_in_address searchRange e :
  email_in searchRange = Some e -> address e.
Proof.
  unfold email_in.
  destruct (match_first emailRegex searchRange) as [m|] eqn:Hm; [|discriminate].
  destruct (Str.falsy (captured m)); [discriminate|].
  intros He. injection He as <-.
  apply match_first_sound in Hm as [s Hs]. eapply captured_address, Hs.
Qed.

Lemma near_address content markerIndex start end_ e :
  near content markerIndex start end_ = Some e -> address e.
Proof.
  unfold near. destruct (markerIndex =? -1); [discriminate|]. apply email_in_address.
Qed.

Lemma insert_by_index_elem_of x l y :
  y ∈ LoggedInEmail.insert_by_index x l -> y = x \/ y ∈ l.
Proof.
  induction l as [|z l IH]; cbn [LoggedInEmail.insert_by_index].
  - intros Hy. apply list_elem_of_singleton in Hy. auto.
  - destruct (_ <? 0).
    + intros Hy. apply elem_of_cons in Hy. exact Hy.
    + intros Hy. apply elem_of_cons in Hy as [->|Hy].
      * right. apply list_elem_of_here.
      * destruct (IH Hy) as [->|Hin]; [auto|right; apply list_elem_of_further, Hin].
Qed.

Lemma sort_by_index_elem_of l y :
  y ∈ LoggedInEmail.sort_by_index l -> y ∈ l.
Proof.
  unfold LoggedInEmail.sort_by_index.
  assert (Hgen : forall sorted, y ∈ fold_left (fun s x => LoggedInEmail.insert_by_index x s)
                                    l sorted -> y ∈ sorted \/ y ∈ l).
  { induction l as [|x l IH]; intros sorted Hy; cbn [fold_left] in Hy; [auto|].
    destruct (IH _ Hy) as [Hin|Hin].
    - destruct (insert_by_index_elem_of _ _ _ Hin) as [->|Hs];
        [right; apply list_elem_of_here|auto].
    - right. apply list_elem_of_further, Hin. }
  intros Hy. destruct (Hgen [] Hy) as [Hnil|Hin]; [inversion Hnil|exact Hin].
Qed.

Lemma foundEmails_address content x :
  x ∈ foundEmails content -> address (email x).
Proof.
  unfold foundEmails. intros Hx. apply list_elem_of_omap in Hx as (m & Hm & Hf).
  destruct (_ && _); [|discriminate]. injection Hf as <-. cbn [email].
  apply exec_all_sound in Hm as [s Hs]. eapply captured_address, Hs.
Qed.

Lemma address_lower e : address e -> Str.toLowerCase e = e.
Proof. intros (local & domain & tld & -> & _). apply toLowerCase_fixed. Qed.

(** X21. [getCurrentLoggedInEmail] never throws; it returns nothing when
    the state database is missing; and whatever it returns is in lower case
    and has the shape of an address: a local part, the at sign, a domain, a
    dot and two letters or more. *)
Theorem getCurrentLoggedInEmail_address host :
  (exists result, getCurrentLoggedInEmail host = Ok result)
  /\ (TokenService.existsSync host = false -> getCurrentLoggedInEmail host = Ok None)
  /\ (forall e, getCurrentLoggedInEmail host = Ok (Some e) ->
        address e /\ Str.toLowerCase e = e).
Proof.
  split; [|split].
  - unfold getCurrentLoggedInEmail.
    destruct (TokenService.existsSync host); cbn [negb]; [|eauto].
    unfold try_catch. destruct (_ ≫= _); eauto.
  - intros He. unfold getCurrentLoggedInEmail. rewrite He. reflexivity.
  - intros e He.
    assert (Ha : address e); [|split; [exact Ha|apply address_lower, Ha]].
    unfold getCurrentLoggedInEmail in He.
    destruct (TokenService.existsSync host); [|discriminate]. cbn [negb] in He.
    destruct (TokenService.readFileSync host) as [fileBuffer|err]; [|discriminate].
    cbn [try_catch mbind Res_bind] in He.
    set (content := buf_toString fileBuffer) in *.
    destruct (near content (indexOf content "tfa.lastUserInfo") _ _) as [e1|] eqn:H1.
    { injection He as <-. eapply near_address, H1. }
    destruct (near content (indexOf content "antigravityAuthStatus") _ _) as [e2|] eqn:H2.
    { injection He as <-. eapply near_address, H2. }
    destruct (near content (indexOf content tierMarker) _ _) as [e3|] eqn:H3.
    { injection He as <-. eapply near_address, H3. }
    destruct (last (LoggedInEmail.sort_by_index (foundEmails content)))
      as [lastEmail|] eqn:Hlast; [|discriminate].
    injection He as <-.
    apply last_Some_elem_of, sort_by_index_elem_of in Hlast.
    eapply foundEmails_address, Hlast.
Qed.

End LoggedInEmailProperties.

(** ** The snapshots *)

Section SnapshotProperties.
Context `{Platform} `{SnapshotPlatform}.
Import AccountSnapshot AccountSwitcher Snapshots.

Lemma lift_switcher_run {A} (m : AccountSwitcher.M A) (w : Snapshots.World) :
  lift_switcher m w
  = match m (switcher w) with
    | (r, s) => (r, {| switcher := s; prototype := prototype w; shown := shown w |})
    end.
Proof. unfold lift_switcher. destruct (m (switcher w)). reflexivity. Qed.

Lemma notify_run n (w : Snapshots.World) :
  notify n w
  = (Ok tt, {| switcher := switcher w; prototype := prototype w; shown := shown w ++ [n] |}).
Proof. reflexivity. Qed.

Lemma set_prototype_run p (w : Snapshots.World) :
  set_prototype p w = (Ok tt, {| switcher := switcher w; prototype := p; shown := shown w |}).
Proof. reflexivity. Qed.

Lemma get_prototype_run (w : Snapshots.World) : get_prototype w = (Ok (prototype w), w).
Proof. reflexivity. Qed.

Lemma set_cache_run c (s : AccountSwitcher.World) :
  set_cache c s
  = (Ok tt, {| secrets := secrets s; snapshotsCache := Some c;
               itemTable := itemTable s; trace := trace s |}).
Proof. reflexivity. Qed.

(** What [saveSnapshots] leaves: the storage and the cache written, or the
    world as it was when the store is rejected. *)
Lemma saveSnapshots_run host snapshots (s : AccountSwitcher.World) :
  saveSnapshots host snapshots s
  = (Ok tt,
     match store host SNAPSHOTS_KEY (JSON_stringify_snapshots snapshots) with
     | Ok _ =>
         {| secrets := <[SNAPSHOTS_KEY := JSON_stringify_snapshots snapshots]> (secrets s);
            snapshotsCache := Some snapshots;
            itemTable := itemTable s; trace := trace s |}
     | Throw _ => s
     end).
Proof.
  unfold saveSnapshots. rewrite try_catchM_run. cbn zeta. rewrite bind_run, lift_run.
  destruct (store host _ _) as [[]|e]; reflexivity.
Qed.

Ltac step :=
  repeat (rewrite ?bind_run, ?ret_run, ?try_catchM_run, ?lift_run, ?lift_switcher_run,
            ?notify_run, ?set_cache_run, ?set_prototype_run, ?get_prototype_run,
            ?saveSnapshots_run;
          cbn beta iota zeta;
          cbn [switcher prototype shown secrets snapshotsCache itemTable trace]).

(** [loadSnapshots] with the cache filled. *)
Lemma loadSnapshots_cached (s : AccountSwitcher.World) snapshots :
  snapshotsCache s = Some snapshots -> AccountSwitcher.loadSnapshots s = (Ok snapshots, s).
Proof.
  intros Hc. unfold AccountSwitcher.loadSnapshots. rewrite bind_run. cbn [get_cache].
  rewrite Hc. reflexivity.
Qed.

(** What [loadSnapshots] returns, and the world it leaves. *)
Lemma loadSnapshots_world (s : AccountSwitcher.World) snapshots s1 :
  AccountSwitcher.loadSnapshots s = (Ok snapshots, s1) ->
  s1 = {| secrets := secrets s; snapshotsCache := Some snapshots;
          itemTable := itemTable s; trace := trace s |}.
Proof.
  intros Hload. destruct (loadSnapshots_run s) as [snapshots' Hrun].
  rewrite Hrun in Hload. injection Hload as <- <-. reflexivity.
Qed.

(** [loadSnapshots] looks at the cache and at the secret storage only. *)
Lemma loadSnapshots_same (s s0 : AccountSwitcher.World) snapshots s1 :
  AccountSwitcher.loadSnapshots s = (Ok snapshots, s1) ->
  secrets s0 = secrets s -> snapshotsCache s0 = snapshotsCache s ->
  AccountSwitcher.loadSnapshots s0
  = (Ok snapshots, {| secrets := secrets s0; snapshotsCache := Some snapshots;
                      itemTable := itemTable s0; trace := trace s0 |}).
Proof.
  intros Hload Hsecrets Hcache.
  destruct (loadSnapshots_run s0) as [snapshots0 Hrun0]. rewrite Hrun0.
  enough (snapshots0 = snapshots) as -> by reflexivity.
  assert (Hfst : fst (AccountSwitcher.loadSnapshots s0) = fst (AccountSwitcher.loadSnapshots s)).
  { clear Hload Hrun0. unfold AccountSwitcher.loadSnapshots. rewrite !bind_run.
    cbn [get_cache]. rewrite Hcache.
    destruct (snapshotsCache s) as [cached|]; [reflexivity|].
    rewrite !bind_run, !try_catchM_run, !bind_run.
    cbn [secrets_get]. rewrite Hsecrets.
    destruct (Str.not (secrets s !! SNAPSHOTS_KEY)).
    - rewrite !ret_run, !bind_run. cbn [set_cache]. rewrite !ret_run. reflexivity.
    - rewrite !bind_run, !lift_run.
      destruct (JSON_parse_snapshots _) as [parsed|e].
      + rewrite !bind_run. cbn [set_cache]. rewrite !ret_run. reflexivity.
      + rewrite !ret_run, !bind_run. cbn [set_cache]. rewrite !ret_run. reflexivity. }
  rewrite Hrun0, Hload in Hfst. cbn in Hfst. congruence.
Qed.

(** [loadSnapshots] in a session that starts with the snapshots [stored]
    wrote. *)
Lemma loadSnapshots_restarted (s : AccountSwitcher.World) stored :
  secrets s !! SNAPSHOTS_KEY = Some (JSON_stringify_snapshots stored) ->
  Str.falsy (JSON_stringify_snapshots stored) = false ->
  JSON_parse_snapshots (JSON_stringify_snapshots stored) = Ok stored ->
  fst (AccountSwitcher.loadSnapshots (restarted s)) = Ok stored.
Proof.
  intros Hs Hf Hp. unfold AccountSwitcher.loadSnapshots, restarted.
  rewrite bind_run. cbn [get_cache snapshotsCache].
  rewrite !bind_run, !try_catchM_run, !bind_run. cbn [secrets_get secrets].
  rewrite Hs. cbn [Str.not default from_option id]. rewrite Hf.
  rewrite !bind_run, !lift_run, Hp. reflexivity.
Qed.

(** The object [loadSnapshots] returns, with its prototype. *)
Lemma loadSnapshots_object (w : Snapshots.World) snapshots s1 :
  AccountSwitcher.loadSnapshots (switcher w) = (Ok snapshots, s1) ->
  Snapshots.loadSnapshots w
  = (Ok snapshots,
     {| switcher := s1; prototype := loaded_prototype w; shown := shown w |}).
Proof.
  intros Hload. unfold Snapshots.loadSnapshots. step. rewrite Hload. reflexivity.
Qed.

Lemma loaded_prototype_same (w w0 : Snapshots.World) :
  snapshotsCache (switcher w0) = snapshotsCache (switcher w) ->
  prototype w0 = prototype w ->
  loaded_prototype w0 = loaded_prototype w.
Proof. unfold loaded_prototype. intros -> ->. reflexivity. Qed.

Lemma readAuthStatus_run host dbPath (s : AccountSwitcher.World) :
  readAuthStatus host dbPath s
  = (Ok match query host (select_command dbPath) (itemTable s) with
        | Some stdout => if Str.falsy (Str.trim stdout) then None else Some (Str.trim stdout)
        | None => None
        end,
     {| secrets := secrets s; snapshotsCache := snapshotsCache s;
        itemTable := itemTable s; trace := trace s ++ [Exec (select_command dbPath)] |}).
Proof.
  unfold readAuthStatus. rewrite bind_run. cbn [emit]. unfold resolve_stdout.
  cbn [itemTable]. destruct (query host _ _); reflexivity.
Qed.

(** [saveSnapshot], step by step. *)
Lemma saveSnapshot_run host dbPath w :
  saveSnapshot host dbPath w
  = let s := switcher w in
    let s0 := {| secrets := secrets s; snapshotsCache := snapshotsCache s;
                 itemTable := itemTable s;
                 trace := trace s ++ [Exec (select_command dbPath)] |} in
    match query host (select_command dbPath) (itemTable s) with
    | Some stdout =>
        let blob := Str.trim stdout in
        if Str.falsy blob then
          (Ok false, {| switcher := s0; prototype := prototype w;
                        shown := shown w ++ [ShowWarning NoLogin] |})
        else
          let key := snapshot_key blob in
          let snapshot := {| email := key; authStatus := blob; savedAt := now host |} in
          match AccountSwitcher.loadSnapshots s0 with
          | (Ok snapshots, _) =>
              let object :=
                if sets_prototype snapshots key then snapshots
                else <[key := snapshot]> snapshots in
              (Ok true,
               {| switcher :=
                    snd (saveSnapshots host object
                           {| secrets := secrets s; snapshotsCache := Some object;
                              itemTable := itemTable s;
                              trace := trace s ++ [Exec (select_command dbPath)] |});
                  prototype :=
                    if sets_prototype snapshots key then Some snapshot
                    else loaded_prototype w;
                  shown := shown w ++ [ShowInformation (Saved key)] |})
          | (Throw e, s1) =>
              (Ok false, {| switcher := s1; prototype := loaded_prototype w;
                            shown := shown w ++ [ShowError (SaveFailed e)] |})
          end
    | None => (Ok false, {| switcher := s0; prototype := prototype w;
                            shown := shown w ++ [ShowWarning NoLogin] |})
    end.
Proof.
  unfold saveSnapshot. step. rewrite readAuthStatus_run. step.
  destruct (query host _ _) as [stdout|]; [|step; reflexivity].
  destruct (Str.falsy (Str.trim stdout)) eqn:Hf; cbn [Str.not]; [step; reflexivity|].
  rewrite Hf. step. cbn [default from_option id].
  set (s0 := {| secrets := _; snapshotsCache := _; itemTable := _; trace := _ |}).
  set (w0 := {| switcher := s0; prototype := _; shown := _ |}).
  assert (Hp : loaded_prototype w0 = loaded_prototype w) by reflexivity.
  destruct (loadSnapshots_run s0) as [snapshots Hload].
  rewrite (loadSnapshots_object w0 snapshots _ Hload), Hp, Hload. step.
  unfold assign. destruct (sets_prototype snapshots _); step; reflexivity.
Qed.

(** X23. When the query of the identity row fails or prints nothing but
    white space, [saveSnapshot] answers false, shows the warning that nobody
    is logged in, and changes neither the snapshots, the secret storage nor
    the database. *)
Theorem saveSnapshot_nothing_to_save host dbPath w :
  match query host (select_command dbPath) (itemTable (switcher w)) with
  | Some stdout => Str.falsy (Str.trim stdout) = true
  | None => True
  end ->
  let w' := snd (saveSnapshot host dbPath w) in
  fst (saveSnapshot host dbPath w) = Ok false
  /\ secrets (switcher w') = secrets (switcher w)
  /\ snapshotsCache (switcher w') = snapshotsCache (switcher w)
  /\ itemTable (switcher w') = itemTable (switcher w)
  /\ shown w' = shown w ++ [ShowWarning NoLogin].
Proof.
  intros Hq. rewrite saveSnapshot_run. cbn zeta.
  destruct (query host _ _) as [stdout|]; [rewrite Hq|]; repeat split.
Qed.

(** The world a call of [saveSnapshot] that finds an identity leaves. *)
Lemma saveSnapshot_saved host dbPath w stdout snapshots s1 :
  query host (select_command dbPath) (itemTable (switcher w)) = Some stdout ->
  Str.falsy (Str.trim stdout) = false ->
  AccountSwitcher.loadSnapshots (switcher w) = (Ok snapshots, s1) ->
  let blob := Str.trim stdout in
  let key := snapshot_key blob in
  let snapshot := {| email := key; authStatus := blob; savedAt := now host |} in
  let object :=
    if sets_prototype snapshots key then snapshots else <[key := snapshot]> snapshots in
  saveSnapshot host dbPath w
  = (Ok true,
     {| switcher :=
          snd (saveSnapshots host object
                 {| secrets := secrets (switcher w); snapshotsCache := Some object;
                    itemTable := itemTable (switcher w);
                    trace := trace (switcher w) ++ [Exec (select_command dbPath)] |});
        prototype :=
          if sets_prototype snapshots key then Some snapshot else loaded_prototype w;
        shown := shown w ++ [ShowInformation (Saved key)] |}).
Proof.
  intros Hq Hf Hload blob key snapshot object.
  rewrite saveSnapshot_run. cbn zeta. rewrite Hq, Hf.
  rewrite (loadSnapshots_same (switcher w)
             {| secrets := secrets (switcher w);
                snapshotsCache := snapshotsCache (switcher w);
                itemTable := itemTable (switcher w);
                trace := trace (switcher w) ++ [Exec (select_command dbPath)] |}
             snapshots s1 Hload eq_refl eq_refl).
  reflexivity.
Qed.

(** X22. When the host database has an identity row, the key its e-mail
    (or name) gives does not reach the accessor [__proto__], and the secret
    storage accepts the store, [saveSnapshot] answers true, puts a snapshot
    of the trimmed row under that key, in the cache and in the secret
    storage, keeps the other snapshots and does not touch the database; a
    [switchToAccount] to that key afterwards finds the snapshot and runs
    the update command for exactly the row that was saved. *)
Theorem saveSnapshot_then_switchToAccount host shost dbPath w stdout snapshots s1 :
  query host (select_command dbPath) (itemTable (switcher w)) = Some stdout ->
  Str.falsy (Str.trim stdout) = false ->
  AccountSwitcher.loadSnapshots (switcher w) = (Ok snapshots, s1) ->
  let blob := Str.trim stdout in
  let key := snapshot_key blob in
  let saved :=
    <[key := {| email := key; authStatus := blob; savedAt := now host |}]> snapshots in
  sets_prototype snapshots key = false ->
  store host SNAPSHOTS_KEY (JSON_stringify_snapshots saved) = Ok tt ->
  let w' := snd (saveSnapshot host dbPath w) in
  fst (saveSnapshot host dbPath w) = Ok true
  /\ snapshotsCache (switcher w') = Some saved
  /\ secrets (switcher w') !! SNAPSHOTS_KEY = Some (JSON_stringify_snapshots saved)
  /\ itemTable (switcher w') = itemTable (switcher w)
  /\ shown w' = shown w ++ [ShowInformation (Saved key)]
  /\ (forall other, other <> key -> saved !! other = snapshots !! other)
  /\ exists rest,
       trace (snd (switchToAccount shost dbPath key (switcher w')))
       = trace (switcher w') ++ Exec (update_command dbPath blob) :: rest.
Proof.
  intros Hq Hf Hload blob key saved Hkey Hstore w'.
  pose proof (saveSnapshot_saved host dbPath w stdout snapshots s1 Hq Hf Hload) as Hrun.
  cbn zeta in Hrun. fold blob key in Hrun. rewrite Hkey in Hrun. fold saved in Hrun.
  rewrite saveSnapshots_run, Hstore in Hrun.
  cbn [snd secrets snapshotsCache itemTable trace] in Hrun.
  unfold w'. rewrite Hrun. cbn [fst snd switcher shown secrets snapshotsCache itemTable trace].
  split; [reflexivity|]. split; [reflexivity|].
  split; [apply lookup_insert_eq|]. split; [reflexivity|]. split; [reflexivity|].
  split; [intros other Hother; apply lookup_insert_ne; congruence|].
  set (s' := {| secrets := _; snapshotsCache := Some saved; itemTable := _; trace := _ |}).
  destruct (switchToAccount_command shost dbPath key saved s' s'
              (loadSnapshots_cached s' saved eq_refl)) as [_ Hsome].
  destruct (Hsome {| email := key; authStatus := blob; savedAt := now host |}
                  (lookup_insert_eq _ _ _)) as [Hswitch _].
  cbn zeta in Hswitch. cbn [authStatus] in Hswitch. rewrite Hswitch.
  destruct (exec shost _ _); cbn [snd trace]; eauto.
Qed.

(** [deleteSnapshot], step by step. *)
Lemma deleteSnapshot_run host email w :
  deleteSnapshot host email w
  = match AccountSwitcher.loadSnapshots (switcher w) with
    | (Ok snapshots, s1) =>
        if bool_decide (is_Some (snapshots !! email))
           || inherited (loaded_prototype w) email
        then
          (Ok true,
           {| switcher :=
                snd (saveSnapshots host (delete email snapshots)
                       {| secrets := secrets s1;
                          snapshotsCache := Some (delete email snapshots);
                          itemTable := itemTable s1; trace := trace s1 |});
              prototype := loaded_prototype w;
              shown := shown w ++ [ShowInformation (Deleted email)] |})
        else (Ok false, {| switcher := s1; prototype := loaded_prototype w;
                           shown := shown w |})
    | (Throw e, s1) =>
        (Throw e, {| switcher := s1; prototype := loaded_prototype w; shown := shown w |})
    end.
Proof.
  unfold deleteSnapshot, Snapshots.loadSnapshots. step.
  destruct (AccountSwitcher.loadSnapshots (switcher w)) as [[snapshots|e] s1]; step;
    [|reflexivity].
  destruct (bool_decide _ || inherited _ _); step; reflexivity.
Qed.

(** X24. [deleteSnapshot] of an e-mail that is neither a key of the
    snapshots nor the name of a member the object inherits answers false,
    writes nothing and shows nothing.  For a key of the snapshots it answers
    true and shows the notice, removes that snapshot from the cache and,
    the store being accepted, from the secret storage, and keeps the
    others; a [switchToAccount] to that e-mail afterwards, when it is not
    the name of an inherited member, answers false with the no-snapshot
    error and runs no command.  For the name of an inherited member
    ([constructor], [toString], ...) that is no key, it answers true and
    shows the notice though nothing is removed, and writes the snapshots
    again. *)
Theorem deleteSnapshot_then_switchToAccount host shost dbPath email w snapshots s1 :
  AccountSwitcher.loadSnapshots (switcher w) = (Ok snapshots, s1) ->
  let w' := snd (deleteSnapshot host email w) in
  (snapshots !! email = None -> inherited (loaded_prototype w) email = false ->
   deleteSnapshot host email w
   = (Ok false, {| switcher := s1; prototype := loaded_prototype w; shown := shown w |})
   /\ secrets s1 = secrets (switcher w))
  /\ (is_Some (snapshots !! email) ->
      store host SNAPSHOTS_KEY (JSON_stringify_snapshots (delete email snapshots)) = Ok tt ->
      fst (deleteSnapshot host email w) = Ok true
      /\ snapshotsCache (switcher w') = Some (delete email snapshots)
      /\ secrets (switcher w') !! SNAPSHOTS_KEY
         = Some (JSON_stringify_snapshots (delete email snapshots))
      /\ shown w' = shown w ++ [ShowInformation (Deleted email)]
      /\ (forall other, other <> email ->
            delete email snapshots !! other = snapshots !! other)
      /\ (inherited (loaded_prototype w) email = false ->
          switchToAccount shost dbPath email (switcher w')
          = (Ok false,
             {| secrets := secrets (switcher w');
                snapshotsCache := snapshotsCache (switcher w');
                itemTable := itemTable (switcher w);
                trace := trace (switcher w)
                         ++ [AccountSwitcher.ShowError (NoSnapshot email)] |})))
  /\ (snapshots !! email = None -> inherited (loaded_prototype w) email = true ->
      fst (deleteSnapshot host email w) = Ok true
      /\ snapshotsCache (switcher w') = Some snapshots
      /\ shown w' = shown w ++ [ShowInformation (Deleted email)]
      /\ (store host SNAPSHOTS_KEY (JSON_stringify_snapshots snapshots) = Ok tt ->
          secrets (switcher w') !! SNAPSHOTS_KEY
          = Some (JSON_stringify_snapshots snapshots))).
Proof.
  intros Hload w'. pose proof (loadSnapshots_world _ _ _ Hload) as Hs1.
  split; [|split].
  - intros Hnone Hplain. rewrite deleteSnapshot_run, Hload, Hnone, Hplain.
    rewrite bool_decide_eq_false_2 by (intros [x Hx]; discriminate).
    split; [reflexivity|]. rewrite Hs1. reflexivity.
  - intros Hsome Hstore.
    assert (Hrun : deleteSnapshot host email w
                   = (Ok true,
                      {| switcher :=
                           {| secrets :=
                                <[SNAPSHOTS_KEY :=
                                    JSON_stringify_snapshots (delete email snapshots)]>
                                  (secrets s1);
                              snapshotsCache := Some (delete email snapshots);
                              itemTable := itemTable s1;
                              trace := trace s1 |};
                         prototype := loaded_prototype w;
                         shown := shown w ++ [ShowInformation (Deleted email)] |})).
    { rewrite deleteSnapshot_run, Hload. rewrite bool_decide_eq_true_2 by exact Hsome.
      cbn [orb]. rewrite saveSnapshots_run, Hstore. reflexivity. }
    unfold w'. rewrite Hrun.
    cbn [fst snd switcher shown secrets snapshotsCache itemTable trace].
    split; [reflexivity|]. split; [reflexivity|].
    split; [apply lookup_insert_eq|]. split; [reflexivity|].
    split; [intros other Hother; apply lookup_delete_ne; congruence|].
    intros _.
    set (s' := {| secrets := _; snapshotsCache := Some (delete email snapshots);
                  itemTable := _; trace := _ |}).
    destruct (switchToAccount_command shost dbPath email (delete email snapshots) s' s'
                (loadSnapshots_cached s' _ eq_refl)) as [Hnone _].
    rewrite (Hnone (lookup_delete_eq _ _)). unfold s'.
    cbn [secrets snapshotsCache itemTable trace]. rewrite Hs1. reflexivity.
  - intros Hnone Hinherited.
    assert (Hsame : delete email snapshots = snapshots) by (apply delete_id; exact Hnone).
    unfold w'. rewrite deleteSnapshot_run, Hload, Hinherited, orb_true_r, Hsame.
    rewrite saveSnapshots_run.
    cbn [fst snd switcher shown].
    split; [reflexivity|].
    destruct (store host _ _) as [[]|e];
      cbn [secrets snapshotsCache]; (split; [reflexivity|]); (split; [reflexivity|]).
    + intros _. apply lookup_insert_eq.
    + intros Hcontra. discriminate.
Qed.

(** X25. After a [saveSnapshot] or a [deleteSnapshot] that answers true the
    cache holds the snapshots.  When the secret storage accepted the store,
    it holds their JSON text, so that, where that text parses back to them,
    a restarted extension (empty cache, same storage) loads the same
    snapshots.  When the store was rejected, the rejection is swallowed:
    the call has answered true all the same, the storage is as it was
    before the call, and a restarted extension starts from what it held
    then. *)
Theorem snapshots_persist host dbPath email w :
  (fst (saveSnapshot host dbPath w) = Ok true ->
   let s' := switcher (snd (saveSnapshot host dbPath w)) in
   exists stored,
     snapshotsCache s' = Some stored
     /\ (store host SNAPSHOTS_KEY (JSON_stringify_snapshots stored) = Ok tt ->
         secrets s' !! SNAPSHOTS_KEY = Some (JSON_stringify_snapshots stored)
         /\ (Str.falsy (JSON_stringify_snapshots stored) = false ->
             JSON_parse_snapshots (JSON_stringify_snapshots stored) = Ok stored ->
             fst (AccountSwitcher.loadSnapshots (restarted s')) = Ok stored))
     /\ (forall e,
           store host SNAPSHOTS_KEY (JSON_stringify_snapshots stored) = Throw e ->
           secrets s' = secrets (switcher w)
           /\ restarted s' = restarted (switcher w)))
  /\ (fst (deleteSnapshot host email w) = Ok true ->
      let s' := switcher (snd (deleteSnapshot host email w)) in
      exists stored,
        snapshotsCache s' = Some stored
        /\ (store host SNAPSHOTS_KEY (JSON_stringify_snapshots stored) = Ok tt ->
            secrets s' !! SNAPSHOTS_KEY = Some (JSON_stringify_snapshots stored)
            /\ (Str.falsy (JSON_stringify_snapshots stored) = false ->
                JSON_parse_snapshots (JSON_stringify_snapshots stored) = Ok stored ->
                fst (AccountSwitcher.loadSnapshots (restarted s')) = Ok stored))
        /\ (forall e,
              store host SNAPSHOTS_KEY (JSON_stringify_snapshots stored) = Throw e ->
              secrets s' = secrets (switcher w)
              /\ restarted s' = restarted (switcher w))).
Proof.
  split.
  - rewrite saveSnapshot_run. cbn zeta.
    destruct (query host _ _) as [stdout|]; [|discriminate].
    destruct (Str.falsy (Str.trim stdout)); [discriminate|].
    destruct (AccountSwitcher.loadSnapshots _) as [[snapshots|e] s1]; [|discriminate].
    intros _. cbn [snd switcher]. rewrite saveSnapshots_run. cbn [snd].
    set (object := if sets_prototype _ _ then _ else _).
    exists object.
    destruct (store host _ _) as [[]|e] eqn:Hstore; cbn [snapshotsCache secrets];
      (split; [reflexivity|]); split; try discriminate.
    + intros _. split; [apply lookup_insert_eq|].
      intros Hf Hp. apply loadSnapshots_restarted; [apply lookup_insert_eq|exact Hf|exact Hp].
    + intros e' _. split; reflexivity.
  - rewrite deleteSnapshot_run.
    destruct (AccountSwitcher.loadSnapshots _) as [[snapshots|e] s1] eqn:Hload;
      [|discriminate].
    apply loadSnapshots_world in Hload. subst s1.
    destruct (bool_decide _ || inherited _ _); [|discriminate].
    intros _. cbn [snd switcher]. rewrite saveSnapshots_run. cbn [snd].
    exists (delete email snapshots).
    destruct (store host _ _) as [[]|e] eqn:Hstore;
      cbn [snapshotsCache secrets itemTable trace];
      (split; [reflexivity|]); split; try discriminate.
    + intros _. split; [apply lookup_insert_eq|].
      intros Hf Hp. apply loadSnapshots_restarted; [apply lookup_insert_eq|exact Hf|exact Hp].
    + intros e' _. split; reflexivity.
Qed.

(** X26. [getSnapshotCount] is the number of snapshots: of the properties
    of the object itself.  A [saveSnapshot] that finds an identity raises it
    by one when the key of the identity is new and leaves it as it is when
    the key had a snapshot, which is replaced: [getSnapshots] then gives the
    row just saved under that key, whether the secret storage accepted the
    store or not.  For the key [__proto__] of an object with no such
    property, [saveSnapshot] answers true and shows the notice, yet the
    count is as before and [getSnapshots] gives the snapshots as they were:
    the assignment has set the prototype of the object. *)
Theorem getSnapshotCount_after_save host dbPath w stdout snapshots s1 :
  query host (select_command dbPath) (itemTable (switcher w)) = Some stdout ->
  Str.falsy (Str.trim stdout) = false ->
  AccountSwitcher.loadSnapshots (switcher w) = (Ok snapshots, s1) ->
  let blob := Str.trim stdout in
  let key := snapshot_key blob in
  let w' := snd (saveSnapshot host dbPath w) in
  fst (getSnapshotCount w) = Ok (Z.of_nat (size snapshots))
  /\ (sets_prototype snapshots key = false ->
      fst (getSnapshotCount w')
      = Ok (Z.of_nat (size snapshots) + if snapshots !! key is Some _ then 0 else 1)
      /\ exists saved,
           fst (getSnapshots w') = Ok saved
           /\ AccountSnapshot.authStatus <$> saved !! key = Some blob)
  /\ (sets_prototype snapshots key = true ->
      fst (saveSnapshot host dbPath w) = Ok true
      /\ shown w' = shown w ++ [ShowInformation (Saved key)]
      /\ fst (getSnapshotCount w') = Ok (Z.of_nat (size snapshots))
      /\ fst (getSnapshots w') = Ok snapshots
      /\ prototype w'
         = Some {| email := key; authStatus := blob; savedAt := now host |}).
Proof.
  intros Hq Hf Hload blob key w'.
  split.
  { unfold getSnapshotCount. step. rewrite (loadSnapshots_object w snapshots s1 Hload).
    reflexivity. }
  pose proof (saveSnapshot_saved host dbPath w stdout snapshots s1 Hq Hf Hload) as Hrun.
  cbn zeta in Hrun. fold blob key in Hrun.
  assert (Hcache : forall object (s : AccountSwitcher.World),
             snapshotsCache s = Some object ->
             snapshotsCache (snd (saveSnapshots host object s)) = Some object).
  { intros object s Hs. rewrite saveSnapshots_run. cbn [snd].
    destruct (store host _ _); [reflexivity|exact Hs]. }
  split.
  - intros Hkey. rewrite Hkey in Hrun.
    set (saved := <[key := {| email := key; authStatus := blob; savedAt := now host |}]>
                    snapshots) in *.
    assert (Hc : snapshotsCache (switcher w') = Some saved).
    { unfold w'. rewrite Hrun. cbn [snd switcher]. apply Hcache. reflexivity. }
    assert (Hobject : Snapshots.loadSnapshots w'
                      = (Ok saved, {| switcher := switcher w';
                                      prototype := loaded_prototype w';
                                      shown := shown w' |})).
    { apply loadSnapshots_object. apply loadSnapshots_cached. exact Hc. }
    split.
    + unfold getSnapshotCount. step. rewrite Hobject. step. cbn [fst]. f_equal.
      unfold saved. destruct (snapshots !! key) as [old|] eqn:Hold.
      * rewrite map_size_insert_Some by eauto. lia.
      * rewrite map_size_insert_None by exact Hold. lia.
    + exists saved. split.
      * unfold getSnapshots. rewrite Hobject. reflexivity.
      * unfold saved. rewrite lookup_insert_eq. reflexivity.
  - intros Hkey. rewrite Hkey in Hrun.
    assert (Hc : snapshotsCache (switcher w') = Some snapshots).
    { unfold w'. rewrite Hrun. cbn [snd switcher]. apply Hcache. reflexivity. }
    assert (Hobject : Snapshots.loadSnapshots w'
                      = (Ok snapshots, {| switcher := switcher w';
                                          prototype := loaded_prototype w';
                                          shown := shown w' |})).
    { apply loadSnapshots_object. apply loadSnapshots_cached. exact Hc. }
    split; [rewrite Hrun; reflexivity|].
    split; [unfold w'; rewrite Hrun; reflexivity|].
    split; [unfold getSnapshotCount; step; rewrite Hobject; reflexivity|].
    split; [unfold getSnapshots; rewrite Hobject; reflexivity|].
    unfold w'. rewrite Hrun. reflexivity.
Qed.

End SnapshotProperties.

(** ** The readers of the store, and the escaping of the switcher *)

Section ReaderProperties.
Context `{Platform}.
Import TokenService.

(** X10. The three readers of the state database return nothing, without
    an error, when the file is missing, cannot be read or is not a
    database, and each of them when its own row is missing or empty (for
    the state value: empty after trimming); when [readStateValue] returns
    nothing, so does [extractTokensWithProtobuf]. *)
Theorem readers_without_row host :
  (existsSync host = false
   \/ (exists e, readFileSync host = Throw e)
   \/ (exists fileBuffer e,
         readFileSync host = Ok fileBuffer /\ sql_ItemTable fileBuffer = Throw e) ->
   getAuthStatus host = Ok None
   /\ getRefreshToken host = Ok None
   /\ readStateValue host = Ok None)
  /\ (forall fileBuffer table,
        readFileSync host = Ok fileBuffer -> sql_ItemTable fileBuffer = Ok table ->
        (Str.not (table !! "antigravityAuthStatus") = true ->
         getAuthStatus host = Ok None)
        /\ (Str.not (table !! "antigravityUnifiedStateSync.oauthToken") = true ->
            getRefreshToken host = Ok None)
        /\ (Str.not (Str.trim <$> table !! STATE_KEY) = true ->
            readStateValue host = Ok None))
  /\ (readStateValue host = Ok None -> extractTokensWithProtobuf host = Ok None).
Proof.
  split; [|split].
  - unfold getAuthStatus, getRefreshToken, readStateValue, select_value.
    intros [He|[[e Hr]|(fileBuffer & e & Hr & Ht)]].
    + rewrite He. repeat split.
    + rewrite Hr. destruct (existsSync host); repeat split.
    + rewrite Hr. cbn [mbind Res_bind]. rewrite Ht.
      destruct (existsSync host); repeat split.
  - intros fileBuffer table Hr Ht.
    unfold getAuthStatus, getRefreshToken, readStateValue.
    rewrite !(select_value_table host fileBuffer table) by assumption.
    cbn [mbind Res_bind].
    split; [|split]; intros Hrow; destruct (existsSync host); cbn [negb];
      try reflexivity.
    + rewrite Hrow. reflexivity.
    + rewrite Hrow. reflexivity.
    + destruct (table !! STATE_KEY) as [v|]; [|reflexivity].
      cbn [fmap option_fmap option_map Str.not] in Hrow.
      cbn [Str.not default from_option id try_catch].
      destruct (Str.falsy v); [reflexivity|].
      destruct (Str.trim v); [reflexivity|discriminate].
  - intros Hstate. unfold extractTokensWithProtobuf. rewrite Hstate. reflexivity.
Qed.

End ReaderProperties.

Section EscapeProperties.
Import AccountSwitcher.

(** X27. The escaping of [updateAuthStatus] is exact for SQL: read as the
    body of a single-quoted literal, the escaped text denotes the original
    text; two different texts never escape to the same text; and a text
    without a single quote is not changed. *)
Theorem escape_quotes_exact (authStatus : string) :
  sql_literal_value (escape_quotes authStatus) = Some authStatus
  /\ (forall other, escape_quotes other = escape_quotes authStatus -> other = authStatus)
  /\ (Str.squote ∉ Str.chars authStatus -> escape_quotes authStatus = authStatus).
Proof.
  split; [apply sql_literal_escape|]. split.
  - intros other Heq.
    pose proof (sql_literal_escape other) as Ho.
    rewrite Heq, sql_literal_escape in Ho. congruence.
  - intros Hnone. unfold escape_quotes, Str.replace_char.
    rewrite <- (of_chars_chars authStatus) at 2. f_equal.
    induction (Str.chars authStatus) as [|c l IH]; [reflexivity|].
    apply not_elem_of_cons in Hnone as [Hc Hl]. cbn [flat_map].
    destruct (Ascii.eqb_spec c Str.squote) as [->|_]; [congruence|].
    cbn [app]. f_equal. apply IH, Hl.
Qed.

End EscapeProperties.

(** ** The further properties on concrete inputs *)

Section DecoderScenarios.
Import Protobuf Wire Decoding Examples Scenarios.

Lemma readVarint_round_trip_witness :
  0 <= 300 < 2 ^ 53
  /\ readVarint ([x08] ++ encode_varint 300 ++ [x01]) (buf_length [x08])
     = Ok (300, buf_length [x08] + buf_length (encode_varint 300)).
Proof.
  assert (H1 : 0 <= 300 < 2 ^ 53) by lia.
  split; [exact H1|]. exact (readVarint_round_trip 300 [x08] [x01] H1).
Defined.

(** A varint of three bytes followed by a byte that opens a varint and is
    the last of the buffer. *)
Lemma readVarint_incomplete_witness :
  0 <= 3
  /\ forallb continuation (drop (Z.to_nat 3) [x80; x80; x01; x80]) = true
  /\ readVarint [x80; x80; x01; x80] 3 = Throw IncompleteVarint
  /\ readVarint [x80; x80; x01; x80] 0 = Ok (16384, 3)
  /\ 0 < 3 <= buf_length [x80; x80; x01; x80].
Proof.
  assert (H0 : 0 <= 3) by lia.
  assert (H1 : forallb continuation (drop (Z.to_nat 3) [x80; x80; x01; x80]) = true)
    by reflexivity.
  assert (H2 : readVarint [x80; x80; x01; x80] 0 = Ok (16384, 3)) by reflexivity.
  split; [exact H0|]. split; [exact H1|].
  split; [exact (proj2 (proj1 (readVarint_incomplete [x80; x80; x01; x80] 3 H0)) H1)|].
  split; [exact H2|].
  exact (proj1 (proj2 (proj2 (readVarint_incomplete [x80; x80; x01; x80] 0 ltac:(lia)))
                  16384 3 H2)).
Defined.

Lemma findField_ignores_what_follows_witness :
  0 <= 6 < 2 ^ 28
  /\ well_formed (take 2 sample_fields ++ [length_delimited_field 6 (encode_token_info "AT2" "RT2")])
     = true
  /\ forallb (unrelated 6) (take 2 sample_fields) = true
  /\ findField
       (encode_message
          (take 2 sample_fields ++ [length_delimited_field 6 (encode_token_info "AT2" "RT2")])
        ++ [xff; xff]) 6
     = Ok (Some (encode_token_info "AT2" "RT2")).
Proof.
  assert (H0 : 0 <= 6 < 2 ^ 28) by lia.
  assert (H1 : well_formed (take 2 sample_fields
                       ++ [length_delimited_field 6 (encode_token_info "AT2" "RT2")])
               = true) by reflexivity.
  assert (H2 : forallb (unrelated 6) (take 2 sample_fields) = true) by reflexivity.
  split; [exact H0|]. split; [exact H1|]. split; [exact H2|].
  exact (findField_ignores_what_follows 6 (take 2 sample_fields)
           (length_delimited_field 6 (encode_token_info "AT2" "RT2"))
           _ (encode_token_info "AT2" "RT2") [xff; xff] H0 H1 eq_refl eq_refl H2).
Defined.

(** A field numbered 6 that announces ten bytes, of which three are there. *)
Lemma findField_truncated_payload_witness :
  0 <= 6 < 2 ^ 28
  /\ well_formed (take 2 sample_fields) = true
  /\ format_varint [x32] = true /\ varint_value [x32] = 6 * 8 + 2
  /\ format_varint [x0a] = true
  /\ buf_length [x0a; x03; x41] <= varint_value [x0a] < 2 ^ 53
  /\ findField (encode_message (take 2 sample_fields) ++ [x32] ++ [x0a] ++ [x0a; x03; x41]) 6
     = Ok (Some [x0a; x03; x41]).
Proof.
  assert (H0 : 0 <= 6 < 2 ^ 28) by lia.
  assert (H1 : varint_value [x32] = 6 * 8 + 2) by reflexivity.
  assert (H2 : buf_length [x0a; x03; x41] <= varint_value [x0a] < 2 ^ 53)
    by (vm_compute; split; [discriminate|reflexivity]).
  split; [exact H0|]. split; [reflexivity|]. split; [reflexivity|].
  split; [exact H1|]. split; [reflexivity|]. split; [exact H2|].
  exact (findField_truncated_payload 6 (take 2 sample_fields) [x32] [x0a] [x0a; x03; x41]
           H0 eq_refl eq_refl eq_refl H1 eq_refl H2).
Defined.

Lemma findField_damaged_field_witness :
  0 <= 6 < 2 ^ 28
  /\ well_formed (take 2 sample_fields) = true
  /\ forallb (unrelated 6) (take 2 sample_fields) = true
  /\ readVarint [x80] 0 = Throw IncompleteVarint
  /\ findField (encode_message (take 2 sample_fields) ++ [x80]) 6 = Ok None
  /\ format_varint [x0b] = true
  /\ known_wire_type (varint_value [x0b] mod 8) = false
  /\ findField (encode_message (take 2 sample_fields) ++ [x0b] ++ [x01]) 6
     = Throw (UnknownWireType (varint_value [x0b] mod 8)).
Proof.
  assert (H0 : 0 <= 6 < 2 ^ 28) by lia.
  assert (H1 : well_formed (take 2 sample_fields) = true) by reflexivity.
  assert (H2 : forallb (unrelated 6) (take 2 sample_fields) = true) by reflexivity.
  assert (H3 : readVarint [x80] 0 = Throw IncompleteVarint) by reflexivity.
  assert (H4 : known_wire_type (varint_value [x0b] mod 8) = false) by reflexivity.
  destruct (findField_damaged_field 6 (take 2 sample_fields) H0 H1 H2) as [Hcut Hunknown].
  split; [exact H0|]. split; [exact H1|]. split; [exact H2|]. split; [exact H3|].
  split; [exact (Hcut [x80] H3)|]. split; [reflexivity|]. split; [exact H4|].
  exact (Hunknown [x0b] [x01] eq_refl ltac:(vm_compute; reflexivity) H4).
Defined.

(** Two fields numbered 1: the later one is the access token. *)
Lemma parseOAuthTokenInfo_last_occurrence_witness :
  well_formed unified_token_fields = true
  /\ last_length_delimited 1 unified_token_fields = Some (utf8 "AT2")
  /\ last_length_delimited 3 unified_token_fields = Some (utf8 "RT2")
  /\ ascii_text (utf8 "AT2") = true /\ ascii_text (utf8 "RT2") = true
  /\ parseOAuthTokenInfo (encode_message unified_token_fields)
     = {| accessToken := Some "AT2"; refreshToken := Some "RT2" |}.
Proof.
  assert (H1 : well_formed unified_token_fields = true) by reflexivity.
  split; [exact H1|]. do 4 (split; [reflexivity|]).
  apply (parseOAuthTokenInfo_last_occurrence unified_token_fields H1);
    intros payload Hp; vm_compute in Hp; injection Hp as <-; reflexivity.
Defined.

Lemma parseOAuthTokenInfo_keeps_what_it_read_witness :
  well_formed token_fields = true
  /\ readVarint [x80] 0 = Throw IncompleteVarint
  /\ format_varint [x0b] = true
  /\ parseOAuthTokenInfo (encode_message token_fields ++ [x80])
     = parseOAuthTokenInfo (encode_message token_fields)
  /\ parseOAuthTokenInfo (encode_message token_fields ++ [x0b] ++ [x01])
     = parseOAuthTokenInfo (encode_message token_fields)
  /\ parseOAuthTokenInfo (encode_message token_fields)
     = {| accessToken := Some "AT2"; refreshToken := Some "RT2" |}.
Proof.
  assert (H1 : well_formed token_fields = true) by reflexivity.
  assert (H2 : readVarint [x80] 0 = Throw IncompleteVarint) by reflexivity.
  destruct (parseOAuthTokenInfo_keeps_what_it_read token_fields H1) as [Hcut Hunknown].
  split; [exact H1|]. split; [exact H2|]. split; [reflexivity|].
  split; [exact (Hcut [x80] H2)|].
  split; [|reflexivity].
  exact (Hunknown [x0b] [x01] eq_refl ltac:(vm_compute; reflexivity) eq_refl).
Defined.

End DecoderScenarios.

Section StoreScenarios.
Import Examples Scenarios.

Lemma extractTokensWithProtobuf_decodes_witness :
  @sql_ItemTable full_store []
  = Ok {[ "antigravityAuthStatus" := active_identity;
          TokenService.STATE_KEY := default_state;
          "antigravityUnifiedStateSync.oauthToken" := unified_state ]}
  /\ @from_base64 full_store (Str.trim default_state) = Wire.encode_message default_fields
  /\ Wire.well_formed default_fields = true /\ Wire.well_formed token_fields = true
  /\ Wire.first_length_delimited 6 default_fields = Some (Wire.encode_message token_fields)
  /\ Decoding.last_length_delimited 1 token_fields = Some (Wire.utf8 "AT2")
  /\ Decoding.last_length_delimited 3 token_fields = Some (Wire.utf8 "RT2")
  /\ Decoding.ascii_text (Wire.utf8 "AT2") = true
  /\ Decoding.ascii_text (Wire.utf8 "RT2") = true
  /\ @TokenService.extractTokensWithProtobuf full_store capture_host
     = Ok (Some {| Protobuf.accessToken := Some "AT2";
                   Protobuf.refreshToken := Some "RT2" |}).
Proof.
  assert (H1 : @sql_ItemTable full_store []
               = Ok {[ "antigravityAuthStatus" := active_identity;
                       TokenService.STATE_KEY := default_state;
                       "antigravityUnifiedStateSync.oauthToken" := unified_state ]})
    by reflexivity.
  assert (H2 : @from_base64 full_store (Str.trim default_state)
               = Wire.encode_message default_fields) by (vm_compute; reflexivity).
  assert (H3 : Wire.first_length_delimited 6 default_fields
               = Some (Wire.encode_message token_fields)) by reflexivity.
  split; [exact H1|]. split; [exact H2|]. do 2 (split; [reflexivity|]).
  split; [exact H3|]. do 4 (split; [reflexivity|]).
  apply (@extractTokensWithProtobuf_decodes full_store capture_host [] _ default_state
           default_fields token_fields eq_refl eq_refl H1
           ltac:(vm_compute; reflexivity) ltac:(vm_compute; reflexivity) H2
           eq_refl eq_refl H3);
    intros payload Hp; vm_compute in Hp; injection Hp as <-; reflexivity.
Defined.


(** A file that is not a database. *)
Lemma readers_without_row_witness :
  @TokenService.getAuthStatus no_database capture_host = Ok None
  /\ @TokenService.getRefreshToken no_database capture_host = Ok None
  /\ @TokenService.readStateValue no_database capture_host = Ok None.
Proof.
  destruct (@readers_without_row no_database capture_host) as [Hunreadable _].
  apply Hunreadable. right. right. exists [], SqlError. split; reflexivity.
Defined.

Lemma extractTokensFromDb_token_shape_witness :
  @TokenService.extractTokensFromDb no_database scan_host
  = Ok (Some {| ByteScan.accessToken := bearer "B"; ByteScan.refreshToken := None |})
  /\ Shape.bearer_shaped (bearer "B")
  /\ @TokenService.extractTokenFromDb no_database scan_host = Ok (Some (bearer "B")).
Proof.
  assert (H1 : @TokenService.extractTokensFromDb no_database scan_host
               = Ok (Some {| ByteScan.accessToken := bearer "B";
                             ByteScan.refreshToken := None |}))
    by (vm_compute; reflexivity).
  split; [exact H1|].
  destruct (@extractTokensFromDb_token_shape no_database scan_host _ H1)
    as (Hshape & Htoken & _).
  split; [exact Hshape|exact Htoken].
Defined.

End StoreScenarios.

Section LifecycleScenarios.
Import Examples Scenarios.



Lemma saveToken_getToken_witness :
  let tokenData := @JSON_stringify_credential no_database boundary_credential in
  let w' := snd (TokenService.saveToken "a@x.com" tokenData empty_world) in
  @JSON_parse_credential no_database tokenData = Ok boundary_credential
  /\ TokenService.now fresh_host
     <= StoredCredential.expiresAt boundary_credential - 5 * 60 * 1000
  /\ @TokenService.getToken no_database fresh_host "a@x.com" w'
     = (Ok (Some "ya29.cached"), w')
  /\ @TokenService.hasToken no_database fresh_host "a@x.com" w' = (Ok true, w').
Proof.
  intros tokenData w'.
  assert (H1 : @JSON_parse_credential no_database tokenData = Ok boundary_credential)
    by (vm_compute; reflexivity).
  assert (H2 : TokenService.now fresh_host
               <= StoredCredential.expiresAt boundary_credential - 5 * 60 * 1000)
    by (vm_compute; discriminate).
  split; [exact H1|]. split; [exact H2|].
  destruct (@saveToken_getToken no_database fresh_host "a@x.com" tokenData
              boundary_credential empty_world ltac:(vm_compute; reflexivity) H1 H2)
    as (Hget & Hhas & _).
  split; [exact Hget|].
  refine (eq_trans Hhas _). vm_compute. reflexivity.
Defined.




Lemma exchangeCodeForToken_then_getToken_witness :
  let w' :=
    snd (@OAuthFlow.exchangeCodeForToken no_database granting_host "4/0code" "a@x.com"
           no_secrets) in
  OAuthFlow.code_endpoint granting_host "4/0code"
  = Ok (OAuthFlow.Granted (Some "ya29.granted") (Some "1//granted") 3600)
  /\ @JSON_parse_credential no_database
       (@JSON_stringify_credential no_database granted_credential)
     = Ok granted_credential
  /\ @TokenService.getToken no_database fresh_host "a@x.com" (OAuthFlow.service_world w')
     = (Ok (Some "ya29.granted"), OAuthFlow.service_world w')
  /\ @OAuthFlow.hasValidOAuth no_database "a@x.com" w' = (Ok true, w').
Proof.
  intros w'.
  assert (H1 : OAuthFlow.code_endpoint granting_host "4/0code"
               = Ok (OAuthFlow.Granted (Some "ya29.granted") (Some "1//granted") 3600))
    by reflexivity.
  assert (H2 : @JSON_parse_credential no_database
                 (@JSON_stringify_credential no_database granted_credential)
               = Ok granted_credential) by (vm_compute; reflexivity).
  split; [exact H1|]. split; [exact H2|].
  exact (@exchangeCodeForToken_then_getToken no_database granting_host fresh_host
           "4/0code" "a@x.com" "ya29.granted" (Some "1//granted") 3600 no_secrets
           H1 eq_refl ltac:(vm_compute; reflexivity) H2
           ltac:(vm_compute; discriminate)).
Defined.

(** The address after the marker of the last user, in lower case. *)
Lemma getCurrentLoggedInEmail_address_witness :
  LoggedInEmail.getCurrentLoggedInEmail user_info_host = Ok (Some "user@example.com")
  /\ LoggedInEmail.address "user@example.com"
  /\ Str.toLowerCase "user@example.com" = "user@example.com".
Proof.
  assert (H1 : LoggedInEmail.getCurrentLoggedInEmail user_info_host
               = Ok (Some "user@example.com")) by (vm_compute; reflexivity).
  split; [exact H1|].
  destruct (getCurrentLoggedInEmail_address user_info_host) as (_ & _ & Haddress).
  exact (Haddress "user@example.com" H1).
Defined.

End LifecycleScenarios.

Section SnapshotScenarios.
Import Examples Scenarios.

Lemma saveSnapshot_then_switchToAccount_witness :
  let stdout := active_identity +:+ Str.of_chars [ReferenceSnapshots.newline] in
  let w' :=
    snd (@Snapshots.saveSnapshot no_database ReferenceSnapshots.platform snapshot_host
           db_path logged_in_world) in
  Snapshots.query snapshot_host (@Snapshots.select_command db_path)
    (AccountSwitcher.itemTable (Snapshots.switcher logged_in_world)) = Some stdout
  /\ Str.trim stdout = active_identity
  /\ fst (@AccountSwitcher.loadSnapshots no_database (Snapshots.switcher logged_in_world))
     = Ok saved_before
  /\ @Snapshots.snapshot_key ReferenceSnapshots.platform active_identity = "a@x.com"
  /\ Snapshots.sets_prototype saved_before "a@x.com" = false
  /\ fst (@Snapshots.saveSnapshot no_database ReferenceSnapshots.platform snapshot_host
            db_path logged_in_world) = Ok true
  /\ AccountSwitcher.snapshotsCache (Snapshots.switcher w')
     = Some (<["a@x.com" := saved_a]> saved_before)
  /\ AccountSwitcher.secrets (Snapshots.switcher w') !! AccountSwitcher.SNAPSHOTS_KEY
     = Some (@JSON_stringify_snapshots ReferenceSnapshots.platform
               (<["a@x.com" := saved_a]> saved_before))
  /\ exists rest,
       AccountSwitcher.trace
         (snd (@AccountSwitcher.switchToAccount no_database switch_host db_path "a@x.com"
                 (Snapshots.switcher w')))
       = AccountSwitcher.trace (Snapshots.switcher w')
         ++ AccountSwitcher.Exec (@AccountSwitcher.update_command db_path active_identity)
            :: rest.
Proof.
  intros stdout w'.
  assert (H1 : Snapshots.query snapshot_host (@Snapshots.select_command db_path)
                 (AccountSwitcher.itemTable (Snapshots.switcher logged_in_world))
               = Some stdout) by (vm_compute; reflexivity).
  assert (H2 : Str.trim stdout = active_identity) by (vm_compute; reflexivity).
  assert (H3 : @Snapshots.snapshot_key ReferenceSnapshots.platform active_identity
               = "a@x.com") by (vm_compute; reflexivity).
  split; [exact H1|]. split; [exact H2|]. split; [vm_compute; reflexivity|].
  split; [exact H3|]. split; [reflexivity|].
  destruct (@saveSnapshot_then_switchToAccount no_database ReferenceSnapshots.platform
              snapshot_host switch_host db_path logged_in_world stdout saved_before
              (snd (@AccountSwitcher.loadSnapshots no_database
                      (Snapshots.switcher logged_in_world)))
              H1 ltac:(vm_compute; reflexivity) ltac:(vm_compute; reflexivity)
              ltac:(vm_compute; reflexivity) eq_refl)
    as (Htrue & Hcache & Hsecrets & _ & _ & _ & Hswitch).
  split; [exact Htrue|]. split; [exact Hcache|]. split; [exact Hsecrets|]. exact Hswitch.
Defined.

(** No identity row: the query prints nothing. *)
Lemma saveSnapshot_nothing_to_save_witness :
  let w' :=
    snd (@Snapshots.saveSnapshot no_database ReferenceSnapshots.platform snapshot_host
           db_path logged_out_world) in
  Snapshots.query snapshot_host (@Snapshots.select_command db_path)
    (AccountSwitcher.itemTable (Snapshots.switcher logged_out_world)) = Some ""
  /\ fst (@Snapshots.saveSnapshot no_database ReferenceSnapshots.platform snapshot_host
            db_path logged_out_world) = Ok false
  /\ AccountSwitcher.secrets (Snapshots.switcher w') = saved_secrets
  /\ Snapshots.shown w' = [Snapshots.ShowWarning Snapshots.NoLogin].
Proof.
  intros w'.
  assert (H1 : Snapshots.query snapshot_host (@Snapshots.select_command db_path)
                 (AccountSwitcher.itemTable (Snapshots.switcher logged_out_world))
               = Some "") by (vm_compute; reflexivity).
  split; [exact H1|].
  assert (H2 : match Snapshots.query snapshot_host (@Snapshots.select_command db_path)
                       (AccountSwitcher.itemTable (Snapshots.switcher logged_out_world))
               with
               | Some stdout => Str.falsy (Str.trim stdout) = true
               | None => True
               end) by (rewrite H1; reflexivity).
  destruct (@saveSnapshot_nothing_to_save no_database ReferenceSnapshots.platform
              snapshot_host db_path logged_out_world H2)
    as (Hfalse & Hsecrets & _ & _ & Hshown).
  split; [exact Hfalse|]. split; [exact Hsecrets|exact Hshown].
Defined.

(** The snapshot of b@x.com is deleted; c@x.com has none; [constructor]
    has none either, and is a member every object inherits. *)
Lemma deleteSnapshot_then_switchToAccount_witness :
  let w' :=
    snd (@Snapshots.deleteSnapshot no_database ReferenceSnapshots.platform snapshot_host
           "b@x.com" logged_in_world) in
  fst (@AccountSwitcher.loadSnapshots no_database (Snapshots.switcher logged_in_world))
  = Ok saved_before
  /\ saved_before !! "b@x.com" = Some snapshot_b
  /\ saved_before !! "c@x.com" = None
  /\ saved_before !! "constructor" = None
  /\ Snapshots.inherited (Snapshots.loaded_prototype logged_in_world) "b@x.com" = false
  /\ Snapshots.inherited (Snapshots.loaded_prototype logged_in_world) "c@x.com" = false
  /\ Snapshots.inherited (Snapshots.loaded_prototype logged_in_world) "constructor" = true
  /\ fst (@Snapshots.deleteSnapshot no_database ReferenceSnapshots.platform snapshot_host
            "b@x.com" logged_in_world) = Ok true
  /\ AccountSwitcher.snapshotsCache (Snapshots.switcher w') = Some (delete "b@x.com" saved_before)
  /\ fst (@AccountSwitcher.switchToAccount no_database switch_host db_path "b@x.com"
            (Snapshots.switcher w')) = Ok false
  /\ fst (@Snapshots.deleteSnapshot no_database ReferenceSnapshots.platform snapshot_host
            "c@x.com" logged_in_world) = Ok false
  /\ fst (@Snapshots.deleteSnapshot no_database ReferenceSnapshots.platform snapshot_host
            "constructor" logged_in_world) = Ok true
  /\ Snapshots.shown
       (snd (@Snapshots.deleteSnapshot no_database ReferenceSnapshots.platform
               snapshot_host "constructor" logged_in_world))
     = [Snapshots.ShowInformation (Snapshots.Deleted "constructor")].
Proof.
  intros w'.
  assert (H1 : saved_before !! "b@x.com" = Some snapshot_b) by (vm_compute; reflexivity).
  assert (H2 : saved_before !! "c@x.com" = None) by (vm_compute; reflexivity).
  assert (H3 : saved_before !! "constructor" = None) by (vm_compute; reflexivity).
  split; [vm_compute; reflexivity|].
  split; [exact H1|]. split; [exact H2|]. split; [exact H3|].
  do 3 (split; [reflexivity|]).
  pose proof (fun email =>
    @deleteSnapshot_then_switchToAccount no_database ReferenceSnapshots.platform
      snapshot_host switch_host db_path email logged_in_world saved_before
      (snd (@AccountSwitcher.loadSnapshots no_database
              (Snapshots.switcher logged_in_world)))
      ltac:(vm_compute; reflexivity)) as Hdelete.
  destruct (Hdelete "b@x.com") as (_ & Hpresent & _).
  destruct (Hpresent (ex_intro _ snapshot_b H1) eq_refl)
    as (Htrue & Hcache & _ & _ & _ & Hswitch).
  split; [exact Htrue|]. split; [exact Hcache|].
  split; [exact (f_equal fst (Hswitch eq_refl))|].
  destruct (Hdelete "c@x.com") as (Habsent & _ & _).
  split; [exact (f_equal fst (proj1 (Habsent H2 eq_refl)))|].
  destruct (Hdelete "constructor") as (_ & _ & Hinherited).
  destruct (Hinherited H3 eq_refl) as (Htrue' & _ & Hshown & _).
  split; [exact Htrue'|exact Hshown].
Defined.

(** With a secret storage that rejects the store, [saveSnapshot] answers
    true and the cache holds the snapshot of a@x.com, but a restarted
    extension loads the snapshots without it. *)
Lemma snapshots_persist_witness :
  let saved := <["a@x.com" := saved_a]> saved_before in
  let s' :=
    Snapshots.switcher
      (snd (@Snapshots.saveSnapshot no_database ReferenceSnapshots.platform snapshot_host
              db_path logged_in_world)) in
  let r' :=
    Snapshots.switcher
      (snd (@Snapshots.saveSnapshot no_database ReferenceSnapshots.platform rejecting_host
              db_path logged_in_world)) in
  AccountSwitcher.snapshotsCache s' = Some saved
  /\ fst (@AccountSwitcher.loadSnapshots no_database (Snapshots.restarted s')) = Ok saved
  /\ fst (@Snapshots.saveSnapshot no_database ReferenceSnapshots.platform rejecting_host
            db_path logged_in_world) = Ok true
  /\ AccountSwitcher.snapshotsCache r' = Some saved
  /\ AccountSwitcher.secrets r' = saved_secrets
  /\ fst (@AccountSwitcher.loadSnapshots no_database (Snapshots.restarted r'))
     = Ok saved_before.
Proof.
  intros saved s' r'.
  assert (H1 : AccountSwitcher.snapshotsCache s' = Some saved) by (vm_compute; reflexivity).
  assert (H2 : fst (@Snapshots.saveSnapshot no_database ReferenceSnapshots.platform
                      rejecting_host db_path logged_in_world) = Ok true)
    by (vm_compute; reflexivity).
  assert (H3 : AccountSwitcher.snapshotsCache r' = Some saved) by (vm_compute; reflexivity).
  split; [exact H1|].
  destruct (@snapshots_persist no_database ReferenceSnapshots.platform snapshot_host
              db_path "a@x.com" logged_in_world) as [Hsave _].
  destruct (Hsave ltac:(vm_compute; reflexivity)) as (stored & Hcache & Haccepted & _).
  fold s' in Hcache, Haccepted. rewrite H1 in Hcache. injection Hcache as <-.
  split; [exact (proj2 (Haccepted eq_refl) ltac:(vm_compute; reflexivity)
                   ltac:(vm_compute; reflexivity))|].
  split; [exact H2|]. split; [exact H3|].
  destruct (@snapshots_persist no_database ReferenceSnapshots.platform rejecting_host
              db_path "a@x.com" logged_in_world) as [Hrejected _].
  destruct (Hrejected H2) as (stored & Hcache & _ & Hstale).
  fold r' in Hcache, Hstale. rewrite H3 in Hcache. injection Hcache as <-.
  destruct (Hstale IOError eq_refl) as [Hsecrets Hrestart].
  split; [exact Hsecrets|]. rewrite Hrestart. vm_compute. reflexivity.
Defined.

(** A new key, the same key again, and the key [__proto__]. *)
Lemma getSnapshotCount_after_save_witness :
  let stdout := active_identity +:+ Str.of_chars [ReferenceSnapshots.newline] in
  let w' :=
    snd (@Snapshots.saveSnapshot no_database ReferenceSnapshots.platform snapshot_host
           db_path logged_in_world) in
  let p' :=
    snd (@Snapshots.saveSnapshot no_database ReferenceSnapshots.platform snapshot_host
           db_path proto_world) in
  fst (@Snapshots.getSnapshotCount no_database logged_in_world) = Ok 1
  /\ fst (@Snapshots.getSnapshotCount no_database w') = Ok 2
  /\ fst (@Snapshots.getSnapshotCount no_database
            (snd (@Snapshots.saveSnapshot no_database ReferenceSnapshots.platform
                    snapshot_host db_path w'))) = Ok 2
  /\ @Snapshots.snapshot_key ReferenceSnapshots.platform proto_identity = "__proto__"
  /\ Snapshots.sets_prototype saved_before "__proto__" = true
  /\ fst (@Snapshots.saveSnapshot no_database ReferenceSnapshots.platform snapshot_host
            db_path proto_world) = Ok true
  /\ fst (@Snapshots.getSnapshotCount no_database p') = Ok 1
  /\ fst (@Snapshots.getSnapshots no_database p') = Ok saved_before.
Proof.
  intros stdout w' p'.
  assert (H1 : Snapshots.query snapshot_host (@Snapshots.select_command db_path)
                 (AccountSwitcher.itemTable (Snapshots.switcher logged_in_world))
               = Some stdout) by (vm_compute; reflexivity).
  destruct (@getSnapshotCount_after_save no_database ReferenceSnapshots.platform
              snapshot_host db_path logged_in_world stdout saved_before
              (snd (@AccountSwitcher.loadSnapshots no_database
                      (Snapshots.switcher logged_in_world)))
              H1 ltac:(vm_compute; reflexivity) ltac:(vm_compute; reflexivity))
    as (Hbefore & Hnew & _).
  destruct (Hnew ltac:(vm_compute; reflexivity)) as [Hafter _].
  split; [refine (eq_trans Hbefore _); vm_compute; reflexivity|].
  split; [refine (eq_trans Hafter _); vm_compute; reflexivity|].
  assert (H2 : Snapshots.query snapshot_host (@Snapshots.select_command db_path)
                 (AccountSwitcher.itemTable (Snapshots.switcher w'))
               = Some stdout) by (vm_compute; reflexivity).
  destruct (@getSnapshotCount_after_save no_database ReferenceSnapshots.platform
              snapshot_host db_path w' stdout (<["a@x.com" := saved_a]> saved_before)
              (Snapshots.switcher w') H2 ltac:(vm_compute; reflexivity)
              ltac:(vm_compute; reflexivity)) as (_ & Hsame & _).
  destruct (Hsame ltac:(vm_compute; reflexivity)) as [Hagain _].
  split; [refine (eq_trans Hagain _); vm_compute; reflexivity|].
  assert (H3 : @Snapshots.snapshot_key ReferenceSnapshots.platform proto_identity
               = "__proto__") by (vm_compute; reflexivity).
  split; [exact H3|]. split; [reflexivity|].
  destruct (@getSnapshotCount_after_save no_database ReferenceSnapshots.platform
              snapshot_host db_path proto_world
              (proto_identity +:+ Str.of_chars [ReferenceSnapshots.newline]) saved_before
              (snd (@AccountSwitcher.loadSnapshots no_database
                      (Snapshots.switcher proto_world)))
              ltac:(vm_compute; reflexivity) ltac:(vm_compute; reflexivity)
              ltac:(vm_compute; reflexivity)) as (_ & _ & Hproto).
  destruct (Hproto ltac:(vm_compute; reflexivity)) as (Htrue & _ & Hcount & Hget & _).
  split; [exact Htrue|]. split; [refine (eq_trans Hcount _); vm_compute; reflexivity|].
  exact Hget.
Defined.

Lemma escape_quotes_exact_witness :
  AccountSwitcher.escape_quotes "it's" = "it''s"
  /\ AccountSwitcher.sql_literal_value "it''s" = Some "it's"
  /\ AccountSwitcher.escape_quotes "{}" = "{}".
Proof.
  destruct (escape_quotes_exact "it's") as (Hvalue & _ & _).
  destruct (escape_quotes_exact "{}") as (_ & _ & Hsame).
  split; [reflexivity|]. split; [exact Hvalue|].
  apply Hsame. vm_compute. intros Hin.
  repeat (apply elem_of_cons in Hin as [Hin|Hin]; [discriminate|]).
  inversion Hin.
Defined.

End SnapshotScenarios.
